(** * VDC-Display: shift progress and stage breakdown

    A shallow embedding of [modules/database.py], [modules/shift_progress.py]
    and [modules/stage_breakdown.py], with the properties of the metrics core.

    Python values are embedded as they are at run time: integers as [Z],
    floats as IEEE-754 binary64 values (Rocq's primitive [float]), strings
    as [string], dictionaries as [gmap string pyval].  Exceptions are values of
    [exn]; code that talks to the store runs in a small monad that threads
    the log of executed statements and stops at the first exception.

    The model comes first, then the vocabulary of the properties, the
    lemmas, and the claims about the metrics core, one theorem each. *)

From Stdlib Require Import ZArith Lia Floats Reals Lra Psatz.
From stdpp Require Import gmap strings pretty list sorting.

Local Open Scope Z_scope.

(** ** Python values and exceptions *)

Inductive pyval :=
  | PNone
  | PInt (z : Z)
  | PFloat (f : float)
  | PStr (s : string).

Inductive exn :=
  | FileNotFoundError (msg : string)
  | DatabaseError (msg : string)
  | KeyError (key : string)
  | TypeError
  | ValueError
  | OverflowError
  | ZeroDivisionError.

(** A row as [query_df] builds it: [dict(zip(columns, row))]. *)
Abbreviation row := (gmap string pyval).

(** Computations that may raise. *)
Definition result (A : Type) : Type := exn + A.

Definition rbind {A B} (m : result A) (k : A -> result B) : result B :=
  match m with
  | inl e => inl e
  | inr a => k a
  end.

Notation "'try' x <- m ; k" := (rbind m (fun x => k))
  (at level 60, x name, m at next level, right associativity).

(** [d[key]]: [KeyError] when the key is missing. *)
Definition getitem (d : row) (key : string) : result pyval :=
  match d !! key with
  | Some v => inr v
  | None => inl (KeyError key)
  end.

(** Truthiness of a [dict | None] value: [None] and the empty dict are false. *)
Definition truthy (d : option row) : bool :=
  match d with
  | None => false
  | Some r => negb (bool_decide (r = ∅))
  end.

(** A [datetime.date] and its [isoformat()]: [YYYY-MM-DD], zero padded. *)
Record date := { year : Z; month : Z; day : Z }.

Definition zfill (width : nat) (s : string) : string :=
  String.string_of_list_ascii
    (replicate (width - String.length s) (Ascii.Ascii false false false false true true false false))
    +:+ s.

Definition isoformat (d : date) : string :=
  zfill 4 (pretty (year d)) +:+ "-" +:+ zfill 2 (pretty (month d))
    +:+ "-" +:+ zfill 2 (pretty (day d)).

(** ** The access layer: [modules/database.py] *)

Module Database.

(** A statement as handed to [conn.execute]: its text and its parameters. *)
Definition call : Type := string * list pyval.

(** What the process can observe of its environment: whether the file at
    [DATABASE_PATH] exists, whether [sqlite3.connect] raises, what the engine
    answers to a statement (the rows already zipped with the column names,
    or the exception it raises), the wall clock, and the interpreter's
    parser of float literals (used by [float(str)]). *)
Record World := {
  DATABASE_PATH : string;
  path_exists : bool;
  sqlite_connect : option exn;
  sqlite_execute : string -> list pyval -> result (list row);
  now_hour : Z;
  today : date;
  float_of_str : string -> option float;
}.

(** State: the log of statements executed so far, oldest first. *)
Definition M (A : Type) : Type := list call -> result A * list call.

Definition ret {A} (a : A) : M A := fun log => (inr a, log).
Definition raise {A} (e : exn) : M A := fun log => (inl e, log).
Definition bind {A B} (m : M A) (k : A -> M B) : M B :=
  fun log =>
    match m log with
    | (inl e, log') => (inl e, log')
    | (inr a, log') => k a log'
    end.
Definition lift {A} (r : result A) : M A := fun log => (r, log).

Notation "'do' x <- m ; k" := (bind m (fun x => k))
  (at level 60, x name, m at next level, right associativity).

Section Queries.
Variable W : World.

(** [get_connection]: the existence check comes before [sqlite3.connect];
    the body of the [with] block runs on the open connection and the
    connection is closed whatever the body does. *)
Definition get_connection {A} (body : M A) : M A :=
  if path_exists W then
    match sqlite_connect W with
    | Some e => raise e
    | None => body
    end
  else raise (FileNotFoundError ("Database not found: " +:+ DATABASE_PATH W)).

(** [conn.execute(sql, params)] followed by reading the cursor. *)
Definition execute (sql : string) (params : list pyval) : M (list row) :=
  fun log => (sqlite_execute W sql params, log ++ [(sql, params)]).

Definition query_df (sql : string) (params : list pyval) : M (list row) :=
  get_connection (execute sql params).

Definition query_one (sql : string) (params : list pyval) : M (option row) :=
  do results <- query_df sql params;
  ret (match results with
       | [] => None
       | r :: _ => Some r
       end).
End Queries.

End Database.

(** ** The access layer again, with the life of the connection

    The same three functions, run over a trace that also shows when a
    connection is opened and when it is closed: [sqlite3.connect] with its
    URI, the statement, [conn.close()] in the [finally] block. *)

Module Traced.
Import Database.

Inductive event :=
  | Connect (uri : string)
  | Execute (sql : string) (params : list pyval)
  | Close.

Definition T (A : Type) : Type := list event -> result A * list event.

Definition emit (e : event) : T unit := fun tr => (inr tt, tr ++ [e]).
Definition raise {A} (e : exn) : T A := fun tr => (inl e, tr).
Definition ret {A} (a : A) : T A := fun tr => (inr a, tr).
Definition bind {A B} (m : T A) (k : A -> T B) : T B :=
  fun tr =>
    match m tr with
    | (inl e, tr') => (inl e, tr')
    | (inr a, tr') => k a tr'
    end.

(** [try: body finally: handler]: the handler runs whatever the body did,
    and the outcome of the body stands. *)
Definition finally {A} (body : T A) (handler : T unit) : T A :=
  fun tr =>
    match body tr with
    | (r, tr') =>
        match handler tr' with
        | (inl e, tr'') => (inl e, tr'')
        | (inr _, tr'') => (r, tr'')
        end
    end.

Section Queries.
Variable W : World.

(** [f"file:{db_path}?mode=ro"], with [DATABASE_PATH] the path as [Path]
    prints it. *)
Definition uri : string := "file:" +:+ DATABASE_PATH W +:+ "?mode=ro".

Definition get_connection {A} (body : T A) : T A :=
  if path_exists W then
    match sqlite_connect W with
    | Some e => raise e
    | None => bind (emit (Connect uri)) (fun _ => finally body (emit Close))
    end
  else raise (FileNotFoundError ("Database not found: " +:+ DATABASE_PATH W)).

Definition execute (sql : string) (params : list pyval) : T (list row) :=
  fun tr => (sqlite_execute W sql params, tr ++ [Execute sql params]).

Definition query_df (sql : string) (params : list pyval) : T (list row) :=
  get_connection (execute sql params).

Definition query_one (sql : string) (params : list pyval) : T (option row) :=
  bind (query_df sql params)
    (fun results => ret (match results with
                         | [] => None
                         | r :: _ => Some r
                         end)).
End Queries.

End Traced.

(** ** Python arithmetic on [int] and [float] *)

Module Py.

(** An integer as an exact (unrounded) binary float. *)
Definition Z2SF (z : Z) : spec_float :=
  match z with
  | Z0 => S754_zero false
  | Zpos p => S754_finite false p 0
  | Zneg p => S754_finite true p 0
  end.

(** A rounded result as a [float]; [OverflowError] when the rounding went
    beyond the largest double. *)
Definition finite_or_overflow (x : spec_float) : result float :=
  match x with
  | S754_infinity _ => inl OverflowError
  | _ => inr (SF2Prim x)
  end.

(** [float(z)] for an [int]: the nearest double, ties to even. *)
Definition float_of_int (z : Z) : result float :=
  finite_or_overflow (binary_normalize prec emax z 0 false).

(** [float(v)]. *)
Definition py_float (parse : string -> option float) (v : pyval) : result float :=
  match v with
  | PInt z => float_of_int z
  | PFloat f => inr f
  | PStr s => match parse s with Some f => inr f | None => inl ValueError end
  | PNone => inl TypeError
  end.

(** [int(f)] for a [float]: truncation toward zero; [ValueError] on NaN,
    [OverflowError] on an infinity. *)
Definition int_of_float (f : float) : result Z :=
  match Prim2SF f with
  | S754_nan => inl ValueError
  | S754_infinity _ => inl OverflowError
  | S754_zero _ => inr 0
  | S754_finite s m e => inr (cond_Zopp s (Z.shiftl (Zpos m) e))
  end.

(** [int(v)] for a number. *)
Definition py_int (v : pyval) : result Z :=
  match v with
  | PInt z => inr z
  | PFloat f => int_of_float f
  | _ => inl TypeError
  end.

(** The largest integer not above a finite double (used in statements
    only; the code truncates). *)
Definition floor_of_float (f : float) : option Z :=
  match Prim2SF f with
  | S754_zero _ => Some 0
  | S754_finite s m e => Some (Z.shiftl (cond_Zopp s (Zpos m)) e)
  | _ => None
  end.

(** Exact comparison of an integer with a double, as Python does it:
    [None] when the double is NaN. *)
Definition compare_int_float (z : Z) (f : float) : option comparison :=
  match Prim2SF f with
  | S754_nan => None
  | S754_infinity s => Some (if s then Gt else Lt)
  | S754_zero _ => Some (z ?= 0)
  | S754_finite s m e =>
      let v := cond_Zopp s (Zpos m) in
      Some (if 0 <=? e then z ?= v * 2 ^ e else z * 2 ^ (- e) ?= v)
  end.

Definition compare_float (a b : float) : option comparison :=
  match (a ?= b)%float with
  | FEq => Some Eq
  | FLt => Some Lt
  | FGt => Some Gt
  | FNotComparable => None
  end.

(** Ordering of two numbers; [TypeError] when one is not a number (the
    code never compares two strings). *)
Definition num_compare (a b : pyval) : result (option comparison) :=
  match a, b with
  | PInt x, PInt y => inr (Some (x ?= y))
  | PFloat x, PFloat y => inr (compare_float x y)
  | PInt x, PFloat y => inr (compare_int_float x y)
  | PFloat x, PInt y => inr (option_map CompOpp (compare_int_float y x))
  | _, _ => inl TypeError
  end.

Definition py_gt (a b : pyval) : result bool :=
  try c <- num_compare a b;
  inr (match c with Some Gt => true | _ => false end).

Definition py_le (a b : pyval) : result bool :=
  try c <- num_compare a b;
  inr (match c with Some (Lt | Eq) => true | _ => false end).

Definition py_eq (a b : pyval) : bool :=
  match a, b with
  | PNone, PNone => true
  | PStr x, PStr y => bool_decide (x = y)
  | _, _ =>
      match num_compare a b with
      | inr (Some Eq) => true
      | _ => false
      end
  end.

Definition py_ge (a b : pyval) : result bool :=
  try c <- num_compare a b;
  inr (match c with Some (Gt | Eq) => true | _ => false end).

(** [a + b]. *)
Definition py_add (a b : pyval) : result pyval :=
  match a, b with
  | PInt x, PInt y => inr (PInt (x + y))
  | PFloat x, PFloat y => inr (PFloat (x + y))
  | PInt x, PFloat y => try fx <- float_of_int x; inr (PFloat (fx + y))
  | PFloat x, PInt y => try fy <- float_of_int y; inr (PFloat (x + fy))
  | PStr x, PStr y => inr (PStr (x +:+ y))
  | _, _ => inl TypeError
  end.

(** [a / b] on two [int]s: the correctly rounded quotient. *)
Definition int_true_divide (a b : Z) : result float :=
  if b =? 0 then inl ZeroDivisionError
  else finite_or_overflow (SF64div (Z2SF a) (Z2SF b)).

Definition float_div (a b : float) : result float :=
  if (b =? 0)%float then inl ZeroDivisionError else inr (a / b)%float.

(** [a / b]: true division, always a [float]. *)
Definition py_truediv (a b : pyval) : result float :=
  match a, b with
  | PInt x, PInt y => int_true_divide x y
  | PFloat x, PFloat y => float_div x y
  | PInt x, PFloat y => try fx <- float_of_int x; float_div fx y
  | PFloat x, PInt y => try fy <- float_of_int y; float_div x fy
  | _, _ => inl TypeError
  end.

(** Numbers whose value as a double is finite: a double that is not NaN
    or an infinity, an integer that [float()] converts. *)
Definition is_finite_float (f : float) : bool :=
  match Prim2SF f with
  | S754_zero _ | S754_finite _ _ _ => true
  | _ => false
  end.

Definition finite_number (v : pyval) : bool :=
  match v with
  | PInt z => match float_of_int z with inr _ => true | inl _ => false end
  | PFloat f => is_finite_float f
  | _ => false
  end.

(** The expression both calculators use:
    [int((completed / total * 100) if total > 0 else 0)]. *)
Definition percent_complete (completed total : pyval) : result Z :=
  try positive <- py_gt total (PInt 0);
  if positive then
    try q <- py_truediv completed total;
    int_of_float (q * 100)%float
  else inr 0.

End Py.

(** ** [modules/shift_progress.py] *)

Module ShiftProgress.
Import Database Py.

Definition vehicles_query : string := "
        SELECT
            COUNT(*) as total_vehicles,
            COALESCE(SUM(estimated_labor_hours), 0) as total_hours,
            COUNT(CASE WHEN status = 'delivered' THEN 1 END) as completed_vehicles
        FROM vehicles
        WHERE shift_assigned = ?
        AND DATE(arrival_time) = ?
    ".

Definition completed_query : string := "
        SELECT COALESCE(SUM(actual_hours), 0) as completed_hours
        FROM work_orders wo
        JOIN vehicles v ON wo.vehicle_id = v.id
        WHERE v.shift_assigned = ?
        AND DATE(v.arrival_time) = ?
        AND wo.status = 'complete'
    ".

Definition carryover_query : string := "
        SELECT COALESCE(carryover_hours, 0) as carryover_hours
        FROM shift_summaries
        WHERE shift_date = ?
        AND shift_type = ?
        ORDER BY created_at DESC
        LIMIT 1
    ".

(** The dictionary used when the vehicle query yields nothing. *)
Definition no_vehicle_stats : row :=
  list_to_map [("total_vehicles", PInt 0); ("total_hours", PInt 0);
               ("completed_vehicles", PInt 0)].

(** [if not vehicle_stats: vehicle_stats = {...}]. *)
Definition vehicle_stats_or_default (r : option row) : row :=
  match r with
  | Some d => if truthy r then d else no_vehicle_stats
  | None => no_vehicle_stats
  end.

(** [stats[key] if stats else 0]. *)
Definition hours_or_zero (r : option row) (key : string) : result pyval :=
  match r with
  | Some d => if truthy r then getitem d key else inr (PInt 0)
  | None => inr (PInt 0)
  end.

Section Calculator.
Variable W : World.

(** [datetime.now().hour] is read from the world's clock. *)
Definition get_current_shift : string :=
  let hour := now_hour W in
  if (6 <=? hour) && (hour <? 18) then "day" else "night".

Definition calculate_shift_workload
    (shift : option string) (target_date : option date) : M row :=
  let shift := match shift with None => get_current_shift | Some s => s end in
  let target_date := match target_date with None => today W | Some d => d end in
  let date_str := isoformat target_date in
  do vehicle_stats <- query_one W vehicles_query [PStr shift; PStr date_str];
  let vehicle_stats := vehicle_stats_or_default vehicle_stats in
  do completed_stats <- query_one W completed_query [PStr shift; PStr date_str];
  do completed_hours <- lift (hours_or_zero completed_stats "completed_hours");
  do carryover_stats <- query_one W carryover_query [PStr date_str; PStr shift];
  do carryover_hours <- lift (hours_or_zero carryover_stats "carryover_hours");
  do total_hours_value <- lift (getitem vehicle_stats "total_hours");
  do new_hours <- lift (py_float (float_of_str W) total_hours_value);
  do total_hours <- lift (py_add (PFloat new_hours) carryover_hours);
  do percent <- lift (percent_complete completed_hours total_hours);
  do vehicles_total <- lift (getitem vehicle_stats "total_vehicles");
  do vehicles_completed <- lift (getitem vehicle_stats "completed_vehicles");
  ret (list_to_map
         [("shift", PStr shift);
          ("date", PStr date_str);
          ("new_hours", PFloat new_hours);
          ("carryover_hours", carryover_hours);
          ("total_hours", total_hours);
          ("completed_hours", completed_hours);
          ("percent_complete", PInt percent);
          ("vehicles_total", vehicles_total);
          ("vehicles_completed", vehicles_completed)] : row).

(** The data shown when the store is not available. *)
Definition get_demo_data : row :=
  list_to_map
    [("shift", PStr get_current_shift);
     ("date", PStr (isoformat (today W)));
     ("new_hours", PFloat 126);
     ("carryover_hours", PFloat 6);
     ("total_hours", PFloat 132);
     ("completed_hours", PFloat 87);
     ("percent_complete", PInt 65);
     ("vehicles_total", PInt 48);
     ("vehicles_completed", PInt 32)].
End Calculator.

End ShiftProgress.

(** ** [modules/stage_breakdown.py] *)

Fixpoint mapM {A B} (f : A -> result B) (l : list A) : result (list B) :=
  match l with
  | [] => inr []
  | x :: l' =>
      try y <- f x;
      try ys <- mapM f l';
      inr (y :: ys)
  end.

Module StageBreakdown.
Import Database Py.

Definition stage_query : string := "
        SELECT
            ps.stage_name,
            ps.stage_order,
            COUNT(v.id) as vehicle_count,
            COALESCE(SUM(
                CASE WHEN wo.status != 'complete'
                THEN wo.estimated_hours
                ELSE 0 END
            ), 0) as hours_remaining,
            COALESCE(SUM(
                CASE WHEN wo.status = 'complete'
                THEN wo.actual_hours
                ELSE 0 END
            ), 0) as hours_completed
        FROM production_stages ps
        LEFT JOIN vehicles v ON v.current_stage_id = ps.id
            AND DATE(v.arrival_time) = ?
            AND (? IS NULL OR v.shift_assigned = ?)
        LEFT JOIN work_orders wo ON wo.vehicle_id = v.id
        GROUP BY ps.id, ps.stage_name, ps.stage_order
        ORDER BY ps.stage_order
    ".

(** The body of the loop over the result rows: the row gets its
    [percent_complete] entry. *)
Definition add_percent (r : row) : result row :=
  try remaining <- getitem r "hours_remaining";
  try completed <- getitem r "hours_completed";
  try total <- py_add remaining completed;
  try percent <- percent_complete completed total;
  inr (<["percent_complete" := PInt percent]> r).

(** A [str | None] argument as a statement parameter. *)
Definition shift_param (shift : option string) : pyval :=
  match shift with
  | None => PNone
  | Some s => PStr s
  end.

Section Calculator.
Variable W : World.

Definition get_stage_breakdown
    (shift : option string) (target_date : option date) : M (list row) :=
  let target_date := match target_date with None => today W | Some d => d end in
  let date_str := isoformat target_date in
  do results <- query_df W stage_query
                  [PStr date_str; shift_param shift; shift_param shift];
  lift (mapM add_percent results).

(** The same function called with a value that is not known to be
    [str | None], as [load_data] calls it with [shift_data['shift']]:
    whatever it is goes to the statement. *)
Definition get_stage_breakdown_of
    (shift : pyval) (target_date : option date) : M (list row) :=
  let target_date := match target_date with None => today W | Some d => d end in
  let date_str := isoformat target_date in
  do results <- query_df W stage_query [PStr date_str; shift; shift];
  lift (mapM add_percent results).
End Calculator.

Definition demo_stage (name : string) (order count : Z) (remaining completed : float)
    (percent : Z) : row :=
  list_to_map
    [("stage_name", PStr name);
     ("stage_order", PInt order);
     ("vehicle_count", PInt count);
     ("hours_remaining", PFloat remaining);
     ("hours_completed", PFloat completed);
     ("percent_complete", PInt percent)].

(** The stages shown when the store is not available. *)
Definition get_demo_stages : list row :=
  [demo_stage "Installation" 1 12 18.5 42 69;
   demo_stage "PPO" 2 8 12 24 66;
   demo_stage "Shuttle" 3 6 3 9 75;
   demo_stage "FQA" 4 10 8 12 60].

End StageBreakdown.

(** ** [app.py]: the data of the dashboard *)

Module App.
Import Database Py ShiftProgress StageBreakdown.

Definition get_progress_class (percent : pyval) : result string :=
  try good <- py_ge percent (PInt 60);
  if good then inr "progress-good"
  else
    try warning <- py_ge percent (PInt 40);
    if warning then inr "progress-warning" else inr "progress-behind".

(** [try: ... except Exception: ...]: every exception of [exn] is an
    [Exception]; the handler starts from what the body had done. *)
Definition except_Exception {A} (body handler : M A) : M A :=
  fun log =>
    match body log with
    | (inl _, log') => handler log'
    | (inr a, log') => (inr a, log')
    end.

Section Loading.
Variable W : World.

Definition load_data : M (row * list row) :=
  except_Exception
    (do shift_data <- calculate_shift_workload W None None;
     do shift <- lift (getitem shift_data "shift");
     do stage_data <- get_stage_breakdown_of W shift None;
     ret (shift_data, stage_data))
    (ret (get_demo_data W, get_demo_stages)).
End Loading.

End App.

(** ** The store: what the engine answers to the stage statement

    The tables the stage statement reads, with the columns it reads, and the
    statement's meaning over them: the two left joins, the grouping, the
    aggregates and the ordering. *)

Module SQLite.
Import Database.

(** A numeric column value: INTEGER (64-bit) or REAL. *)
Inductive sqlnum :=
  | SqlInt (z : Z)
  | SqlReal (f : float).

Record production_stage := {
  ps_id : Z;
  stage_name : string;
  stage_order : Z;
}.

Record vehicle := {
  v_id : Z;
  current_stage_id : option Z;
  arrival_time : option string;
  shift_assigned : option string;
}.

Record work_order := {
  vehicle_id : option Z;
  status : option string;
  estimated_hours : option sqlnum;
  actual_hours : option sqlnum;
}.

Record database := {
  production_stages : list production_stage;
  vehicles : list vehicle;
  work_orders : list work_order;
}.

#[export] Instance production_stage_eq_dec : EqDecision production_stage.
Proof. solve_decision. Defined.

(** A row of the join: the stage, and the vehicle and work order joined to
    it, each absent (all NULL) when the left join found none. *)
Definition joined_row : Type := production_stage * option (vehicle * option work_order).

(** [column = ?] on a TEXT value: true only for a non-NULL column and an
    equal text parameter. *)
Definition text_eq (column : option string) (param : pyval) : bool :=
  match column, param with
  | Some a, PStr b => bool_decide (a = b)
  | _, _ => false
  end.

Definition is_null (param : pyval) : bool :=
  match param with
  | PNone => true
  | _ => false
  end.

Definition is_int (x : sqlnum) : bool :=
  match x with
  | SqlInt _ => true
  | SqlReal _ => false
  end.

Definition int64 (z : Z) : bool := (- 2 ^ 63 <=? z) && (z <? 2 ^ 63).

(** SUM over INTEGER values: [integer overflow] as soon as a partial sum
    leaves the 64-bit range. *)
Fixpoint int_sum (acc : Z) (xs : list sqlnum) : result Z :=
  match xs with
  | [] => inr acc
  | SqlInt z :: xs' =>
      if int64 (acc + z) then int_sum (acc + z) xs'
      else inl (DatabaseError "integer overflow")
  | SqlReal _ :: xs' => int_sum acc xs'
  end.

Definition coalesce0 (v : option pyval) : pyval :=
  match v with
  | Some x => x
  | None => PInt 0
  end.

(** The order of [ORDER BY ps.stage_order] on the group keys. *)
Definition by_stage_order (k1 k2 : production_stage) : Prop :=
  stage_order k1 <= stage_order k2.

#[export] Instance by_stage_order_dec k1 k2 : Decision (by_stage_order k1 k2).
Proof. unfold by_stage_order. apply _. Defined.

Section Engine.
(** The engine's [DATE()] on a time string and its floating-point
    accumulation in [SUM] are taken as they come; [other] is the engine on
    every statement that is not modelled here. *)
Variable DATE : string -> option string.
Variable real_sum : list sqlnum -> float.
Variable other : string -> list pyval -> result (list row).
Variable db : database.

(** [SUM(...)]: NULL inputs are skipped; NULL when nothing is left, an
    INTEGER when every input is one, a REAL otherwise. *)
Definition sql_sum (xs : list (option sqlnum)) : result (option pyval) :=
  match omap (fun x => x) xs with
  | [] => inr None
  | vs =>
      if forallb is_int vs then
        try s <- int_sum 0 vs;
        inr (Some (PInt s))
      else inr (Some (PFloat (real_sum vs)))
  end.

Section Statement.
(** The three parameters of the stage statement. *)
Variables (p_date p_null p_shift : pyval).

(** The ON condition of [LEFT JOIN vehicles v]. *)
Definition vehicle_on (ps : production_stage) (v : vehicle) : bool :=
  bool_decide (current_stage_id v = Some (ps_id ps))
  && text_eq (arrival_time v ≫= DATE) p_date
  && (is_null p_null || text_eq (shift_assigned v) p_shift).

(** [LEFT JOIN work_orders wo ON wo.vehicle_id = v.id]. *)
Definition join_work_orders (ps : production_stage) (v : vehicle) : list joined_row :=
  match filter (λ wo, vehicle_id wo = Some (v_id v)) (work_orders db) with
  | [] => [(ps, Some (v, None))]
  | wos => (λ wo, (ps, Some (v, Some wo))) <$> wos
  end.

Definition join_vehicles (ps : production_stage) : list joined_row :=
  match filter (λ v, vehicle_on ps v = true) (vehicles db) with
  | [] => [(ps, None)]
  | vs => vs ≫= join_work_orders ps
  end.

Definition joined : list joined_row :=
  production_stages db ≫= join_vehicles.

(** [GROUP BY ps.id, ps.stage_name, ps.stage_order]: the groups are
    named by their key, and a group is the rows that carry the key. *)
Definition group_keys (rows : list joined_row) : list production_stage :=
  remove_dups (rows.*1).

Definition group_rows (rows : list joined_row) (k : production_stage)
    : list joined_row :=
  filter (λ r, r.1 = k) rows.

(** [CASE WHEN wo.status != 'complete' THEN wo.estimated_hours ELSE 0 END]. *)
Definition case_remaining (r : joined_row) : option sqlnum :=
  match r.2 with
  | Some (_, Some wo) =>
      match status wo with
      | Some st => if bool_decide (st ≠ "complete") then estimated_hours wo
                   else Some (SqlInt 0)
      | None => Some (SqlInt 0)
      end
  | _ => Some (SqlInt 0)
  end.

(** [CASE WHEN wo.status = 'complete' THEN wo.actual_hours ELSE 0 END]. *)
Definition case_completed (r : joined_row) : option sqlnum :=
  match r.2 with
  | Some (_, Some wo) =>
      match status wo with
      | Some st => if bool_decide (st = "complete") then actual_hours wo
                   else Some (SqlInt 0)
      | None => Some (SqlInt 0)
      end
  | _ => Some (SqlInt 0)
  end.

(** [COUNT(v.id)]: the rows of the group that carry a vehicle. *)
Definition count_vehicle_id (rows : list joined_row) : Z :=
  Z.of_nat (length (filter (λ r, is_Some r.2) rows)).

(** The SELECT list over one group. *)
Definition select (rows : list joined_row) (k : production_stage) : result row :=
  let g := group_rows rows k in
  try remaining <- sql_sum (case_remaining <$> g);
  try completed <- sql_sum (case_completed <$> g);
  inr (list_to_map
         [("stage_name", PStr (stage_name k));
          ("stage_order", PInt (stage_order k));
          ("vehicle_count", PInt (count_vehicle_id g));
          ("hours_remaining", coalesce0 remaining);
          ("hours_completed", coalesce0 completed)] : row).

(** The whole statement; [ORDER BY ps.stage_order] orders the groups. *)
Definition stage_rows : result (list row) :=
  mapM (select joined) (merge_sort by_stage_order (group_keys joined)).
End Statement.

Definition text_or_null (p : pyval) : bool :=
  match p with
  | PNone | PStr _ => true
  | _ => false
  end.

(** The engine on a statement: the stage statement with a text date and
    text-or-NULL shift parameters is answered from the tables. *)
Definition engine (sql : string) (params : list pyval) : result (list row) :=
  if bool_decide (sql = StageBreakdown.stage_query) then
    match params with
    | [PStr d; s1; s2] =>
        if text_or_null s1 && text_or_null s2 then stage_rows (PStr d) s1 s2
        else other sql params
    | _ => other sql params
    end
  else other sql params.
End Engine.

End SQLite.

(** * The vocabulary of the properties

    What the statements below speak of: the arguments a call resolves, the
    summary it builds, a store and its variations, doubles as real numbers,
    and a sample world to run the calculators in. *)

Import Database Py ShiftProgress StageBreakdown.

(** ** Calls and what they return *)

(** The shift and the date string a call works with. *)
Definition resolved_shift (W : World) (shift : option string) : string :=
  match shift with
  | None => get_current_shift W
  | Some s => s
  end.

Definition resolved_date (W : World) (target_date : option date) : string :=
  isoformat (match target_date with None => today W | Some d => d end).

(** The summary dictionary, from its nine values. *)
Definition workload_summary (shift date_str : string) (new_hours : float)
    (carryover total completed : pyval) (percent : Z)
    (vehicles_total vehicles_completed : pyval) : row :=
  list_to_map
    [("shift", PStr shift);
     ("date", PStr date_str);
     ("new_hours", PFloat new_hours);
     ("carryover_hours", carryover);
     ("total_hours", total);
     ("completed_hours", completed);
     ("percent_complete", PInt percent);
     ("vehicles_total", vehicles_total);
     ("vehicles_completed", vehicles_completed)].

(** A call that returns went through every step of the function. *)
Inductive workload_run (W : World) (shift : option string) (target_date : option date)
    (log : list call) : row -> list call -> Prop :=
  | WorkloadRun stats completed_stats carryover_stats log1 log2 log3
      completed carryover value new_hours total percent
      vehicles_total vehicles_completed :
      query_one W vehicles_query
        [PStr (resolved_shift W shift); PStr (resolved_date W target_date)] log
        = (inr stats, log1) ->
      query_one W completed_query
        [PStr (resolved_shift W shift); PStr (resolved_date W target_date)] log1
        = (inr completed_stats, log2) ->
      hours_or_zero completed_stats "completed_hours" = inr completed ->
      query_one W carryover_query
        [PStr (resolved_date W target_date); PStr (resolved_shift W shift)] log2
        = (inr carryover_stats, log3) ->
      hours_or_zero carryover_stats "carryover_hours" = inr carryover ->
      getitem (vehicle_stats_or_default stats) "total_hours" = inr value ->
      py_float (float_of_str W) value = inr new_hours ->
      py_add (PFloat new_hours) carryover = inr total ->
      percent_complete completed total = inr percent ->
      getitem (vehicle_stats_or_default stats) "total_vehicles" = inr vehicles_total ->
      getitem (vehicle_stats_or_default stats) "completed_vehicles"
        = inr vehicles_completed ->
      workload_run W shift target_date log
        (workload_summary (resolved_shift W shift) (resolved_date W target_date)
           new_hours carryover total completed percent
           vehicles_total vehicles_completed)
        log3.

(** What a run returned, if it returned; and one field of one entry of a
    returned sequence. *)
Definition returned {A} (run : result A * list call) : option A :=
  match run.1 with
  | inr a => Some a
  | inl _ => None
  end.

Definition entry_field (run : result (list row) * list call) (i : nat) (key : string)
    : option pyval :=
  rows ← returned run; entry ← rows !! i; entry !! key.

(** One field of a returned summary. *)
Definition summary_field (run : result row * list call) (key : string) : option pyval :=
  summary ← returned run; summary !! key.

(** ** Stores *)

(** A world whose store is there, opens, and answers from the tables. *)
Definition store_world (DATE : string -> option string)
    (real_sum : list SQLite.sqlnum -> float)
    (other : string -> list pyval -> result (list row))
    (db : SQLite.database) (W : World) : Prop :=
  path_exists W = true /\
  sqlite_connect W = None /\
  sqlite_execute W = SQLite.engine DATE real_sum other db.



Section Reassignment.
Import SQLite.
Variable db : database.
(** The same store with other shifts assigned to its vehicles. *)
Variable new_shift : vehicle -> option string.

Definition with_shift (v : vehicle) : vehicle :=
  {| v_id := v_id v;
     current_stage_id := current_stage_id v;
     arrival_time := arrival_time v;
     shift_assigned := new_shift v |}.

Definition reassign_shifts : database :=
  {| production_stages := production_stages db;
     vehicles := with_shift <$> vehicles db;
     work_orders := work_orders db |}.

Definition with_shift_row (r : joined_row) : joined_row :=
  (r.1, (fun vw : vehicle * option work_order => (with_shift vw.1, vw.2)) <$> r.2).
End Reassignment.

Section JoinRows.
Import SQLite.
Variable DATE : string -> option string.
Variable db : database.
Variables (p_date p_null p_shift : pyval).
Local Abbreviation vehicle_on := (vehicle_on DATE p_date p_null p_shift).

(** The work orders joined to a vehicle, and the rows a stage has in the
    join for its vehicles: one per work order, one for a vehicle without. *)
Definition work_orders_of (v : vehicle) : list work_order :=
  filter (fun wo => vehicle_id wo = Some (v_id v)) (work_orders db).

Definition vehicle_rows (ps : production_stage) : nat :=
  sum_list ((fun v => Nat.max 1 (length (work_orders_of v)))
              <$> filter (fun v => vehicle_on ps v = true) (vehicles db)).
End JoinRows.

(** The count as the specification words it: the number of distinct
    vehicles assigned to the stage whose arrival date matches and, when a
    shift is given, whose assigned shift matches. *)
Definition distinct_matched_vehicles (DATE : string -> option string)
    (db : SQLite.database) (date_str : string) (shift : option string)
    (ps : SQLite.production_stage) : Z :=
  Z.of_nat (length (remove_dups
    (SQLite.v_id <$>
       filter (fun v => SQLite.vehicle_on DATE (PStr date_str)
                          (shift_param shift) (shift_param shift) ps v = true)
              (SQLite.vehicles db)))).

(** ** The percentage in exact arithmetic *)

(** The percentage as the specification words it, over whole hours:
    [floor(completed / total * 100)] in exact arithmetic, 0 for no hours. *)
Definition exact_floor_percent (completed total : Z) : Z :=
  if 0 <? total then completed * 100 / total else 0.

(** ** Doubles as real numbers *)

(** Powers of two and dyadic values. *)
Definition bpow (e : Z) : R := powerRZ 2 e.
Definition F2R (m e : Z) : R := (IZR m * bpow e)%R.

(** A real number sits at a shift record: between the mantissa and its
    successor, on the mantissa exactly when both the round and the sticky bit
    are clear. *)
Definition located (mrs : shr_record) (e : Z) (x : R) : Prop :=
  0 <= shr_m mrs /\
  (F2R (shr_m mrs) e <= x < F2R (shr_m mrs + 1) e)%R /\
  (x = F2R (shr_m mrs) e <-> shr_r mrs = false /\ shr_s mrs = false).

Definition SFabsR (x : spec_float) : R :=
  match x with
  | S754_finite _ m e => F2R (Z.pos m) e
  | _ => 0%R
  end.

(** A nonnegative double: a zero, or finite and positive. *)
Inductive nonneg_finite : spec_float -> R -> Prop :=
  | nonneg_zero s : nonneg_finite (S754_zero s) 0
  | nonneg_pos m e :
      SpecFloat.bounded prec emax m e = true ->
      nonneg_finite (S754_finite false m e) (F2R (Z.pos m) e).

(** Hours as a double: not negative, possibly infinite. *)
Definition nonneg_float (f : float) : Prop :=
  Prim2SF f = S754_infinity false \/ exists x, nonneg_finite (Prim2SF f) x.

(** A double that is at least a real number: positive and finite, or the
    positive infinity. *)
Definition at_least (f : spec_float) (b : R) : Prop :=
  f = S754_infinity false \/
  exists m e, f = S754_finite false m e /\ SpecFloat.bounded prec emax m e = true /\
              (b <= F2R (Z.pos m) e)%R.

(** A double next to a positive integer: no double lies strictly between
    the two, so that it is the integer whenever the integer is a double. *)
Definition next_to (z : Z) (f : float) : Prop :=
  exists m e,
    Prim2SF f = S754_finite false m e /\
    forall mb eb, SpecFloat.bounded prec emax mb eb = true ->
      ((F2R (Z.pos mb) eb <= IZR z)%R -> (F2R (Z.pos mb) eb <= F2R (Z.pos m) e)%R) /\
      ((IZR z <= F2R (Z.pos mb) eb)%R -> (F2R (Z.pos m) e <= F2R (Z.pos mb) eb)%R).

(** [v] as a double, as [float(v)] and the addition of an [int] to a
    [float] take it: a double is itself; an integer is converted, which
    gives a double [==] to it from 0 to [2^53], and a double next to it
    whenever it is positive. *)
Definition as_double (v : pyval) (f : float) : Prop :=
  match v with
  | PFloat g => f = g
  | PInt z =>
      float_of_int z = inr f /\
      (0 <= z <= 2 ^ 53 -> py_eq (PFloat f) (PInt z) = true) /\
      (0 < z -> next_to z f)
  | _ => False
  end.

(** ** A sample world

    A small store, and the answers of the unit tests' mock for the three
    statements of the workload calculator. *)

Module Sample.
Import SQLite.

(** [DATE()] on a [YYYY-MM-DD HH:MM:SS] time string: its first ten
    characters. *)
Definition DATE (s : string) : option string := Some (String.substring 0 10 s).

Definition real_of (x : sqlnum) : float :=
  match x with
  | SqlInt z => SF2Prim (binary_normalize prec emax z 0 false)
  | SqlReal f => f
  end.

(** Accumulation from left to right. *)
Definition real_sum (xs : list sqlnum) : float :=
  foldl (fun acc x => (acc + real_of x)%float) 0%float xs.

Definition mock (sql : string) (params : list pyval) : result (list row) :=
  if bool_decide (sql = vehicles_query) then
    inr [list_to_map [("total_vehicles", PInt 10); ("total_hours", PInt 100);
                      ("completed_vehicles", PInt 5)]]
  else if bool_decide (sql = completed_query) then
    inr [list_to_map [("completed_hours", PInt 50)]]
  else if bool_decide (sql = carryover_query) then
    inr [list_to_map [("carryover_hours", PInt 20)]]
  else inl (DatabaseError "no such table").

Definition installation : production_stage :=
  {| ps_id := 1; stage_name := "Installation"; stage_order := 1 |}.
Definition ppo : production_stage :=
  {| ps_id := 2; stage_name := "PPO"; stage_order := 2 |}.

(** One vehicle in Installation, with two work orders; PPO is empty. *)
Definition store : database :=
  {| production_stages := [ppo; installation];
     vehicles :=
       [{| v_id := 7; current_stage_id := Some 1;
           arrival_time := Some "2026-01-16 08:30:00";
           shift_assigned := Some "day" |}];
     work_orders :=
       [{| vehicle_id := Some 7; status := Some "complete";
           estimated_hours := Some (SqlReal 20); actual_hours := Some (SqlReal 18) |};
        {| vehicle_id := Some 7; status := Some "open";
           estimated_hours := Some (SqlReal 18); actual_hours := None |}] |}.

Definition world_on (db : database) (hour : Z) : World :=
  {| DATABASE_PATH := "data/logistics.db";
     path_exists := true;
     sqlite_connect := None;
     sqlite_execute := engine DATE real_sum mock db;
     now_hour := hour;
     today := {| year := 2026; month := 1; day := 16 |};
     float_of_str := fun _ => None |}.

Definition world : World := world_on store 9.

(** The same process without its store. *)
Definition world_without_store : World :=
  {| DATABASE_PATH := "data/logistics.db";
     path_exists := false;
     sqlite_connect := None;
     sqlite_execute := mock;
     now_hour := 9;
     today := {| year := 2026; month := 1; day := 16 |};
     float_of_str := fun _ => None |}.

(** The three statements of the workload calculator answered from given
    records, as the mock of the unit tests does. *)
Definition answers (stats completed : row) (carryover : list row)
    (sql : string) (params : list pyval) : result (list row) :=
  if bool_decide (sql = vehicles_query) then inr [stats]
  else if bool_decide (sql = completed_query) then inr [completed]
  else if bool_decide (sql = carryover_query) then inr carryover
  else inl (DatabaseError "no such table").

Definition world_answering (execute : string -> list pyval -> result (list row)) : World :=
  {| DATABASE_PATH := "data/logistics.db";
     path_exists := true;
     sqlite_connect := None;
     sqlite_execute := execute;
     now_hour := 9;
     today := {| year := 2026; month := 1; day := 16 |};
     float_of_str := fun _ => None |}.

(** The first shift of a day: 100 estimated hours, 50 completed, and no
    shift summary yet. *)
Definition world_first_shift : World :=
  world_answering
    (answers
       (list_to_map [("total_vehicles", PInt 10); ("total_hours", PFloat 100);
                     ("completed_vehicles", PInt 5)])
       (list_to_map [("completed_hours", PFloat 50)])
       []).

(** Work that took twice its estimate: 10 estimated hours, 20 completed. *)
Definition world_overrun : World :=
  world_answering
    (answers
       (list_to_map [("total_vehicles", PInt 2); ("total_hours", PFloat 10);
                     ("completed_vehicles", PInt 2)])
       (list_to_map [("completed_hours", PFloat 20)])
       []).
(** A store whose work is done: one vehicle in Installation, both of its
    work orders complete. *)
Definition finished_store : database :=
  {| production_stages := [ppo; installation];
     vehicles :=
       [{| v_id := 7; current_stage_id := Some 1;
           arrival_time := Some "2026-01-16 08:30:00";
           shift_assigned := Some "day" |}];
     work_orders :=
       [{| vehicle_id := Some 7; status := Some "complete";
           estimated_hours := Some (SqlReal 20); actual_hours := Some (SqlReal 18) |};
        {| vehicle_id := Some 7; status := Some "complete";
           estimated_hours := Some (SqlReal 18); actual_hours := Some (SqlReal 19.5) |}] |}.

Definition finished_world : World := world_on finished_store 9.

(** A shift whose completed hours have reached its 50 estimated hours. *)
Definition world_all_done : World :=
  world_answering
    (answers
       (list_to_map [("total_vehicles", PInt 4); ("total_hours", PFloat 50);
                     ("completed_vehicles", PInt 4)])
       (list_to_map [("completed_hours", PFloat 50)])
       []).
(** A vehicle record of [2^53 + 1] estimated hours. *)
Definition world_odd_total : World :=
  world_answering
    (answers
       (list_to_map [("total_vehicles", PInt 1); ("total_hours", PInt 9007199254740993);
                     ("completed_vehicles", PInt 0)])
       (list_to_map [("completed_hours", PInt 0)])
       []).

(** One estimated hour, [2^1020] completed hours, and no shift summary. *)
Definition world_overflow : World :=
  world_answering
    (answers
       (list_to_map [("total_vehicles", PInt 1); ("total_hours", PFloat 1);
                     ("completed_vehicles", PInt 1)])
       (list_to_map [("completed_hours", PFloat 0x1p1020)])
       []).

(** Infinite estimated and completed hours, and no shift summary. *)
Definition world_infinite : World :=
  world_answering
    (answers
       (list_to_map [("total_vehicles", PInt 1); ("total_hours", PFloat infinity);
                     ("completed_vehicles", PInt 1)])
       (list_to_map [("completed_hours", PFloat infinity)])
       []).
End Sample.

(** * Lemmas *)

(** ** Reasoning about runs *)

Lemma bind_returns {A B} (m : M A) (k : A -> M B) log b log' :
  bind m k log = (inr b, log') ->
  exists a log1, m log = (inr a, log1) /\ k a log1 = (inr b, log').
Proof.
  unfold bind. destruct (m log) as [[e|a] log1]; intros H.
  - discriminate.
  - exists a, log1. split; [reflexivity | exact H].
Qed.

Lemma bind_raises {A B} (m : M A) (k : A -> M B) log e log' :
  m log = (inl e, log') -> bind m k log = (inl e, log').
Proof. unfold bind. intros ->. reflexivity. Qed.

Lemma bind_continues {A B} (m : M A) (k : A -> M B) log a log' :
  m log = (inr a, log') -> bind m k log = k a log'.
Proof. unfold bind. intros ->. reflexivity. Qed.

Lemma lift_returns {A} (r : result A) log a log' :
  lift r log = (inr a, log') -> r = inr a /\ log' = log.
Proof. unfold lift. intros H. injection H as -> ->. split; reflexivity. Qed.

Lemma rbind_returns {A B} (m : result A) (k : A -> result B) b :
  rbind m k = inr b -> exists a, m = inr a /\ k a = inr b.
Proof. destruct m as [e|a]; simpl; intros H; [discriminate | eauto]. Qed.

(** Peels the successful run of a [do]-block, one step at a time. *)
Ltac run_inv H :=
  repeat match type of H with
  | bind _ _ _ = (inr _, _) =>
      let a := fresh "a" in
      let l := fresh "log" in
      let H1 := fresh "Hstep" in
      apply bind_returns in H as (a & l & H1 & H)
  end.

(** ** The access layer *)

(** A missing store makes [query_df] raise [FileNotFoundError] and leaves
    the log of executed statements as it was. *)
Lemma query_df_missing_store W sql params log :
  path_exists W = false ->
  query_df W sql params log
  = (inl (FileNotFoundError ("Database not found: " +:+ DATABASE_PATH W)), log).
Proof. unfold query_df, get_connection. intros ->. reflexivity. Qed.

(** What [query_df] does when the store is there and opens: the statement
    is executed once and its outcome is the outcome of the call. *)
Lemma query_df_executes W sql params log :
  path_exists W = true -> sqlite_connect W = None ->
  query_df W sql params log = (sqlite_execute W sql params, log ++ [(sql, params)]).
Proof. unfold query_df, get_connection, execute. intros -> ->. reflexivity. Qed.

(** The log only grows, by at most the statement asked for. *)
Lemma query_df_log W sql params log :
  (query_df W sql params log).2 = log \/
  (query_df W sql params log).2 = log ++ [(sql, params)].
Proof.
  unfold query_df, get_connection, execute, raise.
  destruct (path_exists W); [destruct (sqlite_connect W)|]; simpl; auto.
Qed.

Lemma query_one_raises W sql params log e log' :
  query_df W sql params log = (inl e, log') ->
  query_one W sql params log = (inl e, log').
Proof. intros H. unfold query_one. apply bind_raises, H. Qed.

(** [query_one] when the store is there and opens. *)
Lemma query_one_executes W sql params log :
  path_exists W = true -> sqlite_connect W = None ->
  query_one W sql params log
  = (try results <- sqlite_execute W sql params; inr (head results),
     log ++ [(sql, params)]).
Proof.
  intros Hex Hconn. unfold query_one, bind.
  rewrite (query_df_executes _ _ _ _ Hex Hconn).
  destruct (sqlite_execute W sql params) as [e|[|r rs]]; reflexivity.
Qed.

(** ** The workload calculator *)

Lemma workload_returns W shift target_date log summary log' :
  calculate_shift_workload W shift target_date log = (inr summary, log') ->
  workload_run W shift target_date log summary log'.
Proof.
  unfold calculate_shift_workload. intros H.
  run_inv H.
  repeat match goal with
  | Hl : lift _ _ = (inr _, _) |- _ => apply lift_returns in Hl as [Hl ->]
  end.
  unfold ret in H. injection H as <- <-.
  eapply WorkloadRun; unfold resolved_shift, resolved_date; eassumption.
Qed.

(** ** The stage statement over the store *)

Lemma mapM_returns {A B} (f : A -> result B) (l : list A) (l' : list B) :
  mapM f l = inr l' <-> Forall2 (fun x y => f x = inr y) l l'.
Proof.
  revert l'. induction l as [|x l IH]; intros l'; simpl.
  - split.
    + intros H. injection H as <-. constructor.
    + intros H. inversion H. reflexivity.
  - split.
    + intros H. apply rbind_returns in H as (y & Hy & H).
      apply rbind_returns in H as (ys & Hys & H). injection H as <-.
      constructor; [exact Hy | apply IH, Hys].
    + intros H. inversion H as [|? y ? ys Hy Hys]; subst.
      rewrite Hy. simpl. apply IH in Hys. rewrite Hys. reflexivity.
Qed.

Section StageStatement.
Import SQLite.
Variable DATE : string -> option string.
Variable real_sum : list sqlnum -> float.
Variable db : database.
Variables (p_date p_null p_shift : pyval).

Local Abbreviation joined := (joined DATE db p_date p_null p_shift).
Local Abbreviation join_vehicles := (join_vehicles DATE db p_date p_null p_shift).
Local Abbreviation vehicle_on := (vehicle_on DATE p_date p_null p_shift).

Lemma join_work_orders_stage ps v r :
  r ∈ join_work_orders db ps v -> r.1 = ps /\ exists wo, r.2 = Some (v, wo).
Proof.
  unfold join_work_orders.
  destruct (filter _ (work_orders db)) as [|wo wos].
  - intros ->%list_elem_of_singleton. simpl. eauto.
  - intros (wo' & -> & _)%list_elem_of_fmap. simpl. eauto.
Qed.

Lemma join_work_orders_nonempty ps v : join_work_orders db ps v <> [].
Proof.
  unfold join_work_orders.
  destruct (filter _ (work_orders db)); discriminate.
Qed.

Lemma join_vehicles_stage ps r : r ∈ join_vehicles ps -> r.1 = ps.
Proof.
  unfold SQLite.join_vehicles.
  destruct (filter _ (vehicles db)) as [|v vs].
  - intros ->%list_elem_of_singleton. reflexivity.
  - intros (v' & Hr & _)%list_elem_of_bind.
    apply join_work_orders_stage in Hr as [Hr _]. exact Hr.
Qed.

Lemma join_vehicles_nonempty ps : join_vehicles ps <> [].
Proof.
  unfold SQLite.join_vehicles.
  destruct (filter _ (vehicles db)) as [|v vs]; [discriminate|].
  simpl. intros H. apply app_eq_nil in H as [H _].
  exact (join_work_orders_nonempty _ _ H).
Qed.


(** The keys of the groups are the stages of the catalog. *)
Lemma joined_stages k : k ∈ joined.*1 <-> k ∈ production_stages db.
Proof.
  unfold SQLite.joined. split.
  - intros (r & -> & Hr)%list_elem_of_fmap.
    apply list_elem_of_bind in Hr as (ps & Hr & Hps).
    apply join_vehicles_stage in Hr. rewrite Hr. exact Hps.
  - intros Hk.
    destruct (join_vehicles k) as [|r rs] eqn:Hj.
    + destruct (join_vehicles_nonempty _ Hj).
    + apply list_elem_of_fmap. exists r. split.
      * symmetry. apply join_vehicles_stage. rewrite Hj. left.
      * apply list_elem_of_bind. exists k. split; [rewrite Hj; left | exact Hk].
Qed.

Lemma group_keys_catalog :
  NoDup (production_stages db) ->
  group_keys joined ≡ₚ production_stages db.
Proof.
  intros Hnd. apply NoDup_Permutation.
  - apply NoDup_remove_dups.
  - exact Hnd.
  - intros k. unfold group_keys. rewrite elem_of_remove_dups.
    apply joined_stages.
Qed.







(** Every selected row carries the name and the order of its stage, and
    the loop keeps them. *)
Lemma select_stage rows ps r0 r :
  select real_sum rows ps = inr r0 -> add_percent r0 = inr r ->
  r !! "stage_name" = Some (PStr (stage_name ps)) /\
  r !! "stage_order" = Some (PInt (stage_order ps)).
Proof.
  unfold select. intros Hsel Hadd.
  apply rbind_returns in Hsel as (v1 & _ & Hsel).
  apply rbind_returns in Hsel as (v2 & _ & Hsel).
  injection Hsel as <-.
  unfold add_percent in Hadd.
  apply rbind_returns in Hadd as (x1 & _ & Hadd).
  apply rbind_returns in Hadd as (x2 & _ & Hadd).
  apply rbind_returns in Hadd as (x3 & _ & Hadd).
  apply rbind_returns in Hadd as (x4 & _ & Hadd).
  injection Hadd as <-. split; reflexivity.
Qed.

End StageStatement.

(** ** The stage calculator over the store *)

Lemma Forall2_compose {A B C} (P : A -> B -> Prop) (Q : B -> C -> Prop) l k m :
  Forall2 P l k -> Forall2 Q k m ->
  Forall2 (fun x z => exists y, P x y /\ Q y z) l m.
Proof.
  intros H. revert m. induction H as [|x y l k Hxy _ IH]; intros m Hm.
  - inversion Hm. constructor.
  - inversion Hm as [|? z ? m' Hyz Hm']; subst.
    constructor; [eauto | apply IH, Hm'].
Qed.

#[export] Instance by_stage_order_total : Total SQLite.by_stage_order.
Proof. intros k1 k2. unfold SQLite.by_stage_order. lia. Qed.

(** What [get_stage_breakdown] computes in such a world. *)
Lemma get_stage_breakdown_store DATE real_sum other db W shift target_date log :
  store_world DATE real_sum other db W ->
  get_stage_breakdown W shift target_date log
  = (try results <- SQLite.stage_rows DATE real_sum db
                      (PStr (resolved_date W target_date))
                      (shift_param shift) (shift_param shift);
     mapM add_percent results,
     log ++ [(stage_query,
              [PStr (resolved_date W target_date); shift_param shift; shift_param shift])]).
Proof.
  intros (Hex & Hconn & Hexec).
  unfold get_stage_breakdown, bind.
  fold (resolved_date W target_date).
  rewrite (query_df_executes _ _ _ _ Hex Hconn), Hexec.
  unfold SQLite.engine.
  rewrite bool_decide_eq_true_2 by reflexivity.
  assert (Hs : SQLite.text_or_null (shift_param shift) = true)
    by (destruct shift; reflexivity).
  rewrite Hs. simpl.
  destruct (SQLite.stage_rows _ _ _ _ _ _); reflexivity.
Qed.

(** ** A NULL shift parameter applies no shift filter *)

Lemma filter_fmap_commute {A B} (f : A -> B) (P : B -> Prop) (Q : A -> Prop)
    `{!forall y, Decision (P y)} `{!forall x, Decision (Q x)} (l : list A) :
  (forall x, P (f x) <-> Q x) ->
  filter P (f <$> l) = f <$> filter Q l.
Proof.
  intros HPQ. induction l as [|x l IH]; [reflexivity|].
  rewrite fmap_cons, !filter_cons.
  destruct (decide (P (f x))) as [HP|HP]; destruct (decide (Q x)) as [HQ|HQ].
  - rewrite fmap_cons. f_equal. exact IH.
  - destruct HQ. apply HPQ, HP.
  - destruct HP. apply HPQ, HQ.
  - exact IH.
Qed.

Lemma mapM_ext {A B} (f g : A -> result B) (l : list A) :
  (forall x, f x = g x) -> mapM f l = mapM g l.
Proof.
  intros Hfg. induction l as [|x l IH]; simpl; [reflexivity|].
  rewrite Hfg, IH. reflexivity.
Qed.

Section NullShift.
Import SQLite.
Variable DATE : string -> option string.
Variable real_sum : list sqlnum -> float.
Variable db : database.
Variables (p_date p_shift : pyval).

(** With NULL for the second parameter, the ON condition does not read
    the vehicle's shift. *)
Lemma vehicle_on_null ps v :
  vehicle_on DATE p_date PNone p_shift ps v
  = bool_decide (current_stage_id v = Some (ps_id ps))
    && text_eq (arrival_time v ≫= DATE) p_date.
Proof. unfold vehicle_on. simpl. rewrite andb_true_r. reflexivity. Qed.

Variable new_shift : vehicle -> option string.
Local Abbreviation with_shift := (with_shift new_shift).
Local Abbreviation reassign_shifts := (reassign_shifts db new_shift).
Local Abbreviation with_shift_row := (with_shift_row new_shift).

Lemma join_work_orders_reassign ps v :
  join_work_orders reassign_shifts ps (with_shift v)
  = with_shift_row <$> join_work_orders db ps v.
Proof.
  unfold join_work_orders. simpl.
  destruct (filter _ (work_orders db)) as [|wo wos].
  - reflexivity.
  - simpl. f_equal.
    induction wos as [|x l IH]; simpl; [reflexivity | f_equal; exact IH].
Qed.

Lemma join_vehicles_reassign ps :
  join_vehicles DATE reassign_shifts p_date PNone p_shift ps
  = with_shift_row <$> join_vehicles DATE db p_date PNone p_shift ps.
Proof.
  unfold join_vehicles. simpl.
  rewrite (filter_fmap_commute with_shift _
             (fun v => vehicle_on DATE p_date PNone p_shift ps v = true)).
  2:{ intros v. rewrite !vehicle_on_null. reflexivity. }
  assert (Hbind : forall vs,
            (with_shift <$> vs) ≫= join_work_orders reassign_shifts ps
            = with_shift_row <$> (vs ≫= join_work_orders db ps)).
  { intros vs. induction vs as [|v vs IH]; [reflexivity|].
    rewrite fmap_cons, !bind_cons, fmap_app, IH, join_work_orders_reassign.
    reflexivity. }
  destruct (filter _ (vehicles db)) as [|v vs].
  - reflexivity.
  - exact (Hbind (v :: vs)).
Qed.

Lemma joined_reassign :
  joined DATE reassign_shifts p_date PNone p_shift
  = with_shift_row <$> joined DATE db p_date PNone p_shift.
Proof.
  unfold joined. simpl.
  induction (production_stages db) as [|ps l IH]; [reflexivity|].
  rewrite !bind_cons, fmap_app, IH, join_vehicles_reassign. reflexivity.
Qed.

Lemma select_with_shift_row rows ps :
  select real_sum (with_shift_row <$> rows) ps = select real_sum rows ps.
Proof.
  unfold select, group_rows.
  rewrite (filter_fmap_commute with_shift_row _ (fun r => r.1 = ps))
    by (intros r; reflexivity).
  rewrite <- !list_fmap_compose.
  rewrite (list_fmap_ext (case_remaining ∘ with_shift_row) case_remaining).
  2:{ intros _ [k [[v [wo|]]|]] _; reflexivity. }
  rewrite (list_fmap_ext (case_completed ∘ with_shift_row) case_completed).
  2:{ intros _ [k [[v [wo|]]|]] _; reflexivity. }
  assert (Hcount : forall g : list joined_row,
            count_vehicle_id (with_shift_row <$> g) = count_vehicle_id g).
  { intros g. unfold count_vehicle_id. f_equal.
    rewrite (filter_fmap_commute with_shift_row _ (fun r => is_Some r.2)).
    - rewrite length_fmap. reflexivity.
    - intros [k [vw|]]; simpl; split; intros [x Hx]; try discriminate; eauto. }
  rewrite Hcount. reflexivity.
Qed.

(** With NULL for the shift, the statement's answer is the same whatever
    shifts the vehicles are assigned to. *)
Lemma stage_rows_null_shift :
  stage_rows DATE real_sum reassign_shifts p_date PNone p_shift
  = stage_rows DATE real_sum db p_date PNone p_shift.
Proof.
  unfold stage_rows. rewrite joined_reassign.
  assert (Hkeys : group_keys (with_shift_row <$> joined DATE db p_date PNone p_shift)
                  = group_keys (joined DATE db p_date PNone p_shift)).
  { unfold group_keys. rewrite <- list_fmap_compose. reflexivity. }
  rewrite Hkeys. apply mapM_ext. intros ps. apply select_with_shift_row.
Qed.
End NullShift.

Lemma query_one_log W sql params log r log' :
  path_exists W = true -> sqlite_connect W = None ->
  query_one W sql params log = (inr r, log') ->
  log' = log ++ [(sql, params)].
Proof.
  intros Hex Hconn H. unfold query_one in H.
  apply bind_returns in H as (rows & log1 & Hdf & H).
  rewrite (query_df_executes _ _ _ _ Hex Hconn) in Hdf.
  injection Hdf as _ <-. unfold ret in H. injection H as _ <-. reflexivity.
Qed.

(** ** The vehicle count of a stage *)

Section VehicleCount.
Import SQLite.
Variable DATE : string -> option string.
Variable db : database.
Variables (p_date p_null p_shift : pyval).

Local Abbreviation joined := (joined DATE db p_date p_null p_shift).
Local Abbreviation join_vehicles := (join_vehicles DATE db p_date p_null p_shift).
Local Abbreviation vehicle_on := (vehicle_on DATE p_date p_null p_shift).
Local Abbreviation work_orders_of := (work_orders_of db).
Local Abbreviation vehicle_rows := (vehicle_rows DATE db p_date p_null p_shift).

Lemma count_vehicle_id_app g1 g2 :
  count_vehicle_id (g1 ++ g2) = count_vehicle_id g1 + count_vehicle_id g2.
Proof. unfold count_vehicle_id. rewrite filter_app, length_app. apply Nat2Z.inj_add. Qed.

Lemma count_join_work_orders ps v :
  count_vehicle_id (join_work_orders db ps v)
  = Z.of_nat (Nat.max 1 (length (work_orders_of v))).
Proof.
  unfold join_work_orders, work_orders_of, count_vehicle_id.
  destruct (filter _ (work_orders db)) as [|wo wos]; [reflexivity|].
  cbv iota. f_equal.
  assert (Hall : forall l : list work_order,
            filter (fun r : joined_row => is_Some r.2)
                   ((fun wo => (ps, Some (v, Some wo))) <$> l)
            = (fun wo => (ps, Some (v, Some wo))) <$> l).
  { induction l as [|w l IH]; [reflexivity|].
    rewrite fmap_cons, filter_cons_True by (simpl; eauto). f_equal. exact IH. }
  rewrite Hall, length_fmap. simpl. lia.
Qed.

Lemma count_join_vehicles ps :
  count_vehicle_id (join_vehicles ps) = Z.of_nat (vehicle_rows ps).
Proof.
  unfold SQLite.join_vehicles, vehicle_rows.
  destruct (filter _ (vehicles db)) as [|v vs]; [reflexivity|].
  generalize (v :: vs). clear v vs. intros vs.
  induction vs as [|v vs IH]; [reflexivity|].
  rewrite bind_cons, count_vehicle_id_app, count_join_work_orders, IH.
  rewrite fmap_cons. simpl sum_list. lia.
Qed.

(** With a catalog without repetition, the group of a stage is the rows the
    join made for it. *)
Lemma group_rows_app (k : production_stage) (l1 l2 : list joined_row) :
  group_rows (l1 ++ l2) k = group_rows l1 k ++ group_rows l2 k.
Proof. unfold group_rows. apply filter_app. Qed.

Lemma group_rows_of_stage (k ps : production_stage) (l : list joined_row) :
  Forall (fun r => r.1 = ps) l ->
  group_rows l k = if decide (ps = k) then l else [].
Proof.
  unfold group_rows. intros Hl. induction Hl as [|r l Hr Hl IH].
  - destruct (decide (ps = k)); reflexivity.
  - destruct (decide (ps = k)) as [Heq|Hne].
    + rewrite filter_cons_True by congruence. f_equal. exact IH.
    + rewrite filter_cons_False by congruence. exact IH.
Qed.

Lemma group_rows_stage ps :
  NoDup (production_stages db) -> ps ∈ production_stages db ->
  group_rows joined ps = join_vehicles ps.
Proof.
  unfold SQLite.joined.
  assert (Hrows : forall q, Forall (fun r : joined_row => r.1 = q) (join_vehicles q)).
  { intros q. apply Forall_forall. intros r. apply join_vehicles_stage. }
  assert (Hother : forall l, ps ∉ l -> group_rows (l ≫= join_vehicles) ps = []).
  { induction l as [|q l IHl]; intros Hq; [reflexivity|].
    apply not_elem_of_cons in Hq as [Hne Hq].
    rewrite bind_cons, group_rows_app, (IHl Hq), (group_rows_of_stage ps q _ (Hrows q)).
    destruct (decide (q = ps)); [congruence | reflexivity]. }
  induction (production_stages db) as [|q stages IH]; intros Hnd Hin.
  - inversion Hin.
  - apply NoDup_cons in Hnd as [Hnotin Hnd].
    rewrite bind_cons, group_rows_app, (group_rows_of_stage ps q _ (Hrows q)).
    destruct (decide (q = ps)) as [->|Hne].
    + rewrite (Hother stages Hnotin). apply app_nil_r.
    + apply elem_of_cons in Hin as [Heq|Hin]; [congruence|].
      exact (IH Hnd Hin).
Qed.

(** [COUNT(v.id)] over the group of a stage. *)
Lemma count_vehicle_id_stage ps :
  NoDup (production_stages db) -> ps ∈ production_stages db ->
  count_vehicle_id (group_rows joined ps) = Z.of_nat (vehicle_rows ps).
Proof.
  intros Hnd Hin. rewrite (group_rows_stage ps Hnd Hin). apply count_join_vehicles.
Qed.
End VehicleCount.

Lemma Forall2_and_l {A B} (Q : A -> Prop) (P : A -> B -> Prop) l k :
  Forall Q l -> Forall2 P l k -> Forall2 (fun x y => Q x /\ P x y) l k.
Proof.
  intros HQ HP. induction HP as [|x y l k Hxy _ IH]; [constructor|].
  apply Forall_cons in HQ as [Hx HQ]. constructor; [auto | apply IH, HQ].
Qed.

(** The [vehicle_count] a selected row carries, which the loop keeps. *)
Lemma select_vehicle_count real_sum rows ps r0 r :
  SQLite.select real_sum rows ps = inr r0 -> add_percent r0 = inr r ->
  r !! "vehicle_count"
  = Some (PInt (SQLite.count_vehicle_id (SQLite.group_rows rows ps))).
Proof.
  unfold SQLite.select. intros Hsel Hadd.
  apply rbind_returns in Hsel as (v1 & _ & Hsel).
  apply rbind_returns in Hsel as (v2 & _ & Hsel).
  injection Hsel as <-.
  unfold add_percent in Hadd.
  apply rbind_returns in Hadd as (x1 & _ & Hadd).
  apply rbind_returns in Hadd as (x2 & _ & Hadd).
  apply rbind_returns in Hadd as (x3 & _ & Hadd).
  apply rbind_returns in Hadd as (x4 & _ & Hadd).
  injection Hadd as <-. reflexivity.
Qed.

(** What [vehicle_count] is, for every store: the number of rows the join
    has for the vehicles of the stage, one per work order of a vehicle and
    one for a vehicle without work orders. *)
Lemma vehicle_count_join_rows
    DATE real_sum other db W shift target_date log rows log' :
  store_world DATE real_sum other db W ->
  NoDup (SQLite.production_stages db) ->
  get_stage_breakdown W shift target_date log = (inr rows, log') ->
  exists stages,
    stages ≡ₚ SQLite.production_stages db /\
    Forall2
      (fun ps r =>
         r !! "stage_name" = Some (PStr (SQLite.stage_name ps)) /\
         r !! "vehicle_count"
         = Some (PInt (Z.of_nat
                   (vehicle_rows DATE db (PStr (resolved_date W target_date))
                      (shift_param shift) (shift_param shift) ps))))
      stages rows.
Proof.
  intros HW Hnd Hrun.
  rewrite (get_stage_breakdown_store _ _ _ _ _ _ _ _ HW) in Hrun.
  injection Hrun as Hrun _.
  apply rbind_returns in Hrun as (results & Hrows & Hloop).
  unfold SQLite.stage_rows in Hrows.
  apply mapM_returns in Hrows. apply mapM_returns in Hloop.
  pose proof (Forall2_compose _ _ _ _ _ Hrows Hloop) as Hall.
  match type of Hrows with
  | Forall2 _ ?l _ => assert (Hperm : l ≡ₚ SQLite.production_stages db)
  end.
  { rewrite merge_sort_Permutation. apply group_keys_catalog, Hnd. }
  eexists. split; [exact Hperm|].
  eapply Forall2_impl.
  - apply Forall2_and_l; [|exact Hall].
    apply Forall_forall. intros ps Hps. rewrite Hperm in Hps. exact Hps.
  - intros ps r (Hps & r0 & Hsel & Hadd). simpl in Hsel, Hadd.
    destruct (select_stage _ _ _ _ _ Hsel Hadd) as [Hname _].
    split; [exact Hname|].
    rewrite (select_vehicle_count _ _ _ _ _ Hsel Hadd).
    rewrite (count_vehicle_id_stage _ _ _ _ _ ps Hnd Hps). reflexivity.
Qed.

Lemma remove_dups_length_le `{EqDecision A} (l : list A) :
  (length (remove_dups l) <= length l)%nat.
Proof.
  induction l as [|x l IH]; [reflexivity|].
  simpl. destruct (decide_rel elem_of x l); simpl; lia.
Qed.

Lemma remove_dups_NoDup `{EqDecision A} (l : list A) : NoDup l -> remove_dups l = l.
Proof.
  induction 1 as [|x l Hx _ IH]; [reflexivity|].
  simpl. destruct (decide_rel elem_of x l); [contradiction|]. f_equal. exact IH.
Qed.

(** It is the number of distinct matched vehicles when no matched vehicle
    has two work orders (and no two vehicles share an id), and not below
    it otherwise. *)
Lemma vehicle_rows_distinct DATE db date_str shift ps :
  let matched :=
    filter (fun v => SQLite.vehicle_on DATE (PStr date_str) (shift_param shift)
                       (shift_param shift) ps v = true) (SQLite.vehicles db) in
  let rows := Z.of_nat (vehicle_rows DATE db (PStr date_str) (shift_param shift)
                          (shift_param shift) ps) in
  distinct_matched_vehicles DATE db date_str shift ps <= rows /\
  (NoDup (SQLite.v_id <$> matched) ->
   Forall (fun v => (length (work_orders_of db v) <= 1)%nat) matched ->
   distinct_matched_vehicles DATE db date_str shift ps = rows).
Proof.
  intros matched rows. unfold distinct_matched_vehicles, rows, vehicle_rows.
  fold matched.
  assert (Hlen : (length matched
                  <= sum_list ((fun v => Nat.max 1 (length (work_orders_of db v)))
                                 <$> matched))%nat).
  { induction matched as [|v l IH]; [reflexivity|].
    pose proof (Nat.le_max_l 1 (length (work_orders_of db v))) as Hm.
    rewrite fmap_cons. set (n := Nat.max 1 _) in *. simpl. lia. }
  split.
  - pose proof (remove_dups_length_le (SQLite.v_id <$> matched)) as Hd.
    rewrite length_fmap in Hd. apply Nat2Z.inj_le. lia.
  - intros Hnd Hone. f_equal.
    rewrite (remove_dups_NoDup _ Hnd).
    rewrite length_fmap.
    clear Hlen Hnd. induction Hone as [|v l Hv _ IH]; [reflexivity|].
    rewrite fmap_cons.
    assert (Hm : Nat.max 1 (length (work_orders_of db v)) = 1%nat) by lia.
    rewrite Hm. simpl. rewrite <- IH. reflexivity.
Qed.

(** ** The sample world *)

Lemma sample_store_world db hour :
  store_world Sample.DATE Sample.real_sum Sample.mock db (Sample.world_on db hour).
Proof. repeat split. Qed.

Lemma returned_some {A} (run : result A * list call) a :
  returned run = Some a -> run = (inr a, run.2).
Proof.
  unfold returned. destruct run as [[e|a'] log]; simpl; intros H; [discriminate|].
  injection H as ->. reflexivity.
Qed.

Lemma returned_is_some {A} (run : result A * list call) :
  is_Some (returned run) -> exists a, run = (inr a, run.2).
Proof. intros [a Ha]. exists a. apply returned_some, Ha. Qed.

(** The sample store, with a shift given: Installation (order 1) comes
    first, with 18 hours remaining, 18 completed and 50 percent; PPO, without
    vehicles, follows with zeros. *)
Lemma sample_stage_breakdown :
  (entry_field (get_stage_breakdown Sample.world (Some "day") None []) 0 <$>
     ["stage_name"; "stage_order"; "vehicle_count"; "hours_remaining"; "hours_completed";
      "percent_complete"])
  = [Some (PStr "Installation"); Some (PInt 1); Some (PInt 2); Some (PFloat 18);
     Some (PFloat 18); Some (PInt 50)] /\
  (entry_field (get_stage_breakdown Sample.world (Some "day") None []) 1 <$>
     ["stage_name"; "stage_order"; "vehicle_count"; "hours_remaining"; "hours_completed";
      "percent_complete"])
  = [Some (PStr "PPO"); Some (PInt 2); Some (PInt 0); Some (PInt 0);
     Some (PInt 0); Some (PInt 0)].
Proof. split; vm_compute; reflexivity. Qed.

(** Without the store, both calculators raise at once. *)
Lemma sample_missing_store :
  calculate_shift_workload Sample.world_without_store None None []
    = (inl (FileNotFoundError "Database not found: data/logistics.db"), []) /\
  get_stage_breakdown Sample.world_without_store None None []
    = (inl (FileNotFoundError "Database not found: data/logistics.db"), []).
Proof. split; vm_compute; reflexivity. Qed.

(** * Binary64 rounding

    What the rounding step of the IEEE operations does to a real number,
    over [SpecFloat]'s definitions: enough to bound quotients, products and
    conversions. *)

Lemma bpow_gt_0 e : (0 < bpow e)%R.
Proof. unfold bpow. apply powerRZ_lt. lra. Qed.

Lemma bpow_add a b : bpow (a + b) = (bpow a * bpow b)%R.
Proof. unfold bpow. apply powerRZ_add. lra. Qed.

Lemma bpow_0 : bpow 0 = 1%R.
Proof. reflexivity. Qed.

Lemma bpow_1 : bpow 1 = 2%R.
Proof. unfold bpow. simpl. lra. Qed.

Lemma bpow_Z e : 0 <= e -> bpow e = IZR (2 ^ e).
Proof.
  intros He. unfold bpow.
  rewrite <- (Z2Nat.id e He).
  rewrite <- pow_powerRZ, pow_IZR. reflexivity.
Qed.

Lemma bpow_le a b : a <= b -> (bpow a <= bpow b)%R.
Proof.
  intros H. replace b with (a + (b - a)) by lia.
  rewrite bpow_add, (bpow_Z (b - a)) by lia.
  pose proof (bpow_gt_0 a).
  assert (1 <= IZR (2 ^ (b - a)))%R.
  { apply IZR_le. pose proof (Z.pow_pos_nonneg 2 (b - a)). lia. }
  nra.
Qed.

Lemma bpow_lt a b : a < b -> (bpow a < bpow b)%R.
Proof.
  intros H. replace b with (a + (b - a)) by lia.
  rewrite bpow_add, (bpow_Z (b - a)) by lia.
  pose proof (bpow_gt_0 a).
  assert (2 <= IZR (2 ^ (b - a)))%R.
  { apply IZR_le. replace (b - a) with (1 + (b - a - 1)) by lia.
    rewrite Z.pow_add_r by lia. pose proof (Z.pow_pos_nonneg 2 (b - a - 1)). lia. }
  nra.
Qed.

Lemma bpow_lt_inv a b : (bpow a < bpow b)%R -> a < b.
Proof.
  intros H. destruct (Z_lt_le_dec a b) as [|Hle]; [assumption|].
  apply bpow_le in Hle. lra.
Qed.

Lemma F2R_le m1 m2 e : m1 <= m2 -> (F2R m1 e <= F2R m2 e)%R.
Proof.
  intros H. unfold F2R. apply IZR_le in H. pose proof (bpow_gt_0 e). nra.
Qed.

Lemma F2R_lt m1 m2 e : m1 < m2 -> (F2R m1 e < F2R m2 e)%R.
Proof.
  intros H. unfold F2R. apply IZR_lt in H. pose proof (bpow_gt_0 e). nra.
Qed.

Lemma F2R_lt_inv m1 m2 e : (F2R m1 e < F2R m2 e)%R -> m1 < m2.
Proof.
  intros H. destruct (Z_lt_le_dec m1 m2) as [|Hle]; [assumption|].
  apply (F2R_le _ _ e) in Hle. lra.
Qed.

Lemma F2R_le_inv m1 m2 e : (F2R m1 e <= F2R m2 e)%R -> m1 <= m2.
Proof.
  intros H. destruct (Z_le_gt_dec m1 m2) as [|Hgt]; [assumption|].
  apply Z.gt_lt, (F2R_lt _ _ e) in Hgt. lra.
Qed.

(** Changing the exponent of a dyadic value. *)
Lemma F2R_shift m e k : 0 <= k -> F2R (m * 2 ^ k) e = F2R m (e + k).
Proof.
  intros Hk. unfold F2R. rewrite mult_IZR, bpow_add, (bpow_Z k Hk). ring.
Qed.

(** Binary digits. *)
Lemma digits2_pos_size p : digits2_pos p = Pos.size p.
Proof. induction p; simpl; congruence. Qed.

Lemma Zdigits2_bounds m :
  0 < m -> 2 ^ (Zdigits2 m - 1) <= m < 2 ^ Zdigits2 m.
Proof.
  destruct m as [|p|p]; try lia. intros _.
  change (Zdigits2 (Z.pos p)) with (Z.pos (digits2_pos p)).
  rewrite digits2_pos_size.
  pose proof (Pos.size_gt p) as Hgt. pose proof (Pos.size_le p) as Hle.
  apply Pos2Z.pos_lt_pos in Hgt. rewrite Pos2Z.inj_pow in Hgt.
  apply Pos2Z.pos_le_pos in Hle. rewrite Pos2Z.inj_pow in Hle.
  split; [|exact Hgt].
  assert (H2 : 2 ^ Z.pos (Pos.size p) = 2 * 2 ^ (Z.pos (Pos.size p) - 1)).
  { rewrite <- Z.pow_succ_r by lia. f_equal. lia. }
  rewrite H2 in Hle. lia.
Qed.

Lemma Zdigits2_unique m d :
  0 < m -> 2 ^ (d - 1) <= m < 2 ^ d -> Zdigits2 m = d.
Proof.
  intros Hm [Hlo Hhi]. pose proof (Zdigits2_bounds m Hm) as [Hlo' Hhi'].
  assert (Hd : 0 < d).
  { destruct (Z_lt_le_dec 0 d) as [|Hd]; [assumption|].
    destruct (Z.eq_dec d 0) as [->|Hne].
    - change (2 ^ 0) with 1 in Hhi. lia.
    - rewrite Z.pow_neg_r in Hhi by lia. lia. }
  assert (Hd' : 0 < Zdigits2 m) by (destruct m; simpl; lia).
  destruct (Z.lt_trichotomy (Zdigits2 m) d) as [Hlt|[Heq|Hgt]]; [|exact Heq|].
  - assert (2 ^ Zdigits2 m <= 2 ^ (d - 1)) by (apply Z.pow_le_mono_r; lia). lia.
  - assert (2 ^ d <= 2 ^ (Zdigits2 m - 1)) by (apply Z.pow_le_mono_r; lia). lia.
Qed.

Lemma Zdigits2_pos m : 0 < m -> 0 < Zdigits2 m.
Proof. destruct m; simpl; lia. Qed.

Lemma Zdigits2_le m1 m2 : 0 < m1 -> m1 <= m2 -> Zdigits2 m1 <= Zdigits2 m2.
Proof.
  intros H1 H12.
  pose proof (Zdigits2_bounds m1 H1) as [Hlo1 _].
  pose proof (Zdigits2_bounds m2 ltac:(lia)) as [_ Hhi2].
  destruct (Z_le_gt_dec (Zdigits2 m1) (Zdigits2 m2)) as [|Hgt]; [assumption|].
  assert (2 ^ Zdigits2 m2 <= 2 ^ (Zdigits2 m1 - 1)) by (apply Z.pow_le_mono_r; lia).
  lia.
Qed.

(** Digits of a quotient by a power of two. *)
Lemma Zdigits2_div_pow2 m n :
  0 < m -> 0 <= n < Zdigits2 m -> Zdigits2 (m / 2 ^ n) = Zdigits2 m - n.
Proof.
  intros Hm Hn. pose proof (Zdigits2_bounds m Hm) as [Hlo Hhi].
  assert (Hpow : 0 < 2 ^ n) by (apply Z.pow_pos_nonneg; lia).
  assert (Hlo' : 2 ^ (Zdigits2 m - n - 1) <= m / 2 ^ n).
  { apply Z.div_le_lower_bound; [exact Hpow|].
    rewrite <- Z.pow_add_r by lia.
    replace (n + (Zdigits2 m - n - 1)) with (Zdigits2 m - 1) by lia. exact Hlo. }
  assert (Hhi' : m / 2 ^ n < 2 ^ (Zdigits2 m - n)).
  { apply Z.div_lt_upper_bound; [exact Hpow|].
    rewrite <- Z.pow_add_r by lia.
    replace (n + (Zdigits2 m - n)) with (Zdigits2 m) by lia. exact Hhi. }
  apply Zdigits2_unique.
  - assert (0 < 2 ^ (Zdigits2 m - n - 1)) by (apply Z.pow_pos_nonneg; lia). lia.
  - split; [exact Hlo' | exact Hhi'].
Qed.

Lemma div_pow2_small m n : 0 <= m -> Zdigits2 m <= n -> m / 2 ^ n = 0.
Proof.
  intros Hm Hn. destruct (Z.eq_dec m 0) as [->|Hne].
  - apply Z.div_0_l. assert (0 < 2 ^ n) by (apply Z.pow_pos_nonneg; [lia|]; simpl in Hn; lia). lia.
  - pose proof (Zdigits2_bounds m ltac:(lia)) as [_ Hhi].
    pose proof (Zdigits2_pos m ltac:(lia)).
    apply Z.div_small. split; [lia|].
    assert (2 ^ Zdigits2 m <= 2 ^ n) by (apply Z.pow_le_mono_r; lia). lia.
Qed.

(** Magnitude of a dyadic value. *)
Lemma F2R_digits_bounds m e :
  0 < m -> (bpow (Zdigits2 m - 1 + e) <= F2R m e < bpow (Zdigits2 m + e))%R.
Proof.
  intros Hm. pose proof (Zdigits2_bounds m Hm) as [Hlo Hhi].
  pose proof (Zdigits2_pos m Hm) as Hd.
  rewrite !bpow_add.
  rewrite (bpow_Z (Zdigits2 m - 1)), (bpow_Z (Zdigits2 m)) by lia. unfold F2R.
  apply IZR_le in Hlo. apply IZR_lt in Hhi.
  pose proof (bpow_gt_0 e). split; nra.
Qed.

Lemma F2R_le_digits m1 e1 m2 e2 :
  0 < m1 -> 0 < m2 -> (F2R m1 e1 <= F2R m2 e2)%R ->
  Zdigits2 m1 + e1 <= Zdigits2 m2 + e2.
Proof.
  intros H1 H2 Hle.
  pose proof (F2R_digits_bounds m1 e1 H1) as [Hlo1 _].
  pose proof (F2R_digits_bounds m2 e2 H2) as [_ Hhi2].
  assert (Hlt : (bpow (Zdigits2 m1 - 1 + e1) < bpow (Zdigits2 m2 + e2))%R) by lra.
  apply bpow_lt_inv in Hlt. lia.
Qed.

(** ** Shifting a mantissa to the right *)

Lemma F2R_succ_exp m e : F2R m (e + 1) = F2R (2 * m) e.
Proof. unfold F2R. rewrite bpow_add, bpow_1, mult_IZR. ring. Qed.

Lemma shr_1_located mrs e x :
  located mrs e x ->
  located (shr_1 mrs) (e + 1) x /\ shr_m (shr_1 mrs) = shr_m mrs / 2.
Proof.
  destruct mrs as [m r s]. unfold located. simpl.
  intros (Hm & [Hlo Hhi] & Hex).
  assert (Hdiv : forall q b, 0 <= b < 2 -> (2 * q + b) / 2 = q).
  { intros q b Hb. rewrite Z.mul_comm, Z.div_add_l by lia.
    rewrite (Z.div_small b 2) by lia. lia. }
  pose proof (bpow_gt_0 e) as Hb.
  destruct m as [|[p|p|]|p]; try lia; cbn [shr_1 shr_m shr_r shr_s orb].
  - (* 0 *)
    split; [|reflexivity].
    rewrite !F2R_succ_exp.
    assert (H2 : (F2R (0 + 1) e <= F2R (2 * (0 + 1)) e)%R) by (apply F2R_le; lia).
    split; [lia|]. split; [change (2 * 0) with 0; lra|].
    rewrite Hex. destruct r, s; simpl; intuition congruence.
  - (* 2p + 1 *)
    split; [|symmetry; exact (Hdiv (Z.pos p) 1 ltac:(lia))].
    rewrite !F2R_succ_exp.
    assert (H1 : (F2R (2 * Z.pos p) e < F2R (Z.pos p~1) e)%R) by (apply F2R_lt; lia).
    assert (H2 : (F2R (Z.pos p~1 + 1) e <= F2R (2 * (Z.pos p + 1)) e)%R)
      by (apply F2R_le; lia).
    split; [lia|]. split; [lra|].
    split; [intros Hx; lra | intros [Hr _]; discriminate].
  - (* 2p *)
    split; [|symmetry; exact (Hdiv (Z.pos p) 0 ltac:(lia))].
    rewrite !F2R_succ_exp.
    change (2 * Z.pos p) with (Z.pos p~0).
    assert (H2 : (F2R (Z.pos p~0 + 1) e <= F2R (2 * (Z.pos p + 1)) e)%R)
      by (apply F2R_le; lia).
    split; [lia|]. split; [lra|].
    rewrite Hex. destruct r, s; simpl; intuition congruence.
  - (* 1 *)
    split; [|reflexivity].
    rewrite !F2R_succ_exp.
    assert (H1 : (F2R (2 * 0) e < F2R 1 e)%R) by (apply F2R_lt; lia).
    assert (H2 : (F2R (1 + 1) e <= F2R (2 * (0 + 1)) e)%R) by (apply F2R_le; lia).
    split; [lia|]. split; [lra|].
    split; [intros Hx; lra | intros [Hr _]; discriminate].
Qed.

Lemma iter_pos_shr_1_located p : forall mrs e x,
  located mrs e x ->
  located (SpecFloat.iter_pos shr_1 p mrs) (e + Z.pos p) x /\
  shr_m (SpecFloat.iter_pos shr_1 p mrs) = shr_m mrs / 2 ^ Z.pos p.
Proof.
  assert (Hdd : forall m a b, 0 < a -> 0 < b -> m / 2 ^ a / 2 ^ b = m / 2 ^ (a + b)).
  { intros m a b Ha Hb. rewrite Z.pow_add_r by lia.
    assert (0 < 2 ^ a) by (apply Z.pow_pos_nonneg; lia).
    assert (0 < 2 ^ b) by (apply Z.pow_pos_nonneg; lia).
    rewrite Z.div_div by lia. reflexivity. }
  induction p as [p IH|p IH|]; intros mrs e x H; cbn [SpecFloat.iter_pos].
  - destruct (shr_1_located _ _ _ H) as [H1 E1].
    destruct (IH _ _ _ H1) as [H2 E2].
    destruct (IH _ _ _ H2) as [H3 E3].
    split.
    + replace (e + Z.pos p~1) with (e + 1 + Z.pos p + Z.pos p) by lia. exact H3.
    + rewrite E3, E2, E1.
      replace (Z.pos p~1) with (1 + (Z.pos p + Z.pos p)) by lia.
      rewrite Hdd by lia. change 2 with (2 ^ 1) at 1. rewrite Hdd by lia.
      reflexivity.
  - destruct (IH _ _ _ H) as [H2 E2].
    destruct (IH _ _ _ H2) as [H3 E3].
    split.
    + replace (e + Z.pos p~0) with (e + Z.pos p + Z.pos p) by lia. exact H3.
    + rewrite E3, E2.
      replace (Z.pos p~0) with (Z.pos p + Z.pos p) by lia.
      rewrite Hdd by lia. reflexivity.
  - destruct (shr_1_located _ _ _ H) as [H1 E1]. split; [exact H1|].
    rewrite E1. reflexivity.
Qed.

(** [shr] by [n] places; nothing moves when [n <= 0]. *)
Lemma shr_located mrs e n x :
  located mrs e x ->
  located (fst (shr mrs e n)) (snd (shr mrs e n)) x /\
  snd (shr mrs e n) = e + Z.max n 0 /\
  shr_m (fst (shr mrs e n)) = shr_m mrs / 2 ^ Z.max n 0.
Proof.
  intros H. destruct n as [|p|p]; simpl.
  - rewrite Z.add_0_r, Z.div_1_r. auto.
  - destruct (iter_pos_shr_1_located p _ _ _ H) as [H1 E1]. auto.
  - rewrite Z.add_0_r, Z.div_1_r. auto.
Qed.

(** The value of a shifted mantissa does not grow. *)
Lemma F2R_div_pow2_le m e k :
  0 <= k -> (F2R (m / 2 ^ k) (e + k) <= F2R m e)%R.
Proof.
  intros Hk. rewrite <- F2R_shift by exact Hk. apply F2R_le.
  assert (0 < 2 ^ k) by (apply Z.pow_pos_nonneg; lia).
  rewrite Z.mul_comm. apply Z.mul_div_le. lia.
Qed.

(** ** Rounding to binary64 *)

Abbreviation fexp64 := (SpecFloat.fexp prec emax).

Lemma fexp64_spec e : fexp64 e = Z.max (e - 53) (-1074).
Proof. reflexivity. Qed.

Lemma fexp64_le a b : a <= b -> fexp64 a <= fexp64 b.
Proof. rewrite !fexp64_spec. lia. Qed.

Lemma located_of_loc_exact m e : 0 <= m -> located (shr_record_of_loc m loc_Exact) e (F2R m e).
Proof.
  intros Hm. unfold located. simpl. split; [exact Hm|].
  split; [split; [lra | apply F2R_lt; lia]|]. tauto.
Qed.

Lemma shr_m_of_loc m l : shr_m (shr_record_of_loc m l) = m.
Proof. destruct l as [|[| |]]; reflexivity. Qed.

Lemma shr_fexp_located m e l x :
  located (shr_record_of_loc m l) e x ->
  let n := fexp64 (Zdigits2 m + e) - e in
  let r := shr_fexp prec emax m e l in
  located (fst r) (snd r) x /\
  snd r = e + Z.max n 0 /\
  shr_m (fst r) = m / 2 ^ Z.max n 0.
Proof.
  intros H n r. unfold r, shr_fexp. fold n.
  destruct (shr_located _ _ n _ H) as (H1 & H2 & H3).
  rewrite shr_m_of_loc in H3. auto.
Qed.

Lemma round_nearest_even_cases mrs :
  let m' := round_nearest_even (shr_m mrs) (loc_of_shr_record mrs) in
  m' = shr_m mrs \/
  (m' = shr_m mrs + 1 /\ ~ (shr_r mrs = false /\ shr_s mrs = false)).
Proof.
  destruct mrs as [m [|] [|]]; simpl; try destruct (Z.even m); auto;
    right; (split; [reflexivity | intros [? ?]; discriminate]).
Qed.

(** First stage: the mantissa is brought to the exponent of the format. *)
Lemma first_shift mx ex lx x :
  located (shr_record_of_loc mx lx) ex x ->
  ex <= fexp64 (Zdigits2 mx + ex) ->
  let r := shr_fexp prec emax mx ex lx in
  located (fst r) (snd r) x /\
  snd r = fexp64 (Zdigits2 mx + ex) /\
  (0 < shr_m (fst r) -> Zdigits2 (shr_m (fst r)) + snd r = Zdigits2 mx + ex) /\
  (shr_m (fst r) = 0 -> snd r = -1074).
Proof.
  intros H Hex r.
  destruct (shr_fexp_located _ _ _ _ H) as (H1 & H2 & H3). fold r in H1, H2, H3.
  assert (Hmx : 0 <= mx) by (destruct H as [Hm _]; rewrite shr_m_of_loc in Hm; exact Hm).
  set (n := fexp64 (Zdigits2 mx + ex) - ex) in *.
  assert (Hn : Z.max n 0 = n) by lia.
  rewrite Hn in H2, H3.
  split; [exact H1|]. split; [lia|]. split.
  - intros Hpos. rewrite H3 in Hpos |- *.
    destruct (Z_lt_le_dec n (Zdigits2 mx)) as [Hlt|Hge].
    + assert (0 < mx).
      { destruct (Z.eq_dec mx 0) as [->|]; [|lia]. rewrite Z.div_0_l in Hpos; [lia|].
        assert (0 < 2 ^ n) by (apply Z.pow_pos_nonneg; lia). lia. }
      rewrite Zdigits2_div_pow2 by lia. lia.
    + rewrite div_pow2_small in Hpos by lia. lia.
  - intros Hzero. rewrite H3 in Hzero. rewrite H2.
    assert (Hd : Zdigits2 mx <= n).
    { destruct (Z_le_gt_dec (Zdigits2 mx) n) as [|Hgt]; [assumption|].
      destruct (Z.eq_dec mx 0) as [->|Hne]; [simpl in Hgt; lia|].
      pose proof (Zdigits2_div_pow2 mx n ltac:(lia) ltac:(lia)) as Hdig.
      rewrite Hzero in Hdig. simpl in Hdig. lia. }
    unfold n in *. rewrite fexp64_spec in *. lia.
Qed.

(** A positive canonical mantissa, as a real number, is a multiple of every
    power of two below its exponent. *)
Lemma F2R_next_multiple m1 e1 mb eb :
  e1 <= eb -> (F2R m1 e1 < F2R mb eb)%R -> (F2R (m1 + 1) e1 <= F2R mb eb)%R.
Proof.
  intros He Hlt.
  replace eb with (e1 + (eb - e1)) in * by lia.
  rewrite <- F2R_shift in * by lia.
  apply F2R_lt_inv in Hlt. apply F2R_le. lia.
Qed.

(** Second stage: bringing the rounded mantissa back to the format. *)
Lemma second_shift m2 e1 :
  0 <= m2 ->
  (0 < m2 -> e1 <= fexp64 (Zdigits2 m2 + e1)) ->
  let r := shr_fexp prec emax m2 e1 loc_Exact in
  0 <= shr_m (fst r) /\
  (F2R (shr_m (fst r)) (snd r) <= F2R m2 e1)%R /\
  (0 < shr_m (fst r) -> fexp64 (Zdigits2 (shr_m (fst r)) + snd r) = snd r).
Proof.
  intros Hm2 Hexp r.
  destruct (shr_fexp_located _ _ _ _ (located_of_loc_exact m2 e1 Hm2)) as (H1 & H2 & H3).
  fold r in H1, H2, H3.
  destruct H1 as (Hm3 & [Hlo _] & _).
  split; [exact Hm3|]. split; [exact Hlo|].
  intros Hpos.
  assert (Hm2' : 0 < m2).
  { destruct (Z.eq_dec m2 0) as [->|]; [|lia]. rewrite H3 in Hpos.
    rewrite Z.div_0_l in Hpos; [lia|].
    assert (0 < 2 ^ Z.max (fexp64 (Zdigits2 0 + e1) - e1) 0)
      by (apply Z.pow_pos_nonneg; lia). lia. }
  specialize (Hexp Hm2').
  set (n := fexp64 (Zdigits2 m2 + e1) - e1) in *.
  assert (Hn : Z.max n 0 = n) by lia. rewrite Hn in H2, H3.
  destruct (Z_lt_le_dec n (Zdigits2 m2)) as [Hlt|Hge].
  - rewrite H3, H2, Zdigits2_div_pow2 by lia.
    replace (Zdigits2 m2 - n + (e1 + n)) with (Zdigits2 m2 + e1) by lia.
    unfold n. lia.
  - rewrite H3, div_pow2_small in Hpos by lia. lia.
Qed.

Lemma canonical_mantissa_spec m e :
  canonical_mantissa prec emax m e = true <-> fexp64 (Zdigits2 (Z.pos m) + e) = e.
Proof. unfold canonical_mantissa. simpl Zdigits2. apply Z.eqb_eq. Qed.

Lemma bounded_spec m e :
  SpecFloat.bounded prec emax m e = true <->
  fexp64 (Zdigits2 (Z.pos m) + e) = e /\ e <= 971.
Proof.
  unfold SpecFloat.bounded. rewrite Bool.andb_true_iff, canonical_mantissa_spec, Z.leb_le.
  reflexivity.
Qed.

Lemma F2R_pos m e : 0 < m -> (0 < F2R m e)%R.
Proof.
  intros H. unfold F2R. apply IZR_lt in H. pose proof (bpow_gt_0 e). nra.
Qed.

(** The rounding step shared by every operation: whatever real number sits
    at [(mx, ex, lx)], the result is a zero, a valid finite double or an
    infinity, with the sign given; and a double that bounds the real number
    from above bounds the result too, which is then finite. *)
Theorem binary_round_aux_spec sx mx ex lx x :
  located (shr_record_of_loc mx lx) ex x ->
  ex <= fexp64 (Zdigits2 mx + ex) ->
  let r := binary_round_aux prec emax sx mx ex lx in
  (r = S754_zero sx \/
   (exists m e, r = S754_finite sx m e /\ SpecFloat.bounded prec emax m e = true) \/
   r = S754_infinity sx) /\
  (forall mb eb,
     SpecFloat.bounded prec emax mb eb = true -> (x <= F2R (Z.pos mb) eb)%R ->
     r <> S754_infinity sx /\ (SFabsR r <= F2R (Z.pos mb) eb)%R).
Proof.
  intros Hloc Hex r. unfold r, binary_round_aux.
  destruct (first_shift _ _ _ _ Hloc Hex) as (Hloc1 & He1 & Hdig1 & Hzero1).
  destruct (shr_fexp prec emax mx ex lx) as [mrs1 e1]. simpl fst in *. simpl snd in *.
  pose proof (round_nearest_even_cases mrs1) as Hround. simpl in Hround.
  set (m2 := round_nearest_even (shr_m mrs1) (loc_of_shr_record mrs1)) in *.
  destruct Hloc1 as (Hm1 & [Hlo1 Hhi1] & Hexact1).
  assert (Hm2 : 0 <= m2) by (destruct Hround as [->|[-> _]]; lia).
  assert (Hm12 : shr_m mrs1 <= m2) by (destruct Hround as [->|[-> _]]; lia).
  assert (Hexp2 : 0 < m2 -> e1 <= fexp64 (Zdigits2 m2 + e1)).
  { intros _. destruct (Z.eq_dec (shr_m mrs1) 0) as [Hz|Hnz].
    - rewrite (Hzero1 Hz), fexp64_spec. lia.
    - assert (Hp : 0 < shr_m mrs1) by lia.
      pose proof (Zdigits2_le _ _ Hp Hm12).
      pose proof (fexp64_le (Zdigits2 (shr_m mrs1) + e1) (Zdigits2 m2 + e1) ltac:(lia)).
      rewrite (Hdig1 Hp) in H0. lia. }
  destruct (second_shift m2 e1 Hm2 Hexp2) as (Hm3 & Hle3 & Hcan3).
  destruct (shr_fexp prec emax m2 e1 loc_Exact) as [mrs3 e3].
  simpl fst in *. simpl snd in *.
  (* the rounded mantissa stays below any double above [x] *)
  assert (Hbound : forall mb eb,
            SpecFloat.bounded prec emax mb eb = true -> (x <= F2R (Z.pos mb) eb)%R ->
            (F2R (shr_m mrs3) e3 <= F2R (Z.pos mb) eb)%R).
  { intros mb eb Hb Hx. apply bounded_spec in Hb as [Hcan Heb].
    apply Rle_trans with (1 := Hle3).
    destruct Hround as [->|[-> Hinexact]]; [lra|].
    apply F2R_next_multiple.
    - destruct (Z.eq_dec (shr_m mrs1) 0) as [Hz|Hnz].
      + rewrite (Hzero1 Hz), <- Hcan, fexp64_spec. lia.
      + assert (Hp : 0 < shr_m mrs1) by lia.
        assert (Hle : (F2R (shr_m mrs1) e1 <= F2R (Z.pos mb) eb)%R) by lra.
        apply F2R_le_digits in Hle; [|exact Hp|lia].
        apply fexp64_le in Hle. rewrite (Hdig1 Hp) in Hle. lia.
    - destruct (Req_dec x (F2R (shr_m mrs1) e1)) as [Heq|Hne].
      + destruct Hinexact. apply Hexact1, Heq.
      + lra. }
  destruct (shr_m mrs3) as [|m|m] eqn:Hm3eq; [| |lia].
  - split; [left; reflexivity|].
    intros mb eb Hb Hx. split; [discriminate|]. simpl.
    apply Rlt_le, F2R_pos. lia.
  - specialize (Hcan3 ltac:(lia)).
    destruct (e3 <=? emax - prec) eqn:Hover.
    + split.
      * right; left. exists m, e3. split; [reflexivity|].
        apply bounded_spec. split; [exact Hcan3|]. apply Z.leb_le in Hover. exact Hover.
      * intros mb eb Hb Hx. split; [discriminate|]. simpl. apply Hbound; assumption.
    + split; [right; right; reflexivity|].
      intros mb eb Hb Hx. exfalso.
      pose proof (Hbound mb eb Hb Hx) as Hle.
      apply bounded_spec in Hb as [Hcan Heb].
      apply F2R_le_digits in Hle; [|lia|lia].
      apply fexp64_le in Hle. apply Z.leb_gt in Hover.
      change (emax - prec) with 971 in Hover. lia.
Qed.

(** ** Division *)

Lemma Zdigits2_mul_ge a b :
  0 < a -> 0 < b -> Zdigits2 a + Zdigits2 b - 1 <= Zdigits2 (a * b).
Proof.
  intros Ha Hb.
  pose proof (Zdigits2_bounds a Ha) as [Hla _].
  pose proof (Zdigits2_bounds b Hb) as [Hlb _].
  pose proof (Zdigits2_bounds (a * b) ltac:(nia)) as [_ Hh].
  pose proof (Zdigits2_pos a Ha). pose proof (Zdigits2_pos b Hb).
  destruct (Z_le_gt_dec (Zdigits2 a + Zdigits2 b - 1) (Zdigits2 (a * b))) as [|Hgt];
    [assumption|].
  assert (H2 : 2 ^ Zdigits2 (a * b) <= 2 ^ (Zdigits2 a - 1 + (Zdigits2 b - 1))).
  { apply Z.pow_le_mono_r; lia. }
  rewrite Z.pow_add_r in H2 by lia.
  assert (0 < 2 ^ (Zdigits2 a - 1)) by (apply Z.pow_pos_nonneg; lia).
  assert (0 < 2 ^ (Zdigits2 b - 1)) by (apply Z.pow_pos_nonneg; lia).
  nia.
Qed.

Lemma new_location_bits m n k :
  (shr_r (shr_record_of_loc m (new_location n k)) = false /\
   shr_s (shr_record_of_loc m (new_location n k)) = false) <-> k = 0.
Proof.
  unfold new_location, new_location_even, new_location_odd.
  destruct (Z.even n); destruct (Z.eqb_spec k 0) as [->|Hk].
  - simpl. tauto.
  - split; [|tauto]. generalize (2 * k ?= n).
    intros [| |]; simpl; intros [? ?]; congruence.
  - simpl. tauto.
  - split; [|tauto]. generalize (2 * k + 1 ?= n).
    intros [| |]; simpl; intros [? ?]; congruence.
Qed.

(** The quotient of two positive dyadic numbers, as [SFdiv_core_binary]
    hands it to the rounding step. *)
Lemma SFdiv_core_binary_spec m1 e1 m2 e2 :
  0 < m1 -> 0 < m2 ->
  let '(q, e, l) := SFdiv_core_binary prec emax m1 e1 m2 e2 in
  located (shr_record_of_loc q l) e (F2R m1 e1 / F2R m2 e2)%R /\
  e <= fexp64 (Zdigits2 q + e).
Proof.
  intros H1 H2. unfold SFdiv_core_binary.
  set (d1 := Zdigits2 m1). set (d2 := Zdigits2 m2).
  set (e := Z.min (SpecFloat.fexp prec emax (d1 + e1 - (d2 + e2))) (e1 - e2)).
  set (s := e1 - e2 - e).
  assert (Hs : 0 <= s) by (unfold s, e; lia).
  set (m' := match s with Z.pos _ => Z.shiftl m1 s | 0 => m1 | Z.neg _ => 0 end).
  assert (Hm' : m' = m1 * 2 ^ s).
  { unfold m'. destruct s as [|p|p]; [simpl; lia | apply Z.shiftl_mul_pow2; lia | lia]. }
  pose proof (Z_div_mod m' m2 ltac:(lia)) as Hdiv.
  destruct (Z.div_eucl m' m2) as [q r]. destruct Hdiv as [Hqr Hr].
  assert (Hpow : 0 < 2 ^ s) by (apply Z.pow_pos_nonneg; lia).
  assert (Hq : 0 <= q) by nia.
  (* the quotient as a real number *)
  assert (Hx : (F2R m1 e1 / F2R m2 e2 = F2R q e + IZR r / IZR m2 * bpow e)%R).
  { assert (He1 : e1 = e2 + e + s) by (unfold s; lia).
    unfold F2R. rewrite He1, !bpow_add, (bpow_Z s Hs).
    pose proof (bpow_gt_0 e2). pose proof (bpow_gt_0 e).
    assert (Hm2 : (0 < IZR m2)%R) by (apply IZR_lt; lia).
    assert (HR : (IZR m1 * IZR (2 ^ s) = IZR m2 * IZR q + IZR r)%R).
    { rewrite <- mult_IZR, <- Hm', Hqr, plus_IZR, mult_IZR. reflexivity. }
    transitivity ((IZR m1 * IZR (2 ^ s)) * bpow e / IZR m2)%R.
    - field. split; lra.
    - rewrite HR. field. lra. }
  assert (Hfrac : (0 <= IZR r / IZR m2 < 1)%R).
  { assert (Hm2 : (0 < IZR m2)%R) by (apply IZR_lt; lia).
    assert (Hr0 : (0 <= IZR r)%R) by (apply IZR_le; lia).
    assert (Hr1 : (IZR r < IZR m2)%R) by (apply IZR_lt; lia).
    split.
    - apply Rmult_le_pos; [exact Hr0 | apply Rlt_le, Rinv_0_lt_compat, Hm2].
    - apply (Rmult_lt_reg_r (IZR m2)); [exact Hm2|].
      unfold Rdiv. rewrite Rmult_assoc, Rinv_l by lra. lra. }
  split.
  - unfold located. rewrite shr_m_of_loc. split; [exact Hq|].
    pose proof (bpow_gt_0 e) as Hbe.
    assert (Hsucc : (F2R (q + 1) e = F2R q e + bpow e)%R).
    { unfold F2R. rewrite plus_IZR. ring. }
    split; [rewrite Hx, Hsucc; split; nra|].
    rewrite new_location_bits, Hx. split.
    + intros Heq.
      assert (Hz : (IZR r / IZR m2 = 0)%R) by nra.
      assert (Hm2 : (0 < IZR m2)%R) by (apply IZR_lt; lia).
      assert (Hr0 : (IZR r = 0)%R).
      { unfold Rdiv in Hz. apply Rmult_integral in Hz as [Hz|Hz]; [exact Hz|].
        pose proof (Rinv_0_lt_compat _ Hm2). lra. }
      apply eq_IZR in Hr0. exact Hr0.
    + intros ->. unfold Rdiv. rewrite Rmult_0_l, Rmult_0_l. ring.
  - destruct (Z.eq_dec q 0) as [->|Hq0].
    + (* the quotient is below the smallest positive double *)
      assert (Hlt : m' < m2) by nia.
      pose proof (Zdigits2_bounds m1 H1) as [Hlo1 _]. fold d1 in Hlo1.
      pose proof (Zdigits2_bounds m2 H2) as [_ Hhi2]. fold d2 in Hhi2.
      pose proof (Zdigits2_pos m1 H1) as Hd1. fold d1 in Hd1.
      assert (Hd : d1 + s <= d2).
      { destruct (Z_le_gt_dec (d1 + s) d2) as [|Hgt]; [assumption|].
        assert (2 ^ d2 <= 2 ^ (d1 - 1 + s)) by (apply Z.pow_le_mono_r; lia).
        rewrite Z.pow_add_r in H by lia. nia. }
      simpl Zdigits2. unfold s, e in *. rewrite !fexp64_spec in *. lia.
    + assert (Hqpos : 0 < q) by lia.
      assert (Hdq : d1 + s - d2 <= Zdigits2 q).
      { pose proof (Zdigits2_bounds m1 H1) as [Hlo1 _]. fold d1 in Hlo1.
        pose proof (Zdigits2_bounds m2 H2) as [_ Hhi2]. fold d2 in Hhi2.
        pose proof (Zdigits2_bounds q Hqpos) as [_ Hhiq].
        pose proof (Zdigits2_pos m1 H1) as Hd1. fold d1 in Hd1.
        pose proof (Zdigits2_pos m2 H2) as Hd2. fold d2 in Hd2.
        pose proof (Zdigits2_pos q Hqpos) as Hdq.
        destruct (Z_le_gt_dec (d1 + s - d2) (Zdigits2 q)) as [|Hgt]; [assumption|].
        exfalso.
        (* m' < m2 * (q + 1) <= 2^d2 * 2^digits(q) <= 2^(d1 + s - 1) <= m' *)
        assert (Hq1 : q + 1 <= 2 ^ Zdigits2 q) by lia.
        assert (Hpp : 2 ^ d2 * 2 ^ Zdigits2 q <= 2 ^ (d1 - 1) * 2 ^ s).
        { rewrite <- !Z.pow_add_r by lia. apply Z.pow_le_mono_r; lia. }
        assert (0 < 2 ^ Zdigits2 q) by (apply Z.pow_pos_nonneg; lia).
        assert (0 < 2 ^ d2) by (apply Z.pow_pos_nonneg; lia).
        assert (m' < m2 * (q + 1)) by nia.
        assert (m2 * (q + 1) <= 2 ^ d2 * 2 ^ Zdigits2 q) by nia.
        nia. }
      unfold s, e in *. rewrite !fexp64_spec in *. lia.
Qed.

(** The doubles 1 and 100. *)
Lemma F2R_one : F2R 4503599627370496 (-52) = 1%R.
Proof.
  change 4503599627370496 with (1 * 2 ^ 52). rewrite F2R_shift by lia.
  unfold F2R. simpl. lra.
Qed.

Lemma F2R_hundred : F2R 7036874417766400 (-46) = 100%R.
Proof.
  change 7036874417766400 with (100 * 2 ^ 46). rewrite F2R_shift by lia.
  unfold F2R. simpl. lra.
Qed.

Lemma nonneg_finite_ge_0 f x : nonneg_finite f x -> (0 <= x)%R.
Proof. intros [s|m e _]; [lra | apply Rlt_le, F2R_pos; lia]. Qed.

(** Rounding a nonnegative real number that a double bounds from above. *)
Lemma round_below sx mx ex lx x mb eb :
  located (shr_record_of_loc mx lx) ex x ->
  ex <= fexp64 (Zdigits2 mx + ex) ->
  SpecFloat.bounded prec emax mb eb = true ->
  (x <= F2R (Z.pos mb) eb)%R ->
  binary_round_aux prec emax sx mx ex lx = S754_zero sx \/
  exists m e,
    binary_round_aux prec emax sx mx ex lx = S754_finite sx m e /\
    SpecFloat.bounded prec emax m e = true /\
    (F2R (Z.pos m) e <= F2R (Z.pos mb) eb)%R.
Proof.
  intros Hloc Hex Hb Hx.
  destruct (binary_round_aux_spec sx _ _ _ _ Hloc Hex) as [Hshape Hbound].
  destruct (Hbound mb eb Hb Hx) as [Hfin Hle].
  destruct Hshape as [Hz|[(m & e & Hr & Hbm)|Hinf]].
  - left. exact Hz.
  - right. exists m, e. rewrite Hr in Hle. simpl in Hle. auto.
  - contradiction.
Qed.

(** The quotient of two positive dyadic numbers, the first not above the
    second, is a double between 0 and 1. *)
Lemma SFdiv_le_one m1 e1 m2 e2 :
  (F2R (Z.pos m1) e1 <= F2R (Z.pos m2) e2)%R ->
  exists x, nonneg_finite (SF64div (S754_finite false m1 e1) (S754_finite false m2 e2)) x
            /\ (x <= 1)%R.
Proof.
  intros Hle. unfold SF64div, SFdiv.
  pose proof (SFdiv_core_binary_spec (Z.pos m1) e1 (Z.pos m2) e2 ltac:(lia) ltac:(lia))
    as Hcore.
  destruct (SFdiv_core_binary prec emax (Z.pos m1) e1 (Z.pos m2) e2) as [[q e] l].
  destruct Hcore as [Hloc Hex].
  assert (Hq : (F2R (Z.pos m1) e1 / F2R (Z.pos m2) e2 <= F2R 4503599627370496 (-52))%R).
  { rewrite F2R_one.
    pose proof (F2R_pos (Z.pos m2) e2 ltac:(lia)) as Hp.
    apply (Rmult_le_reg_r (F2R (Z.pos m2) e2)); [exact Hp|].
    unfold Rdiv. rewrite Rmult_assoc, Rinv_l by lra. lra. }
  destruct (round_below (xorb false false) _ _ _ _ 4503599627370496%positive (-52)
              Hloc Hex eq_refl Hq) as [Hz|(m & e' & Hr & Hb & Hle')].
  - rewrite Hz. exists 0%R. split; [constructor | lra].
  - rewrite Hr. exists (F2R (Z.pos m) e'). split; [constructor; exact Hb|].
    rewrite F2R_one in Hle'. exact Hle'.
Qed.

(** A double between 0 and 1, times the double 100, is a double between 0
    and 100. *)
Lemma SFmul_hundred f x :
  nonneg_finite f x -> (x <= 1)%R ->
  exists y, nonneg_finite (SF64mul f (S754_finite false 7036874417766400 (-46))) y
            /\ (y <= 100)%R.
Proof.
  intros [s|m e Hb] Hx.
  - simpl. exists 0%R. split; [constructor | lra].
  - unfold SF64mul, SFmul.
    assert (Hval : F2R (Z.pos (m * 7036874417766400)) (e + -46)
                   = (F2R (Z.pos m) e * 100)%R).
    { rewrite <- F2R_hundred. unfold F2R.
      rewrite Pos2Z.inj_mul, mult_IZR, bpow_add. ring. }
    assert (Hloc : located (shr_record_of_loc (Z.pos (m * 7036874417766400)) loc_Exact)
                     (e + -46) (F2R (Z.pos m) e * 100)%R).
    { rewrite <- Hval. apply located_of_loc_exact. lia. }
    assert (Hex : e + -46 <= fexp64 (Zdigits2 (Z.pos (m * 7036874417766400)) + (e + -46))).
    { apply bounded_spec in Hb as [Hcan _].
      pose proof (Zdigits2_mul_ge (Z.pos m) 7036874417766400 ltac:(lia) ltac:(lia)) as Hd.
      change (Zdigits2 7036874417766400) with 53 in Hd.
      rewrite <- Pos2Z.inj_mul in Hd.
      pose proof (Zdigits2_pos (Z.pos m) ltac:(lia)).
      rewrite fexp64_spec in *. lia. }
    assert (Hle : (F2R (Z.pos m) e * 100 <= F2R 7036874417766400 (-46))%R)
      by (rewrite F2R_hundred; lra).
    destruct (round_below (xorb false false) _ _ _ _ 7036874417766400%positive (-46)
                Hloc Hex eq_refl Hle) as [Hz|(m' & e' & Hr & Hb' & Hle')].
    + rewrite Hz. exists 0%R. split; [constructor | lra].
    + rewrite Hr. exists (F2R (Z.pos m') e'). split; [constructor; exact Hb'|].
      rewrite F2R_hundred in Hle'. exact Hle'.
Qed.

(** Truncation of a double between 0 and 100. *)
Lemma shiftl_le_hundred m e :
  (F2R (Z.pos m) e <= 100)%R -> 0 <= Z.shiftl (Z.pos m) e <= 100.
Proof.
  intros Hle. destruct (Z_le_gt_dec 0 e) as [He|He].
  - rewrite Z.shiftl_mul_pow2 by lia.
    assert (0 < 2 ^ e) by (apply Z.pow_pos_nonneg; lia).
    split; [nia|].
    apply le_IZR. unfold F2R in Hle. rewrite bpow_Z in Hle by lia.
    rewrite mult_IZR. exact Hle.
  - rewrite Z.shiftl_div_pow2 by lia.
    assert (Hp : 0 < 2 ^ (- e)) by (apply Z.pow_pos_nonneg; lia).
    split; [apply Z.div_pos; lia|].
    assert (Hm : Z.pos m <= 100 * 2 ^ (- e)).
    { apply (F2R_le_inv _ _ e). rewrite F2R_shift by lia.
      replace (e + - e) with 0 by lia. unfold F2R at 2. rewrite bpow_0. lra. }
    apply Z.div_le_upper_bound; lia.
Qed.

(** ** Rounding from below *)

Lemma fexp64_succ a : fexp64 (a + 1) <= fexp64 a + 1.
Proof. rewrite !fexp64_spec. lia. Qed.

Lemma fexp64_lt_inv a b : fexp64 a < fexp64 b -> a < b.
Proof. rewrite !fexp64_spec. lia. Qed.

(** After rounding, bringing the mantissa back to the format loses
    nothing. *)
Lemma second_shift_exact m1 e1 m2 :
  0 < m1 -> fexp64 (Zdigits2 m1 + e1) = e1 -> m2 = m1 \/ m2 = m1 + 1 ->
  let r := shr_fexp prec emax m2 e1 loc_Exact in
  F2R (shr_m (fst r)) (snd r) = F2R m2 e1.
Proof.
  intros Hm1 Hcan Hm2 r.
  assert (Hm2pos : 0 < m2) by lia.
  destruct (shr_fexp_located _ _ _ _ (located_of_loc_exact m2 e1 ltac:(lia)))
    as (_ & H2 & H3).
  fold r in H2, H3.
  set (n := fexp64 (Zdigits2 m2 + e1) - e1) in *.
  pose proof (Zdigits2_bounds m1 Hm1) as [Hlo1 Hhi1].
  pose proof (Zdigits2_pos m1 Hm1) as Hd1.
  assert (Hdiv : exists k, 0 <= k /\ Z.max n 0 = k /\ m2 = (m2 / 2 ^ k) * 2 ^ k).
  { destruct (Z_lt_le_dec m2 (2 ^ Zdigits2 m1)) as [Hlt|Hge].
    - (* same number of digits: no shift *)
      assert (Hd2 : Zdigits2 m2 = Zdigits2 m1) by (apply Zdigits2_unique; lia).
      exists 0. unfold n. rewrite Hd2, Hcan.
      split; [lia|]. split; [lia|]. rewrite Z.div_1_r. lia.
    - (* the mantissa became a power of two *)
      assert (Hpow : m2 = 2 ^ Zdigits2 m1) by lia.
      assert (Hd2 : Zdigits2 m2 = Zdigits2 m1 + 1).
      { apply Zdigits2_unique; [lia|]. rewrite Hpow.
        replace (Zdigits2 m1 + 1 - 1) with (Zdigits2 m1) by lia.
        split; [lia|]. apply Z.pow_lt_mono_r; lia. }
      pose proof (fexp64_succ (Zdigits2 m1 + e1)) as Hs.
      pose proof (fexp64_le (Zdigits2 m1 + e1) (Zdigits2 m1 + e1 + 1) ltac:(lia)) as Hl.
      assert (Hn : n = 0 \/ n = 1).
      { unfold n. rewrite Hd2.
        replace (Zdigits2 m1 + 1 + e1) with (Zdigits2 m1 + e1 + 1) by lia. lia. }
      destruct Hn as [Hn|Hn]; rewrite Hn.
      + exists 0. split; [lia|]. split; [lia|]. rewrite Z.div_1_r. lia.
      + exists 1. split; [lia|]. split; [lia|].
        rewrite Hpow. replace (Zdigits2 m1) with (1 + (Zdigits2 m1 - 1)) at 1 2 by lia.
        rewrite Z.pow_add_r by lia. change (2 ^ 1) with 2.
        rewrite (Z.mul_comm 2), Z.div_mul by lia. lia. }
  destruct Hdiv as (k & Hk & Hmax & Hexact).
  rewrite H3, H2, Hmax. rewrite <- F2R_shift by exact Hk. rewrite <- Hexact.
  reflexivity.
Qed.

(** A double that bounds the real number from below bounds the result too,
    unless the result overflows. *)
Theorem binary_round_aux_lower sx mx ex lx x mb eb :
  located (shr_record_of_loc mx lx) ex x ->
  ex <= fexp64 (Zdigits2 mx + ex) ->
  SpecFloat.bounded prec emax mb eb = true ->
  (F2R (Z.pos mb) eb <= x)%R ->
  binary_round_aux prec emax sx mx ex lx = S754_infinity sx \/
  exists m e,
    binary_round_aux prec emax sx mx ex lx = S754_finite sx m e /\
    SpecFloat.bounded prec emax m e = true /\
    (F2R (Z.pos mb) eb <= F2R (Z.pos m) e)%R.
Proof.
  intros Hloc Hex Hb Hx.
  destruct (binary_round_aux_spec sx _ _ _ _ Hloc Hex) as [Hshape _].
  revert Hshape. unfold binary_round_aux.
  destruct (first_shift _ _ _ _ Hloc Hex) as (Hloc1 & He1 & Hdig1 & Hzero1).
  destruct (shr_fexp prec emax mx ex lx) as [mrs1 e1]. simpl fst in *. simpl snd in *.
  pose proof (round_nearest_even_cases mrs1) as Hround. simpl in Hround.
  set (m2 := round_nearest_even (shr_m mrs1) (loc_of_shr_record mrs1)) in *.
  destruct Hloc1 as (Hm1 & [Hlo1 Hhi1] & _).
  apply bounded_spec in Hb as [Hcan Heb].
  pose proof (F2R_digits_bounds (Z.pos mb) eb ltac:(lia)) as [Hblo Hbhi].
  pose proof (Zdigits2_pos (Z.pos mb) ltac:(lia)) as Hdb.
  (* the truncated mantissa is positive *)
  assert (Hp : 0 < shr_m mrs1).
  { destruct (Z.eq_dec (shr_m mrs1) 0) as [Hz|]; [exfalso|lia].
    rewrite Hz, (Hzero1 Hz) in Hhi1.
    assert (Hone : F2R (0 + 1) (-1074) = bpow (-1074))
      by (change (0 + 1) with 1; unfold F2R; lra).
    rewrite Hone in Hhi1.
    assert (Hle : (bpow (-1074) <= bpow (Zdigits2 (Z.pos mb) - 1 + eb))%R).
    { apply bpow_le. rewrite fexp64_spec in Hcan. lia. }
    lra. }
  assert (Hcan1 : fexp64 (Zdigits2 (shr_m mrs1) + e1) = e1) by (rewrite (Hdig1 Hp); lia).
  (* and not below the bound *)
  assert (Hge : (F2R (Z.pos mb) eb <= F2R (shr_m mrs1) e1)%R).
  { destruct (Z_le_gt_dec e1 eb) as [Hle|Hgt].
    - assert (Hlt : (F2R (Z.pos mb) eb < F2R (shr_m mrs1 + 1) e1)%R) by lra.
      replace eb with (e1 + (eb - e1)) in * by lia.
      rewrite <- F2R_shift in * by lia.
      apply F2R_lt_inv in Hlt. apply F2R_le. lia.
    - assert (Hd : Zdigits2 (Z.pos mb) + eb < Zdigits2 (shr_m mrs1) + e1).
      { apply fexp64_lt_inv. lia. }
      pose proof (F2R_digits_bounds (shr_m mrs1) e1 Hp) as [Hlo _].
      assert (Hle : (bpow (Zdigits2 (Z.pos mb) + eb)
                     <= bpow (Zdigits2 (shr_m mrs1) - 1 + e1))%R)
        by (apply bpow_le; lia).
      lra. }
  assert (Hcases : m2 = shr_m mrs1 \/ m2 = shr_m mrs1 + 1)
    by (destruct Hround as [->|[-> _]]; auto).
  pose proof (second_shift_exact _ _ _ Hp Hcan1 Hcases) as Hexact.
  destruct (shr_fexp prec emax m2 e1 loc_Exact) as [mrs3 e3].
  simpl fst in *. simpl snd in *.
  assert (Hge3 : (F2R (Z.pos mb) eb <= F2R (shr_m mrs3) e3)%R).
  { rewrite Hexact. apply Rle_trans with (1 := Hge). apply F2R_le. lia. }
  intros Hshape.
  destruct Hshape as [Hz|[(m & e & Hr & Hbm)|Hinf]].
  - exfalso. destruct (shr_m mrs3) as [|p|p] eqn:E.
    + unfold F2R in Hge3 at 2. simpl in Hge3.
      pose proof (bpow_gt_0 (Zdigits2 (Z.pos mb) - 1 + eb)). lra.
    + destruct (e3 <=? emax - prec); discriminate.
    + discriminate.
  - right. exists m, e. split; [exact Hr|]. split; [exact Hbm|].
    destruct (shr_m mrs3) as [|p|p] eqn:E; try discriminate.
    destruct (e3 <=? emax - prec); [|discriminate].
    injection Hr as <- <-. exact Hge3.
  - left. exact Hinf.
Qed.

(** ** Conversion of an integer *)

Lemma iter_xO p d : Z.pos (Pos.iter xO p d) = Z.pos p * 2 ^ Z.pos d.
Proof.
  induction d as [|d IH] using Pos.peano_ind.
  - simpl. lia.
  - rewrite Pos.iter_succ, Pos2Z.inj_xO, IH, Pos2Z.inj_succ, Z.pow_succ_r by lia. lia.
Qed.

Lemma Zdigits2_mul_pow2 m k :
  0 < m -> 0 <= k -> Zdigits2 (m * 2 ^ k) = Zdigits2 m + k.
Proof.
  intros Hm Hk. pose proof (Zdigits2_bounds m Hm) as [Hlo Hhi].
  pose proof (Zdigits2_pos m Hm) as Hd.
  assert (Hp : 0 < 2 ^ k) by (apply Z.pow_pos_nonneg; lia).
  apply Zdigits2_unique; [nia|].
  replace (Zdigits2 m + k - 1) with (Zdigits2 m - 1 + k) by lia.
  rewrite !Z.pow_add_r by lia. split; nia.
Qed.

(** The mantissa and exponent [binary_round] hands to the rounding step. *)
Lemma shl_align_fexp_spec mx ex :
  let r := shl_align mx ex (fexp64 (Z.pos (digits2_pos mx) + ex)) in
  located (shr_record_of_loc (Z.pos (fst r)) loc_Exact) (snd r) (F2R (Z.pos mx) ex) /\
  snd r <= fexp64 (Zdigits2 (Z.pos (fst r)) + snd r).
Proof.
  unfold shl_align.
  change (Z.pos (digits2_pos mx)) with (Zdigits2 (Z.pos mx)).
  set (e' := fexp64 (Zdigits2 (Z.pos mx) + ex)).
  destruct (e' - ex) as [|d|d] eqn:Hd; cbn [fst snd].
  - split; [apply located_of_loc_exact; lia|]. fold e'. lia.
  - split; [apply located_of_loc_exact; lia|]. fold e'. lia.
  - assert (Hex : ex = e' + Z.pos d) by lia.
    rewrite iter_xO. split.
    + replace (F2R (Z.pos mx) ex) with (F2R (Z.pos mx * 2 ^ Z.pos d) e').
      * apply located_of_loc_exact. lia.
      * rewrite F2R_shift by lia. rewrite Hex. reflexivity.
    + rewrite Zdigits2_mul_pow2 by lia.
      replace (Zdigits2 (Z.pos mx) + Z.pos d + e') with (Zdigits2 (Z.pos mx) + ex) by lia.
      fold e'. lia.
Qed.

Lemma valid_nonneg_finite f x : nonneg_finite f x -> valid_binary f = true.
Proof. intros [s|m e Hb]; [reflexivity | exact Hb]. Qed.

Lemma F2R_int z : F2R z 0 = IZR z.
Proof. unfold F2R. rewrite bpow_0. ring. Qed.

(** [float(z)] for a positive integer below a double: no overflow, and the
    result is below that double. *)
Lemma float_of_int_below z mb eb :
  0 < z -> SpecFloat.bounded prec emax mb eb = true -> (IZR z <= F2R (Z.pos mb) eb)%R ->
  exists f x,
    float_of_int z = inr f /\ nonneg_finite (Prim2SF f) x /\ (x <= F2R (Z.pos mb) eb)%R.
Proof.
  intros Hz Hb Hle. destruct z as [|p|p]; try lia.
  unfold float_of_int. cbn [binary_normalize]. unfold binary_round.
  pose proof (shl_align_fexp_spec p 0) as Hsh.
  destruct (shl_align p 0 (fexp64 (Z.pos (digits2_pos p) + 0))) as [mz ez].
  cbn [fst snd] in Hsh. destruct Hsh as [Hloc Hex].
  rewrite F2R_int in Hloc.
  destruct (round_below false _ _ _ _ mb eb Hloc Hex Hb Hle)
    as [Hr|(m & e & Hr & Hbm & Hle')]; rewrite Hr; cbn [finite_or_overflow].
  - exists (SF2Prim (S754_zero false)), 0%R. split; [reflexivity|]. split.
    + rewrite (Prim2SF_SF2Prim (S754_zero false) eq_refl). constructor.
    + apply Rlt_le, F2R_pos. lia.
  - exists (SF2Prim (S754_finite false m e)), (F2R (Z.pos m) e).
    split; [reflexivity|]. split.
    + rewrite (Prim2SF_SF2Prim (S754_finite false m e) Hbm). constructor. exact Hbm.
    + exact Hle'.
Qed.

(** [float(z)] for a positive integer above a double, when it does not
    overflow: the result is above that double. *)
Lemma float_of_int_above z f mb eb :
  0 < z -> float_of_int z = inr f ->
  SpecFloat.bounded prec emax mb eb = true -> (F2R (Z.pos mb) eb <= IZR z)%R ->
  exists m e,
    Prim2SF f = S754_finite false m e /\ SpecFloat.bounded prec emax m e = true /\
    (F2R (Z.pos mb) eb <= F2R (Z.pos m) e)%R.
Proof.
  intros Hz Hf Hb Hle. destruct z as [|p|p]; try lia.
  unfold float_of_int in Hf. cbn [binary_normalize] in Hf. unfold binary_round in Hf.
  pose proof (shl_align_fexp_spec p 0) as Hsh.
  destruct (shl_align p 0 (fexp64 (Z.pos (digits2_pos p) + 0))) as [mz ez].
  cbn [fst snd] in Hsh. destruct Hsh as [Hloc Hex].
  rewrite F2R_int in Hloc.
  destruct (binary_round_aux_lower false _ _ _ _ mb eb Hloc Hex Hb Hle)
    as [Hr|(m & e & Hr & Hbm & Hle')]; rewrite Hr in Hf; cbn [finite_or_overflow] in Hf.
  - discriminate.
  - assert (Hf' : f = SF2Prim (S754_finite false m e))
      by (injection Hf as <-; reflexivity).
    exists m, e. rewrite Hf', (Prim2SF_SF2Prim (S754_finite false m e) Hbm). auto.
Qed.

(** ** Comparisons *)

(** The order of two positive doubles is the order of their values. *)
Lemma SFcompare_pos_le m1 e1 m2 e2 c :
  SpecFloat.bounded prec emax m1 e1 = true -> SpecFloat.bounded prec emax m2 e2 = true ->
  SFcompare (S754_finite false m1 e1) (S754_finite false m2 e2) = Some c ->
  c <> Gt -> (F2R (Z.pos m1) e1 <= F2R (Z.pos m2) e2)%R.
Proof.
  intros Hb1 Hb2 Hc Hne. cbn [SFcompare] in Hc.
  apply bounded_spec in Hb1 as [Hcan1 _]. apply bounded_spec in Hb2 as [Hcan2 _].
  destruct (Z.compare_spec e1 e2) as [Heq|Hlt|Hgt].
  - subst e2. apply F2R_le.
    injection Hc as Hc. rewrite <- Hc in Hne.
    change (Pos.compare_cont Eq m1 m2) with (Pos.compare m1 m2) in Hne.
    apply Pos2Z.pos_le_pos. exact Hne.
  - pose proof (F2R_digits_bounds (Z.pos m1) e1 ltac:(lia)) as [_ Hhi1].
    pose proof (F2R_digits_bounds (Z.pos m2) e2 ltac:(lia)) as [Hlo2 _].
    pose proof (Zdigits2_pos (Z.pos m1) ltac:(lia)).
    assert (Hle : (bpow (Zdigits2 (Z.pos m1) + e1) <= bpow (Zdigits2 (Z.pos m2) - 1 + e2))%R).
    { apply bpow_le. rewrite fexp64_spec in Hcan1, Hcan2. lia. }
    lra.
  - injection Hc as <-. congruence.
Qed.

Lemma compare_zero_scaled v e :
  (if 0 <=? e then 0 ?= v * 2 ^ e else 0 * 2 ^ (- e) ?= v) = (0 ?= v).
Proof.
  destruct (0 <=? e) eqn:He.
  - apply Z.leb_le in He.
    assert (0 < 2 ^ e) by (apply Z.pow_pos_nonneg; lia).
    destruct (Z.compare_spec 0 v) as [Hv|Hv|Hv].
    + subst v. reflexivity.
    + apply Z.compare_lt_iff. nia.
    + apply Z.compare_gt_iff. nia.
  - rewrite Z.mul_0_l. reflexivity.
Qed.

(** Which doubles are at least the integer 0, and which are above it. *)
Lemma zero_le_float f :
  py_le (PInt 0) (PFloat f) = inr true ->
  Prim2SF f = S754_infinity false \/ exists x, nonneg_finite (Prim2SF f) x.
Proof.
  unfold py_le, num_compare, compare_int_float. cbn [rbind].
  pose proof (Prim2SF_valid f) as Hv.
  destruct (Prim2SF f) as [s|s| |s m e].
  - intros _. right. exists 0%R. constructor.
  - destruct s; [discriminate | auto].
  - discriminate.
  - rewrite compare_zero_scaled. destruct s.
    + discriminate.
    + intros _. right. eexists. constructor. exact Hv.
Qed.

Lemma float_gt_zero f :
  py_gt (PFloat f) (PInt 0) = inr true ->
  Prim2SF f = S754_infinity false \/
  exists m e, Prim2SF f = S754_finite false m e /\ SpecFloat.bounded prec emax m e = true.
Proof.
  unfold py_gt, num_compare, compare_int_float. cbn [rbind].
  pose proof (Prim2SF_valid f) as Hv.
  destruct (Prim2SF f) as [s|s| |s m e].
  - discriminate.
  - destruct s; [discriminate | auto].
  - discriminate.
  - rewrite compare_zero_scaled. destruct s.
    + discriminate.
    + intros _. right. eauto.
Qed.

(** The exact comparison of an integer with a positive double. *)
Lemma compare_int_float_value z f m e c :
  Prim2SF f = S754_finite false m e ->
  compare_int_float z f = Some c ->
  (c <> Gt -> (IZR z <= F2R (Z.pos m) e)%R) /\
  (c <> Lt -> (F2R (Z.pos m) e <= IZR z)%R).
Proof.
  intros Hf. unfold compare_int_float. rewrite Hf. cbn [cond_Zopp].
  destruct (0 <=? e) eqn:He; intros Hc; injection Hc as <-.
  - apply Z.leb_le in He.
    assert (Hv : F2R (Z.pos m) e = IZR (Z.pos m * 2 ^ e)).
    { unfold F2R. rewrite bpow_Z, mult_IZR by lia. reflexivity. }
    rewrite Hv. destruct (Z.compare_spec z (Z.pos m * 2 ^ e)) as [Heq|Hlt|Hgt];
      split; intros Hne; try congruence; apply IZR_le; lia.
  - apply Z.leb_gt in He.
    assert (Hv : IZR z = F2R (z * 2 ^ (- e)) e).
    { rewrite F2R_shift by lia. replace (e + - e) with 0 by lia. symmetry. apply F2R_int. }
    rewrite Hv. destruct (Z.compare_spec (z * 2 ^ (- e)) (Z.pos m)) as [Heq|Hlt|Hgt];
      split; intros Hne; try congruence; apply F2R_le; lia.
Qed.

(** ** The quotient and the percentage *)

Lemma Prim2SF_zero : Prim2SF 0 = S754_zero false.
Proof. reflexivity. Qed.

Lemma Prim2SF_hundred : Prim2SF 100 = S754_finite false 7036874417766400 (-46).
Proof. reflexivity. Qed.

(** Division of a nonnegative double by a positive double above it. *)
Lemma float_div_le_one c t x mt et :
  nonneg_finite (Prim2SF c) x ->
  Prim2SF t = S754_finite false mt et ->
  (x <= F2R (Z.pos mt) et)%R ->
  exists y, float_div c t = inr (c / t)%float /\
            nonneg_finite (Prim2SF (c / t)) y /\ (y <= 1)%R.
Proof.
  intros Hc Ht Hle. unfold float_div.
  rewrite FloatAxioms.eqb_spec, Ht, Prim2SF_zero. cbn [SFeqb SFcompare].
  rewrite FloatAxioms.div_spec, Ht.
  inversion Hc as [s Hs|m e Hb Hs]; subst x.
  - exists 0%R. split; [reflexivity|]. cbn [SF64div SFdiv]. split; [constructor | lra].
  - destruct (SFdiv_le_one m e mt et Hle) as (y & Hy & Hy1).
    exists y. auto.
Qed.

Lemma float_of_int_zero : float_of_int 0 = inr 0%float.
Proof. reflexivity. Qed.

(** The smallest positive double is below every positive integer. *)
Lemma min_double_le_int z : 0 < z -> (F2R 1 (-1074) <= IZR z)%R.
Proof.
  intros Hz. apply Rle_trans with (IZR 1); [|apply IZR_le; lia].
  unfold F2R. pose proof (bpow_le (-1074) 0 ltac:(lia)) as H. rewrite bpow_0 in H. lra.
Qed.

Lemma py_le_int_int a b : py_le (PInt a) (PInt b) = inr true -> a <= b.
Proof.
  unfold py_le, num_compare. cbn [rbind].
  destruct (Z.compare_spec a b); intros Hcmp; try discriminate; lia.
Qed.

Lemma py_gt_int_zero z : py_gt (PInt z) (PInt 0) = inr true -> 0 < z.
Proof.
  unfold py_gt, num_compare. cbn [rbind].
  destruct (Z.compare_spec z 0); intros Hcmp; try discriminate; lia.
Qed.

Lemma no_overflow_nonneg_finite r x :
  nonneg_finite r x -> finite_or_overflow r = inr (SF2Prim r).
Proof. intros [s|m e Hb]; reflexivity. Qed.

Theorem truediv_le_one c t :
  finite_number t = true ->
  py_gt t (PInt 0) = inr true ->
  py_le (PInt 0) c = inr true ->
  py_le c t = inr true ->
  exists q x, py_truediv c t = inr q /\ nonneg_finite (Prim2SF q) x /\ (x <= 1)%R.
Proof.
  intros Hfin Hpos Hc0 Hct.
  destruct t as [|zt|ft|st]; try discriminate Hpos.
  - (* the total is an integer *)
    apply py_gt_int_zero in Hpos.
    cbn [finite_number] in Hfin.
    destruct (float_of_int zt) as [e|ft] eqn:Hft; [discriminate|].
    destruct c as [|zc|fc|sc]; try discriminate Hc0.
    + (* integer by integer *)
      apply py_le_int_int in Hc0, Hct.
      cbn [py_truediv]. unfold int_true_divide.
      destruct (Z.eqb_spec zt 0) as [|_]; [lia|].
      destruct zt as [|pt|pt]; try lia. destruct zc as [|pc|pc]; try lia.
      * exists (SF2Prim (S754_zero false)), 0%R. split; [reflexivity|].
        split; [rewrite (Prim2SF_SF2Prim (S754_zero false) eq_refl); constructor | lra].
      * cbn [Z2SF].
        destruct (SFdiv_le_one pc 0 pt 0) as (x & Hx & Hx1).
        { rewrite !F2R_int. apply IZR_le. exact Hct. }
        pose proof (valid_nonneg_finite _ _ Hx) as Hv.
        exists (SF2Prim (SF64div (S754_finite false pc 0) (S754_finite false pt 0))), x.
        rewrite (Prim2SF_SF2Prim _ Hv).
        split; [|auto].
        apply (no_overflow_nonneg_finite _ _ Hx).
    + (* double by integer *)
      cbn [py_truediv]. rewrite Hft. cbn [rbind].
      unfold py_le, num_compare in Hct. cbn [rbind] in Hct.
      destruct (compare_int_float zt fc) as [cmp|] eqn:Hcmp; [|discriminate].
      assert (Hne : cmp <> Lt) by (destruct cmp; [congruence|discriminate|congruence]).
      destruct (zero_le_float fc Hc0) as [Hinf|[x Hx]].
      { unfold compare_int_float in Hcmp. rewrite Hinf in Hcmp.
        injection Hcmp as <-. congruence. }
      inversion Hx as [s Hs|m e Hb Hs]; subst x.
      * destruct (float_of_int_above zt ft 1 (-1074) Hpos Hft eq_refl
                    (min_double_le_int zt Hpos)) as (mt & et & Ht & _ & _).
        destruct (float_div_le_one fc ft 0 mt et) as (y & Hd & Hy & Hy1).
        { rewrite <- Hs. constructor. }
        { exact Ht. }
        { apply Rlt_le, F2R_pos. lia. }
        exists (fc / ft)%float, y. auto.
      * symmetry in Hs.
        destruct (compare_int_float_value zt fc m e cmp Hs Hcmp) as [_ Hge].
        destruct (float_of_int_above zt ft m e Hpos Hft Hb (Hge Hne))
          as (mt & et & Ht & _ & Hle).
        destruct (float_div_le_one fc ft (F2R (Z.pos m) e) mt et) as (y & Hd & Hy & Hy1).
        { rewrite Hs. constructor. exact Hb. }
        { exact Ht. }
        { exact Hle. }
        exists (fc / ft)%float, y. auto.
  - (* the total is a double *)
    destruct (float_gt_zero ft Hpos) as [Hinf|(mt & et & Ht & Hbt)].
    { cbn [finite_number] in Hfin. unfold is_finite_float in Hfin.
      rewrite Hinf in Hfin. discriminate. }
    destruct c as [|zc|fc|sc]; try discriminate Hc0.
    + (* integer by double *)
      apply py_le_int_int in Hc0.
      unfold py_le, num_compare in Hct. cbn [rbind] in Hct.
      destruct (compare_int_float zc ft) as [cmp|] eqn:Hcmp; [|discriminate].
      assert (Hne : cmp <> Gt) by (destruct cmp; [congruence|congruence|discriminate]).
      destruct (compare_int_float_value zc ft mt et cmp Ht Hcmp) as [Hle _].
      specialize (Hle Hne).
      cbn [py_truediv].
      destruct (Z.eq_dec zc 0) as [->|Hnz].
      * rewrite float_of_int_zero. cbn [rbind].
        destruct (float_div_le_one 0 ft 0 mt et) as (y & Hd & Hy & Hy1).
        { rewrite Prim2SF_zero. constructor. }
        { exact Ht. }
        { apply Rlt_le, F2R_pos. lia. }
        exists (0 / ft)%float, y. auto.
      * destruct (float_of_int_below zc mt et ltac:(lia) Hbt Hle) as (fc & x & Hfc & Hx & Hxle).
        rewrite Hfc. cbn [rbind].
        destruct (float_div_le_one fc ft x mt et Hx Ht Hxle) as (y & Hd & Hy & Hy1).
        exists (fc / ft)%float, y. auto.
    + (* double by double *)
      destruct (zero_le_float fc Hc0) as [Hinf|[x Hx]].
      { unfold py_le, num_compare, compare_float in Hct. cbn [rbind] in Hct.
        rewrite FloatAxioms.compare_spec, Hinf, Ht in Hct. discriminate. }
      assert (Hle : (x <= F2R (Z.pos mt) et)%R).
      { unfold py_le, num_compare, compare_float in Hct. cbn [rbind] in Hct.
        rewrite FloatAxioms.compare_spec, Ht in Hct.
        inversion Hx as [s Hs|m e Hb Hs]; subst x.
        - apply Rlt_le, F2R_pos. lia.
        - rewrite <- Hs in Hct.
          destruct (SFcompare (S754_finite false m e) (S754_finite false mt et))
            as [cmp|] eqn:Hcmp; [|discriminate].
          apply (SFcompare_pos_le m e mt et cmp Hb Hbt Hcmp).
          destruct cmp; [congruence|congruence|discriminate]. }
      cbn [py_truediv].
      destruct (float_div_le_one fc ft x mt et Hx Ht Hle) as (y & Hd & Hy & Hy1).
      exists (fc / ft)%float, y. auto.
Qed.

(** The product by the literal 100 and its truncation. *)
Lemma times_hundred_truncated q x :
  nonneg_finite (Prim2SF q) x -> (x <= 1)%R ->
  exists p, int_of_float (q * 100) = inr p /\ floor_of_float (q * 100) = Some p /\
            0 <= p <= 100.
Proof.
  intros Hq Hx. unfold int_of_float, floor_of_float.
  rewrite FloatAxioms.mul_spec, Prim2SF_hundred.
  destruct (SFmul_hundred _ _ Hq Hx) as (y & Hy & Hy100).
  inversion Hy as [s Hs|m e Hb Hs]; subst y.
  - exists 0. repeat split; lia.
  - exists (Z.shiftl (Z.pos m) e). cbn [cond_Zopp].
    split; [reflexivity|]. split; [reflexivity|].
    apply shiftl_le_hundred, Hy100.
Qed.

Lemma py_gt_total c t : py_le c t = inr true -> exists b, py_gt t (PInt 0) = inr b.
Proof.
  unfold py_le, py_gt, num_compare.
  destruct c, t; cbn [rbind]; intros H; try discriminate H; eauto.
Qed.

(** The percentage of finite hours with [0 <= completed <= total]: the
    expression does not raise, its value is between 0 and 100, it is the floor
    of the double [completed / total * 100] when the total is positive and 0
    otherwise. *)
Lemma percent_complete_spec c t :
  finite_number t = true ->
  py_le (PInt 0) c = inr true ->
  py_le c t = inr true ->
  exists p,
    percent_complete c t = inr p /\ 0 <= p <= 100 /\
    (py_gt t (PInt 0) = inr true ->
     exists q, py_truediv c t = inr q /\ floor_of_float (q * 100) = Some p) /\
    (py_gt t (PInt 0) = inr false -> p = 0).
Proof.
  intros Hfin Hc0 Hct. unfold percent_complete.
  destruct (py_gt_total c t Hct) as [[|] Hgt]; rewrite Hgt; cbn [rbind].
  - destruct (truediv_le_one c t Hfin Hgt Hc0 Hct) as (q & x & Hq & Hx & Hx1).
    rewrite Hq. cbn [rbind].
    destruct (times_hundred_truncated q x Hx Hx1) as (p & Hp & Hfloor & Hrange).
    exists p. split; [exact Hp|]. split; [exact Hrange|].
    split; [intros _; exists q; auto | discriminate].
  - exists 0. split; [reflexivity|]. split; [lia|].
    split; [discriminate | reflexivity].
Qed.

Lemma py_eq_zero_not_gt t : py_eq t (PInt 0) = true -> py_gt t (PInt 0) = inr false.
Proof.
  unfold py_eq, py_gt.
  destruct t as [|z|f|s]; try discriminate;
    (destruct (num_compare _ (PInt 0)) as [e|[[| |]|]]; try discriminate; reflexivity).
Qed.

(** ** Sums of hours *)

(** Alignment of a mantissa to a smaller exponent keeps the value. *)
Lemma shl_align_value mx ex ez :
  ez <= ex ->
  F2R (Z.pos (fst (shl_align mx ex ez))) ez = F2R (Z.pos mx) ex.
Proof.
  intros Hle. unfold shl_align.
  destruct (ez - ex) as [|d|d] eqn:Hd; cbn [fst]; try lia.
  - replace ez with ex by lia. reflexivity.
  - rewrite iter_xO, F2R_shift by lia. f_equal. lia.
Qed.

(** The sum of two positive doubles is not below the second one, unless it
    overflows. *)
Lemma SFadd_pos_lower mx ex my ey :
  SpecFloat.bounded prec emax my ey = true ->
  SF64add (S754_finite false mx ex) (S754_finite false my ey) = S754_infinity false \/
  exists m e,
    SF64add (S754_finite false mx ex) (S754_finite false my ey) = S754_finite false m e /\
    SpecFloat.bounded prec emax m e = true /\
    (F2R (Z.pos my) ey <= F2R (Z.pos m) e)%R.
Proof.
  intros Hb. unfold SF64add, SFadd. cbn [cond_Zopp].
  set (ez := Z.min ex ey).
  pose proof (shl_align_value mx ex ez ltac:(lia)) as Hx.
  pose proof (shl_align_value my ey ez ltac:(lia)) as Hy.
  set (px := fst (shl_align mx ex ez)) in *.
  set (py := fst (shl_align my ey ez)) in *.
  change (Z.pos px + Z.pos py) with (Z.pos (px + py)).
  cbn [binary_normalize]. unfold binary_round.
  pose proof (shl_align_fexp_spec (px + py) ez) as Hsh.
  destruct (shl_align (px + py) ez (fexp64 (Z.pos (digits2_pos (px + py)) + ez)))
    as [mz ez'].
  cbn [fst snd] in Hsh. destruct Hsh as [Hloc Hex].
  assert (Hle : (F2R (Z.pos my) ey <= F2R (Z.pos (px + py)) ez)%R).
  { rewrite <- Hy. apply F2R_le. lia. }
  exact (binary_round_aux_lower false _ _ _ _ my ey Hloc Hex Hb Hle).
Qed.

(** The same for nonnegative doubles. *)
Lemma SFadd_nonneg_lower a xa b xb :
  nonneg_finite a xa -> nonneg_finite b xb ->
  SF64add a b = S754_infinity false \/
  exists y, nonneg_finite (SF64add a b) y /\ (xb <= y)%R.
Proof.
  intros [sa|ma ea Ha] [sb|mb eb Hb].
  - right. exists 0%R. split; [|lra]. destruct sa, sb; constructor.
  - right. exists (F2R (Z.pos mb) eb). split; [|lra]. constructor. exact Hb.
  - right. exists (F2R (Z.pos ma) ea). split.
    + constructor. exact Ha.
    + apply Rlt_le, F2R_pos. lia.
  - destruct (SFadd_pos_lower ma ea mb eb Hb) as [Hinf|(m & e & Hr & Hbm & Hle)].
    + left. exact Hinf.
    + right. exists (F2R (Z.pos m) e). rewrite Hr. split; [constructor; exact Hbm | exact Hle].
Qed.

(** ** The share of the completed hours *)

(** Division of a nonnegative double by an infinite total. *)
Lemma float_div_by_infinity c x t :
  nonneg_finite (Prim2SF c) x -> Prim2SF t = S754_infinity false ->
  float_div c t = inr (c / t)%float /\ nonneg_finite (Prim2SF (c / t)) 0.
Proof.
  intros Hc Ht. unfold float_div.
  rewrite FloatAxioms.eqb_spec, Ht, Prim2SF_zero. cbn [SFeqb SFcompare].
  split; [reflexivity|]. rewrite FloatAxioms.div_spec, Ht.
  inversion Hc; cbn [SF64div SFdiv]; constructor.
Qed.

(** Division of a nonnegative double by a positive total that is not below
    it, or is infinite. *)
Lemma float_share_le_one b xb t :
  nonneg_finite (Prim2SF b) xb ->
  (Prim2SF t = S754_infinity false \/
   exists y, nonneg_finite (Prim2SF t) y /\ (xb <= y)%R) ->
  py_gt (PFloat t) (PInt 0) = inr true ->
  exists z, float_div b t = inr (b / t)%float /\
            nonneg_finite (Prim2SF (b / t)) z /\ (z <= 1)%R.
Proof.
  intros Hb [Hinf|(y & Hy & Hle)] Hgt.
  - destruct (float_div_by_infinity b xb t Hb Hinf) as [Hd Hq].
    exists 0%R. split; [exact Hd|]. split; [exact Hq | lra].
  - destruct (float_gt_zero t Hgt) as [Hinf|(mt & et & Ht & Hbt)].
    + rewrite Hinf in Hy. inversion Hy.
    + rewrite Ht in Hy. inversion Hy; subst.
      exact (float_div_le_one b t xb mt et Hb Ht Hle).
Qed.

Lemma share_percent q x p :
  nonneg_finite (Prim2SF q) x -> (x <= 1)%R ->
  int_of_float (q * 100) = inr p -> 0 <= p <= 100.
Proof.
  intros Hq Hx Hp.
  destruct (times_hundred_truncated q x Hq Hx) as (p' & Hp' & _ & Hrange).
  congruence.
Qed.

Lemma float_of_int_nonneg z f :
  0 <= z -> float_of_int z = inr f -> exists x, nonneg_finite (Prim2SF f) x.
Proof.
  intros Hz Hf. destruct (Z.eq_dec z 0) as [->|Hnz].
  - rewrite float_of_int_zero in Hf. injection Hf as <-.
    exists 0%R. rewrite Prim2SF_zero. constructor.
  - assert (Hpos : 0 < z) by lia.
    destruct (float_of_int_above z f 1 (-1074) Hpos Hf eq_refl (min_double_le_int z Hpos))
      as (m & e & Hm & Hb & _).
    exists (F2R (Z.pos m) e). rewrite Hm. constructor. exact Hb.
Qed.

(** The percentage of [b] in the double sum [a + b]. *)
Lemma float_sum_percent a b p :
  nonneg_float a -> nonneg_float b ->
  py_gt (PFloat (a + b)) (PInt 0) = inr true ->
  (try q <- float_div b (a + b); int_of_float (q * 100)) = inr p ->
  0 <= p <= 100.
Proof.
  intros Ha Hb Hgt Hp.
  assert (Hsum : Prim2SF (a + b) = SF64add (Prim2SF a) (Prim2SF b))
    by apply FloatAxioms.add_spec.
  destruct Hb as [Hb|[xb Hb]].
  - (* an infinite share of an infinite total is not a number *)
    exfalso.
    assert (Ht : Prim2SF (a + b) = S754_infinity false).
    { rewrite Hsum, Hb. destruct Ha as [->|[xa Ha]]; [reflexivity|].
      inversion Ha; reflexivity. }
    unfold float_div in Hp.
    rewrite FloatAxioms.eqb_spec, Ht, Prim2SF_zero in Hp. cbn [SFeqb SFcompare rbind] in Hp.
    unfold int_of_float in Hp.
    rewrite FloatAxioms.mul_spec, FloatAxioms.div_spec, Ht, Hb in Hp.
    discriminate Hp.
  - assert (Ht : Prim2SF (a + b) = S754_infinity false \/
                 exists y, nonneg_finite (Prim2SF (a + b)) y /\ (xb <= y)%R).
    { rewrite Hsum. destruct Ha as [Ha|[xa Ha]].
      - left. rewrite Ha. inversion Hb; reflexivity.
      - apply (SFadd_nonneg_lower _ xa _ xb Ha Hb). }
    destruct (float_share_le_one b xb (a + b) Hb Ht Hgt) as (z & Hd & Hq & Hz).
    rewrite Hd in Hp. cbn [rbind] in Hp.
    exact (share_percent _ z p Hq Hz Hp).
Qed.

(** The percentage of nonnegative hours in an infinite total. *)
Lemma infinite_total_percent b t p :
  nonneg_float b -> Prim2SF t = S754_infinity false ->
  (try q <- float_div b t; int_of_float (q * 100)) = inr p ->
  0 <= p <= 100.
Proof.
  intros [Hb|[xb Hb]] Ht Hp.
  - exfalso. unfold float_div in Hp.
    rewrite FloatAxioms.eqb_spec, Ht, Prim2SF_zero in Hp. cbn [SFeqb SFcompare rbind] in Hp.
    unfold int_of_float in Hp.
    rewrite FloatAxioms.mul_spec, FloatAxioms.div_spec, Ht, Hb in Hp.
    discriminate Hp.
  - destruct (float_div_by_infinity b xb t Hb Ht) as [Hd Hq].
    rewrite Hd in Hp. cbn [rbind] in Hp.
    apply (share_percent _ 0%R p Hq); [lra | exact Hp].
Qed.

(** Whole hours: the correctly rounded quotient is at most 1. *)
Lemma int_share_le_one zc zt :
  0 <= zc <= zt -> 0 < zt ->
  exists q x, int_true_divide zc zt = inr q /\ nonneg_finite (Prim2SF q) x /\ (x <= 1)%R.
Proof.
  intros Hc Ht. unfold int_true_divide.
  destruct (Z.eqb_spec zt 0) as [|_]; [lia|].
  destruct zt as [|pt|pt]; try lia. destruct zc as [|pc|pc]; try lia.
  - exists (SF2Prim (S754_zero false)), 0%R. split; [reflexivity|].
    split; [rewrite (Prim2SF_SF2Prim (S754_zero false) eq_refl); constructor | lra].
  - cbn [Z2SF].
    destruct (SFdiv_le_one pc 0 pt 0) as (x & Hx & Hx1).
    { rewrite !F2R_int. apply IZR_le. lia. }
    pose proof (valid_nonneg_finite _ _ Hx) as Hv.
    exists (SF2Prim (SF64div (S754_finite false pc 0) (S754_finite false pt 0))), x.
    rewrite (Prim2SF_SF2Prim _ Hv).
    split; [|auto].
    apply (no_overflow_nonneg_finite _ _ Hx).
Qed.

(** Whatever the total, a percentage that was computed from
    [0 <= completed <= total] is between 0 and 100. *)
Lemma percent_complete_range c t p :
  py_le (PInt 0) c = inr true -> py_le c t = inr true ->
  percent_complete c t = inr p -> 0 <= p <= 100.
Proof.
  intros Hc0 Hct Hp.
  destruct (finite_number t) eqn:Hfin.
  { destruct (percent_complete_spec c t Hfin Hc0 Hct) as (p' & Hp' & Hrange & _).
    congruence. }
  unfold percent_complete in Hp.
  destruct (py_gt t (PInt 0)) as [e|[|]] eqn:Hgt; cbn [rbind] in Hp;
    [discriminate | | injection Hp as <-; lia].
  destruct t as [|zt|ft|st]; try discriminate Hgt.
  - (* an integer total beyond the doubles *)
    cbn [finite_number] in Hfin.
    destruct (float_of_int zt) as [e|] eqn:Hft; [|discriminate].
    destruct c as [|zc|fc|sc]; try discriminate Hc0.
    + apply py_le_int_int in Hc0, Hct. apply py_gt_int_zero in Hgt.
      destruct (int_share_le_one zc zt ltac:(lia) Hgt) as (q & x & Hq & Hx & Hx1).
      cbn [py_truediv] in Hp. rewrite Hq in Hp. cbn [rbind] in Hp.
      exact (share_percent q x p Hx Hx1 Hp).
    + cbn [py_truediv] in Hp. rewrite Hft in Hp. discriminate Hp.
  - (* an infinite total *)
    destruct (float_gt_zero ft Hgt) as [Hinf|(mt & et & Ht & _)].
    2: { cbn [finite_number] in Hfin. unfold is_finite_float in Hfin.
         rewrite Ht in Hfin. discriminate. }
    destruct c as [|zc|fc|sc]; try discriminate Hc0.
    + apply py_le_int_int in Hc0.
      cbn [py_truediv] in Hp.
      destruct (float_of_int zc) as [e|fc] eqn:Hfc; [discriminate|].
      cbn [rbind] in Hp.
      apply (infinite_total_percent fc ft p); [|exact Hinf|exact Hp].
      right. exact (float_of_int_nonneg zc fc Hc0 Hfc).
    + apply zero_le_float in Hc0.
      exact (infinite_total_percent fc ft p Hc0 Hinf Hp).
Qed.

(** The percentage of a stage: nonnegative hours remaining and completed
    give a percentage between 0 and 100. *)
Lemma stage_percent_range remaining completed total p :
  py_le (PInt 0) remaining = inr true -> py_le (PInt 0) completed = inr true ->
  py_add remaining completed = inr total ->
  percent_complete completed total = inr p -> 0 <= p <= 100.
Proof.
  intros Hr Hc Hadd Hp. unfold percent_complete in Hp.
  destruct (py_gt total (PInt 0)) as [e|[|]] eqn:Hgt; cbn [rbind] in Hp;
    [discriminate | | injection Hp as <-; lia].
  destruct remaining as [|zr|fr|sr]; try discriminate Hr;
    destruct completed as [|zc|fc|sc]; try discriminate Hc; cbn [py_add] in Hadd.
  - injection Hadd as <-.
    apply py_le_int_int in Hr, Hc. apply py_gt_int_zero in Hgt.
    destruct (int_share_le_one zc (zr + zc) ltac:(lia) Hgt) as (q & x & Hq & Hx & Hx1).
    cbn [py_truediv] in Hp. rewrite Hq in Hp. cbn [rbind] in Hp.
    exact (share_percent q x p Hx Hx1 Hp).
  - apply py_le_int_int in Hr. apply zero_le_float in Hc.
    destruct (float_of_int zr) as [e|fr] eqn:Hfr; [discriminate|].
    cbn [rbind] in Hadd. injection Hadd as <-.
    cbn [py_truediv] in Hp.
    apply (float_sum_percent fr fc p); [|exact Hc|exact Hgt|exact Hp].
    right. exact (float_of_int_nonneg zr fr Hr Hfr).
  - apply py_le_int_int in Hc. apply zero_le_float in Hr.
    destruct (float_of_int zc) as [e|fc] eqn:Hfc; [discriminate|].
    cbn [rbind] in Hadd. injection Hadd as <-.
    cbn [py_truediv] in Hp. rewrite Hfc in Hp. cbn [rbind] in Hp.
    apply (float_sum_percent fr fc p); [exact Hr| |exact Hgt|exact Hp].
    right. exact (float_of_int_nonneg zc fc Hc Hfc).
  - apply zero_le_float in Hr, Hc.
    injection Hadd as <-. cbn [py_truediv] in Hp.
    exact (float_sum_percent fr fc p Hr Hc Hgt Hp).
Qed.

Lemma getitem_returns (d : row) key v : getitem d key = inr v -> d !! key = Some v.
Proof. unfold getitem. destruct (d !! key); intros H; [congruence | discriminate]. Qed.

(** What the loop of [get_stage_breakdown] does to a row. *)
Lemma add_percent_returns r r' :
  add_percent r = inr r' ->
  exists remaining completed total p,
    r !! "hours_remaining" = Some remaining /\
    r !! "hours_completed" = Some completed /\
    py_add remaining completed = inr total /\
    percent_complete completed total = inr p /\
    r' = <["percent_complete" := PInt p]> r.
Proof.
  unfold add_percent. intros H.
  apply rbind_returns in H as (remaining & Hr & H).
  apply rbind_returns in H as (completed & Hc & H).
  apply rbind_returns in H as (total & Ht & H).
  apply rbind_returns in H as (p & Hp & H).
  injection H as <-.
  exists remaining, completed, total, p.
  auto using getitem_returns.
Qed.

(** ** The carryover *)

(** Adding the double zero changes nothing but the sign of a zero. *)
Lemma Prim2SF_add_zero f :
  Prim2SF (f + 0) = match Prim2SF f with
                    | S754_zero _ => S754_zero false
                    | x => x
                    end.
Proof.
  rewrite FloatAxioms.add_spec, Prim2SF_zero.
  destruct (Prim2SF f) as [[|]|[|]| |s m e]; reflexivity.
Qed.

Lemma num_compare_add_zero c f :
  num_compare c (PFloat (f + 0)) = num_compare c (PFloat f).
Proof.
  destruct c as [|z|g|s]; try reflexivity; cbn [num_compare]; f_equal.
  - unfold compare_int_float. rewrite Prim2SF_add_zero.
    destruct (Prim2SF f); reflexivity.
  - unfold compare_float. rewrite !FloatAxioms.compare_spec, Prim2SF_add_zero.
    destruct (Prim2SF g), (Prim2SF f); reflexivity.
Qed.

Lemma is_finite_float_add_zero f : is_finite_float (f + 0) = is_finite_float f.
Proof.
  unfold is_finite_float. rewrite Prim2SF_add_zero. destruct (Prim2SF f); reflexivity.
Qed.

(** [x + 0.0 == x] for every double but NaN. *)
Lemma py_eq_add_zero f :
  Prim2SF f <> S754_nan -> py_eq (PFloat (f + 0)) (PFloat f) = true.
Proof.
  intros Hnan. unfold py_eq, num_compare, compare_float.
  rewrite FloatAxioms.compare_spec, Prim2SF_add_zero.
  destruct (Prim2SF f) as [s|s| |s m e]; try reflexivity; try congruence.
  - destruct s; reflexivity.
  - cbn [SFcompare]. rewrite Z.compare_refl, Pos.compare_cont_refl.
    destruct s; reflexivity.
Qed.

(** What a call of [query_one] that returns has done. *)
Lemma query_one_answer W sql params log r log' :
  query_one W sql params log = (inr r, log') ->
  path_exists W = true /\ sqlite_connect W = None /\
  exists results,
    sqlite_execute W sql params = inr results /\
    r = head results /\ log' = log ++ [(sql, params)].
Proof.
  unfold query_one, query_df, get_connection, execute, bind, ret, raise.
  destruct (path_exists W); [|discriminate].
  destruct (sqlite_connect W); [discriminate|].
  destruct (sqlite_execute W sql params) as [e|results]; [discriminate|].
  intros H. injection H as <- <-.
  split; [reflexivity|]. split; [reflexivity|].
  exists results. destruct results; auto.
Qed.

(** ** Whole hours as doubles *)

(** A positive integer up to [2^53] is a double. *)
Lemma int_is_double z :
  0 < z <= 2 ^ 53 ->
  exists m e, SpecFloat.bounded prec emax m e = true /\ F2R (Z.pos m) e = IZR z.
Proof.
  intros [Hpos Hle].
  destruct (Z.eq_dec z (2 ^ 53)) as [->|Hne].
  { exists 4503599627370496%positive, 1. split; [reflexivity|].
    change (Z.pos 4503599627370496) with (2 ^ 52).
    rewrite <- (F2R_int (2 ^ 53)).
    change (2 ^ 53) with (2 ^ 52 * 2 ^ 1). rewrite F2R_shift by lia. reflexivity. }
  pose proof (Zdigits2_bounds z Hpos) as [Hlo Hhi].
  pose proof (Zdigits2_pos z Hpos) as Hd.
  set (d := Zdigits2 z) in *.
  assert (Hd53 : d <= 53).
  { destruct (Z_le_gt_dec d 53) as [|Hgt]; [assumption|exfalso].
    assert (2 ^ 53 <= 2 ^ (d - 1)) by (apply Z.pow_le_mono_r; lia). lia. }
  assert (Hp : 0 < 2 ^ (53 - d)) by (apply Z.pow_pos_nonneg; lia).
  assert (Hm : 0 < z * 2 ^ (53 - d)) by nia.
  exists (Z.to_pos (z * 2 ^ (53 - d))), (d - 53).
  rewrite Z2Pos.id by exact Hm.
  split.
  - apply bounded_spec. rewrite Z2Pos.id by exact Hm.
    rewrite Zdigits2_mul_pow2 by lia. fold d. rewrite fexp64_spec. lia.
  - rewrite F2R_shift by lia. replace (d - 53 + (53 - d)) with 0 by lia. apply F2R_int.
Qed.

(** Comparison of an integer with the double of the same value. *)
Lemma compare_int_float_eq z f m e :
  Prim2SF f = S754_finite false m e -> F2R (Z.pos m) e = IZR z ->
  compare_int_float z f = Some Eq.
Proof.
  intros Hf Hv. unfold compare_int_float. rewrite Hf. cbn [cond_Zopp]. f_equal.
  destruct (0 <=? e) eqn:He.
  - apply Z.leb_le in He. apply Z.compare_eq_iff, eq_IZR.
    rewrite <- Hv. unfold F2R. rewrite bpow_Z, mult_IZR by lia. reflexivity.
  - apply Z.leb_gt in He. apply Z.compare_eq_iff.
    assert (Hz : F2R (z * 2 ^ (- e)) e = F2R (Z.pos m) e).
    { rewrite Hv, F2R_shift by lia. replace (e + - e) with 0 by lia. apply F2R_int. }
    apply Z.le_antisymm; apply (F2R_le_inv _ _ e); rewrite Hz; apply Rle_refl.
Qed.

(** [float(z) == z] for whole hours up to [2^53]. *)
Lemma float_of_int_exact z :
  0 <= z <= 2 ^ 53 ->
  exists f, float_of_int z = inr f /\ py_eq (PFloat f) (PInt z) = true.
Proof.
  intros [Hz Hle]. destruct (Z.eq_dec z 0) as [->|Hnz].
  { exists 0%float. split; reflexivity. }
  assert (Hpos : 0 < z) by lia.
  destruct (int_is_double z (conj Hpos Hle)) as (m & e & Hb & Hv).
  destruct (float_of_int_below z m e Hpos Hb) as (f & x & Hf & Hx & Hxle).
  { rewrite Hv. apply Rle_refl. }
  destruct (float_of_int_above z f m e Hpos Hf Hb) as (m' & e' & Hf' & Hb' & Hge).
  { rewrite Hv. apply Rle_refl. }
  exists f. split; [exact Hf|].
  rewrite Hf' in Hx. inversion Hx; subst.
  unfold py_eq, num_compare.
  rewrite (compare_int_float_eq z f m' e' Hf'); [reflexivity|].
  rewrite Hv in *. apply Rle_antisym; assumption.
Qed.

(** ** Hours of ordinary size *)

Lemma F2R_pow2 k : F2R 4503599627370496 k = bpow (k + 52).
Proof.
  unfold F2R. change 4503599627370496 with (2 ^ 52).
  rewrite <- (bpow_Z 52) by lia. rewrite <- bpow_add. f_equal. lia.
Qed.

(** The quotient of two positive doubles whose ratio a double bounds. *)
Lemma SFdiv_le_bound m1 e1 m2 e2 mb eb :
  SpecFloat.bounded prec emax mb eb = true ->
  (F2R (Z.pos m1) e1 <= F2R (Z.pos mb) eb * F2R (Z.pos m2) e2)%R ->
  exists x, nonneg_finite (SF64div (S754_finite false m1 e1) (S754_finite false m2 e2)) x
            /\ (x <= F2R (Z.pos mb) eb)%R.
Proof.
  intros Hbb Hle. unfold SF64div, SFdiv.
  pose proof (SFdiv_core_binary_spec (Z.pos m1) e1 (Z.pos m2) e2 ltac:(lia) ltac:(lia))
    as Hcore.
  destruct (SFdiv_core_binary prec emax (Z.pos m1) e1 (Z.pos m2) e2) as [[q e] l].
  destruct Hcore as [Hloc Hex].
  assert (Hq : (F2R (Z.pos m1) e1 / F2R (Z.pos m2) e2 <= F2R (Z.pos mb) eb)%R).
  { pose proof (F2R_pos (Z.pos m2) e2 ltac:(lia)) as Hp.
    apply (Rmult_le_reg_r (F2R (Z.pos m2) e2)); [exact Hp|].
    unfold Rdiv. rewrite Rmult_assoc, Rinv_l by lra. lra. }
  destruct (round_below (xorb false false) _ _ _ _ mb eb Hloc Hex Hbb Hq)
    as [Hz|(m & e' & Hr & Hb & Hle')].
  - rewrite Hz. exists 0%R. split; [constructor|].
    apply Rlt_le, F2R_pos. lia.
  - rewrite Hr. exists (F2R (Z.pos m) e'). split; [constructor; exact Hb | exact Hle'].
Qed.

(** A nonnegative double whose hundredfold a double bounds, times the
    double 100, is a nonnegative double. *)
Lemma SFmul_hundred_bound f x mb eb :
  nonneg_finite f x -> SpecFloat.bounded prec emax mb eb = true ->
  (x * 100 <= F2R (Z.pos mb) eb)%R ->
  exists y, nonneg_finite (SF64mul f (S754_finite false 7036874417766400 (-46))) y.
Proof.
  intros [s|m e Hb] Hbb Hx.
  - simpl. exists 0%R. constructor.
  - unfold SF64mul, SFmul.
    assert (Hval : F2R (Z.pos (m * 7036874417766400)) (e + -46)
                   = (F2R (Z.pos m) e * 100)%R).
    { rewrite <- F2R_hundred. unfold F2R.
      rewrite Pos2Z.inj_mul, mult_IZR, bpow_add. ring. }
    assert (Hloc : located (shr_record_of_loc (Z.pos (m * 7036874417766400)) loc_Exact)
                     (e + -46) (F2R (Z.pos m) e * 100)%R).
    { rewrite <- Hval. apply located_of_loc_exact. lia. }
    assert (Hex : e + -46 <= fexp64 (Zdigits2 (Z.pos (m * 7036874417766400)) + (e + -46))).
    { apply bounded_spec in Hb as [Hcan _].
      pose proof (Zdigits2_mul_ge (Z.pos m) 7036874417766400 ltac:(lia) ltac:(lia)) as Hd.
      change (Zdigits2 7036874417766400) with 53 in Hd.
      rewrite <- Pos2Z.inj_mul in Hd.
      pose proof (Zdigits2_pos (Z.pos m) ltac:(lia)).
      rewrite fexp64_spec in *. lia. }
    destruct (round_below (xorb false false) _ _ _ _ mb eb Hloc Hex Hbb Hx)
      as [Hz|(m' & e' & Hr & Hb' & _)].
    + rewrite Hz. exists 0%R. constructor.
    + rewrite Hr. exists (F2R (Z.pos m') e'). constructor. exact Hb'.
Qed.

(** Truncation of a nonnegative double. *)
Lemma int_of_nonneg_float f x :
  nonneg_finite (Prim2SF f) x -> exists p, int_of_float f = inr p /\ 0 <= p.
Proof.
  intros Hf. unfold int_of_float. inversion Hf as [s Hs|m e Hb Hs].
  - exists 0. split; [reflexivity | lia].
  - exists (Z.shiftl (Z.pos m) e). split; [reflexivity|].
    apply Z.shiftl_nonneg. lia.
Qed.

(** Completed hours from 0 to [2^500], as a double. *)
Lemma ordinary_hours c :
  py_le (PInt 0) c = inr true -> py_le c (PFloat 0x1p500) = inr true ->
  exists fc x,
    (forall t, py_truediv c (PFloat t) = float_div fc t) /\
    nonneg_finite (Prim2SF fc) x /\ (x <= bpow 500)%R.
Proof.
  intros Hc0 Hc.
  assert (HB : Prim2SF 0x1p500 = S754_finite false 4503599627370496 448) by reflexivity.
  assert (HBv : F2R 4503599627370496 448 = bpow 500) by (rewrite F2R_pow2; reflexivity).
  destruct c as [|zc|fc|sc]; try discriminate Hc0.
  - apply py_le_int_int in Hc0.
    unfold py_le, num_compare in Hc. cbn [rbind] in Hc.
    destruct (compare_int_float zc 0x1p500) as [cmp|] eqn:Hcmp; [|discriminate].
    destruct (compare_int_float_value zc _ _ _ cmp HB Hcmp) as [Hle _].
    assert (Hne : cmp <> Gt) by (destruct cmp; [congruence|congruence|discriminate]).
    specialize (Hle Hne).
    destruct (Z.eq_dec zc 0) as [->|Hnz].
    + exists 0%float, 0%R. split; [reflexivity|].
      split; [rewrite Prim2SF_zero; constructor|].
      apply Rlt_le, bpow_gt_0.
    + destruct (float_of_int_below zc 4503599627370496 448 ltac:(lia) eq_refl Hle)
        as (f & x & Hf & Hx & Hxle).
      exists f, x. split; [|split; [exact Hx | rewrite <- HBv; exact Hxle]].
      intros t. cbn [py_truediv]. rewrite Hf. reflexivity.
  - exists fc.
    destruct (zero_le_float fc Hc0) as [Hinf|[x Hx]].
    + exfalso. unfold py_le, num_compare, compare_float in Hc. cbn [rbind] in Hc.
      rewrite FloatAxioms.compare_spec, Hinf in Hc. discriminate Hc.
    + exists x. split; [reflexivity|]. split; [exact Hx|].
      inversion Hx as [s Hs|m e Hb Hs]; subst x.
      * apply Rlt_le, bpow_gt_0.
      * unfold py_le, num_compare, compare_float in Hc. cbn [rbind] in Hc.
        rewrite FloatAxioms.compare_spec, <- Hs, HB in Hc.
        destruct (SFcompare (S754_finite false m e) (S754_finite false 4503599627370496 448))
          as [cmp|] eqn:Hcmp; [|discriminate].
        rewrite <- HBv.
        apply (SFcompare_pos_le m e 4503599627370496 448 cmp Hb eq_refl Hcmp).
        destruct cmp; [congruence|congruence|discriminate].
Qed.

(** The percentage of hours of ordinary size: completed hours from 0 to
    [2^500] against a total of at least [2^-500] hours. Nothing overflows. *)
Lemma percent_complete_ordinary c t :
  py_le (PInt 0) c = inr true -> py_le c (PFloat 0x1p500) = inr true ->
  py_le (PFloat 0x1p-500) (PFloat t) = inr true ->
  exists p, percent_complete c (PFloat t) = inr p /\ 0 <= p.
Proof.
  intros Hc0 Hc Ht.
  destruct (ordinary_hours c Hc0 Hc) as (fc & x & Hdiv & Hx & Hxle).
  assert (Hshape : Prim2SF t = S754_infinity false \/
                   exists mt et, Prim2SF t = S754_finite false mt et /\
                                 SpecFloat.bounded prec emax mt et = true /\
                                 (bpow (-500) <= F2R (Z.pos mt) et)%R).
  { unfold py_le, num_compare, compare_float in Ht. cbn [rbind] in Ht.
    rewrite FloatAxioms.compare_spec in Ht.
    change (Prim2SF 0x1p-500) with (S754_finite false 4503599627370496 (-552)) in Ht.
    destruct (Prim2SF t) as [s|[|]| |[|] mt et] eqn:Hs; try discriminate Ht.
    - left. reflexivity.
    - right. exists mt, et. split; [reflexivity|].
      pose proof (Prim2SF_valid t) as Hv. rewrite Hs in Hv.
      split; [exact Hv|].
      destruct (SFcompare (S754_finite false 4503599627370496 (-552))
                  (S754_finite false mt et)) as [cmp|] eqn:Hcmp; [|discriminate].
      replace (bpow (-500)) with (F2R 4503599627370496 (-552))
        by (rewrite F2R_pow2; reflexivity).
      apply (SFcompare_pos_le 4503599627370496 (-552) mt et cmp eq_refl Hv Hcmp).
      destruct cmp; [congruence|congruence|discriminate]. }
  assert (Hgt : py_gt (PFloat t) (PInt 0) = inr true).
  { unfold py_gt, num_compare, compare_int_float. cbn [rbind option_map].
    destruct Hshape as [->|(mt & et & -> & _)]; [reflexivity|].
    rewrite compare_zero_scaled. reflexivity. }
  unfold percent_complete. rewrite Hgt. cbn [rbind]. rewrite Hdiv.
  assert (Hq : exists y, float_div fc t = inr (fc / t)%float /\
                         nonneg_finite (Prim2SF (fc / t)) y /\ (y <= bpow 1000)%R).
  { destruct Hshape as [Hinf|(mt & et & Hs & Hbt & Hle)].
    - destruct (float_div_by_infinity fc x t Hx Hinf) as [Hd Hz].
      exists 0%R. split; [exact Hd|]. split; [exact Hz|]. apply Rlt_le, bpow_gt_0.
    - unfold float_div.
      rewrite FloatAxioms.eqb_spec, Hs, Prim2SF_zero. cbn [SFeqb SFcompare].
      rewrite FloatAxioms.div_spec, Hs.
      inversion Hx as [s Hz|m e Hb Hf]; subst x.
      + exists 0%R. split; [reflexivity|]. cbn [SF64div SFdiv].
        split; [constructor | apply Rlt_le, bpow_gt_0].
      + destruct (SFdiv_le_bound m e mt et 4503599627370496 948 eq_refl) as (y & Hy & Hyle).
        { rewrite F2R_pow2. change (948 + 52) with 1000.
          apply Rle_trans with (bpow 1000 * bpow (-500))%R.
          - rewrite <- bpow_add. exact Hxle.
          - apply Rmult_le_compat_l; [apply Rlt_le, bpow_gt_0 | exact Hle]. }
        exists y. split; [reflexivity|]. split; [exact Hy|].
        rewrite F2R_pow2 in Hyle. exact Hyle. }
  destruct Hq as (y & -> & Hy & Hyle). cbn [rbind].
  destruct (SFmul_hundred_bound _ y 4503599627370496 955 Hy eq_refl) as [z Hz].
  { rewrite F2R_pow2. change (955 + 52) with (1000 + 7).
    rewrite bpow_add. 
    assert (H7 : bpow 7 = 128%R) by (unfold bpow; simpl; lra).
    rewrite H7. pose proof (nonneg_finite_ge_0 _ _ Hy). nra. }
  apply (int_of_nonneg_float _ z).
  rewrite FloatAxioms.mul_spec, Prim2SF_hundred. exact Hz.
Qed.

(** ** Numbers as doubles *)

(** [float(z)] of a positive integer is a double next to it. *)
Lemma float_of_int_next_to z f : 0 < z -> float_of_int z = inr f -> next_to z f.
Proof.
  intros Hz Hf.
  destruct (float_of_int_above z f 1 (-1074) Hz Hf eq_refl (min_double_le_int z Hz))
    as (m & e & Hm & _ & _).
  exists m, e. split; [exact Hm|].
  intros mb eb Hb. split; intros Hle.
  - destruct (float_of_int_above z f mb eb Hz Hf Hb Hle) as (m' & e' & Hm' & _ & Hge).
    rewrite Hm in Hm'. injection Hm' as <- <-. exact Hge.
  - destruct (float_of_int_below z mb eb Hz Hb Hle) as (f' & x & Hf' & Hx & Hxle).
    assert (f' = f) by congruence. subst f'.
    rewrite Hm in Hx. inversion Hx; subst. exact Hxle.
Qed.

Lemma as_double_of_int z f : float_of_int z = inr f -> as_double (PInt z) f.
Proof.
  intros Hf. split; [exact Hf|]. split.
  - intros Hz. destruct (float_of_int_exact z Hz) as (f' & Hf' & Heq).
    assert (f' = f) by congruence. subst f'. exact Heq.
  - intros Hz. exact (float_of_int_next_to z f Hz Hf).
Qed.

(** What [float + number] adds. *)
Lemma py_add_float a c total :
  py_add (PFloat a) c = inr total ->
  exists fc, as_double c fc /\ total = PFloat (a + fc).
Proof.
  destruct c as [|z|f|s]; cbn [py_add]; intros H; try discriminate H.
  - destruct (float_of_int z) as [e|fz] eqn:Hz; [discriminate|].
    injection H as <-. exists fz. split; [exact (as_double_of_int z fz Hz) | reflexivity].
  - injection H as <-. exists f. split; reflexivity.
Qed.

Lemma py_float_as_double parse value f :
  py_float parse value = inr f ->
  match value with
  | PStr text => parse text = Some f
  | _ => as_double value f
  end.
Proof.
  destruct value as [|z|g|s]; cbn [py_float]; intros H; try discriminate H.
  - exact (as_double_of_int z f H).
  - injection H as <-. reflexivity.
  - destruct (parse s); [injection H as <-; reflexivity | discriminate].
Qed.

(** [vehicle_stats["total_hours"]] after the default. *)
Lemma vehicle_stats_total_hours stats value :
  getitem (vehicle_stats_or_default stats) "total_hours" = inr value ->
  match stats with
  | Some record =>
      if bool_decide (record = ∅) then value = PInt 0
      else record !! "total_hours" = Some value
  | None => value = PInt 0
  end.
Proof.
  unfold vehicle_stats_or_default, truthy. destruct stats as [record|].
  - destruct (bool_decide (record = ∅)); cbn [negb].
    + intros H. injection H as <-. reflexivity.
    + apply getitem_returns.
  - intros H. injection H as <-. reflexivity.
Qed.

Lemma py_gt_add_zero f :
  py_gt (PFloat (f + 0)) (PInt 0) = py_gt (PFloat f) (PInt 0).
Proof.
  unfold py_gt. cbn [num_compare].
  pose proof (num_compare_add_zero (PInt 0) f) as H. cbn [num_compare] in H.
  injection H as ->. reflexivity.
Qed.

(** * The claims

    One theorem for each claim about the metrics core, with an instance at
    the sample world where the theorem has hypotheses, and the inputs on
    which a claim fails as it is worded. *)

Import SQLite.

(** C1, for finite hours. For every finite total and every completed hours
    with [0 <= completed <= total] (integers or doubles, compared as Python
    compares them), the expression does not raise and its value is an integer
    between 0 and 100: when [total > 0], the floor of the double that
    [completed / total * 100] evaluates to, the quotient rounded first and
    the product by 100 rounded next; when [total == 0], exactly 0. *)
Theorem percent_complete_floor c t :
  finite_number t = true ->
  py_le (PInt 0) c = inr true ->
  py_le c t = inr true ->
  exists p,
    percent_complete c t = inr p /\ 0 <= p <= 100 /\
    (py_gt t (PInt 0) = inr true ->
     exists q, py_truediv c t = inr q /\ floor_of_float (q * 100) = Some p) /\
    (py_eq t (PInt 0) = true -> p = 0).
Proof.
  intros Hfin Hc0 Hct.
  destruct (percent_complete_spec c t Hfin Hc0 Hct) as (p & Hp & Hrange & Hpos & Hzero).
  exists p. repeat split; try assumption; try lia.
  intros Heq. apply Hzero, py_eq_zero_not_gt, Heq.
Qed.

(** 50 hours completed of 120. *)
Lemma percent_complete_floor_witness :
  exists p,
    percent_complete (PInt 50) (PFloat 120) = inr p /\ 0 <= p <= 100 /\
    (py_gt (PFloat 120) (PInt 0) = inr true ->
     exists q, py_truediv (PInt 50) (PFloat 120) = inr q /\
               floor_of_float (q * 100) = Some p) /\
    (py_eq (PFloat 120) (PInt 0) = true -> p = 0).
Proof.
  apply (percent_complete_floor (PInt 50) (PFloat 120)); vm_compute; reflexivity.
Defined.

(** C1 as it is worded fails twice. With 29 hours completed of 100, as
    integers or as doubles, the quotient is the double just below 0.29, its
    product by 100 is just below 29 and the result is 28, where
    [floor(29 / 100 * 100)] is 29. And with infinite hours, completed and
    total, the quotient is NaN and [int()] raises [ValueError]. *)
Lemma percent_complete_floor_counterexample :
  (py_le (PInt 0) (PInt 29) = inr true /\
   py_le (PInt 29) (PInt 100) = inr true /\
   percent_complete (PInt 29) (PInt 100) = inr 28 /\
   percent_complete (PFloat 29) (PFloat 100) = inr 28 /\
   exact_floor_percent 29 100 = 29) /\
  (py_le (PInt 0) (PFloat infinity) = inr true /\
   py_le (PFloat infinity) (PFloat infinity) = inr true /\
   py_gt (PFloat infinity) (PInt 0) = inr true /\
   percent_complete (PFloat infinity) (PFloat infinity) = inl ValueError).
Proof. repeat split; vm_compute; reflexivity. Qed.

(** C2, at the sample store: its one vehicle, in Installation with two work
    orders, is the only matched vehicle, and the entry's [vehicle_count] is
    2: [COUNT(v.id)] counts the rows of the join with the work orders
    ([vehicle_count_join_rows] says so for every store, and
    [vehicle_rows_distinct] when that is the number of distinct vehicles). *)
Lemma vehicle_count_counts_work_orders :
  distinct_matched_vehicles Sample.DATE Sample.store "2026-01-16" (Some "day")
    Sample.installation = 1 /\
  exists entry rest log',
    get_stage_breakdown Sample.world (Some "day") None [] = (inr (entry :: rest), log') /\
    entry !! "stage_name" = Some (PStr "Installation") /\
    entry !! "vehicle_count" = Some (PInt 2).
Proof.
  split; [vm_compute; reflexivity|].
  assert (Hname : entry_field (get_stage_breakdown Sample.world (Some "day") None [])
                    0 "stage_name" = Some (PStr "Installation"))
    by (vm_compute; reflexivity).
  assert (Hcount : entry_field (get_stage_breakdown Sample.world (Some "day") None [])
                     0 "vehicle_count" = Some (PInt 2))
    by (vm_compute; reflexivity).
  unfold entry_field, returned in Hname, Hcount.
  destruct (get_stage_breakdown Sample.world (Some "day") None [])
    as [[e|[|entry rest]] log']; try discriminate.
  exists entry, rest, log'. auto.
Qed.

(** C3, with the condition it needs. The [percent_complete] entry of
    every summary [calculate_shift_workload] returns, and of every entry
    [get_stage_breakdown] returns, is an integer: the value of the expression
    on the completed and total hours of that same summary. It is between 0
    and 100 whenever [0 <= completed_hours <= total_hours] in a workload
    summary, and whenever [hours_remaining] and [hours_completed] are both at
    least 0 in a stage entry. Nothing clamps it otherwise. *)
Theorem percent_complete_field_range W shift target_date log :
  (forall summary log',
     calculate_shift_workload W shift target_date log = (inr summary, log') ->
     exists completed total p,
       summary !! "completed_hours" = Some completed /\
       summary !! "total_hours" = Some total /\
       summary !! "percent_complete" = Some (PInt p) /\
       percent_complete completed total = inr p /\
       (py_le (PInt 0) completed = inr true -> py_le completed total = inr true ->
        0 <= p <= 100)) /\
  (forall rows log',
     get_stage_breakdown W shift target_date log = (inr rows, log') ->
     Forall
       (fun r => exists remaining completed total p,
          r !! "hours_remaining" = Some remaining /\
          r !! "hours_completed" = Some completed /\
          py_add remaining completed = inr total /\
          r !! "percent_complete" = Some (PInt p) /\
          percent_complete completed total = inr p /\
          (py_le (PInt 0) remaining = inr true -> py_le (PInt 0) completed = inr true ->
           0 <= p <= 100))
       rows).
Proof.
  split.
  - intros summary log' H.
    destruct (workload_returns _ _ _ _ _ _ H)
      as [? ? ? ? ? ? completed ? ? ? total p ? ? _ _ _ _ _ _ _ _ Hp _ _].
    exists completed, total, p.
    split; [reflexivity|]. split; [reflexivity|]. split; [reflexivity|].
    split; [exact Hp|].
    intros Hc0 Hct. exact (percent_complete_range completed total p Hc0 Hct Hp).
  - intros rows log' H. unfold get_stage_breakdown in H.
    apply bind_returns in H as (results & log1 & _ & H).
    apply lift_returns in H as [H _].
    apply mapM_returns in H.
    induction H as [|r r' results rows Hadd _ IH]; constructor; [|exact IH].
    apply add_percent_returns in Hadd
      as (remaining & completed & total & p & Hr & Hc & Ht & Hp & ->).
    exists remaining, completed, total, p.
    rewrite !lookup_insert_ne by discriminate. rewrite lookup_insert.
    split; [exact Hr|]. split; [exact Hc|]. split; [exact Ht|].
    split; [reflexivity|]. split; [exact Hp|].
    intros Hr0 Hc0. exact (stage_percent_range remaining completed total p Hr0 Hc0 Ht Hp).
Qed.

(** The entries of the sample store. *)
Lemma percent_complete_field_range_witness :
  exists rows log',
    get_stage_breakdown Sample.world (Some "day") None [] = (inr rows, log') /\
    Forall
      (fun r => exists remaining completed total p,
         r !! "hours_remaining" = Some remaining /\
         r !! "hours_completed" = Some completed /\
         py_add remaining completed = inr total /\
         r !! "percent_complete" = Some (PInt p) /\
         percent_complete completed total = inr p /\
         (py_le (PInt 0) remaining = inr true -> py_le (PInt 0) completed = inr true ->
          0 <= p <= 100))
      rows.
Proof.
  assert (Hok : length <$> returned (get_stage_breakdown Sample.world (Some "day") None [])
                = Some 2%nat) by (vm_compute; reflexivity).
  unfold returned in Hok.
  destruct (get_stage_breakdown Sample.world (Some "day") None [])
    as [[e|rows] log'] eqn:H; [discriminate Hok|].
  exists rows, log'. split; [reflexivity|].
  exact (proj2 (percent_complete_field_range Sample.world (Some "day") None []) rows log' H).
Defined.

(** C3 as it is worded fails: when the completed work orders took 20 hours
    and the vehicles of the shift were estimated at 10, the summary says 200
    percent. *)
Lemma percent_complete_exceeds_hundred :
  exists summary log',
    calculate_shift_workload Sample.world_overrun (Some "day") None []
      = (inr summary, log') /\
    summary !! "completed_hours" = Some (PFloat 20) /\
    summary !! "total_hours" = Some (PFloat 10) /\
    summary !! "percent_complete" = Some (PInt 200).
Proof.
  assert (H : summary_field
                (calculate_shift_workload Sample.world_overrun (Some "day") None [])
              <$> ["completed_hours"; "total_hours"; "percent_complete"]
              = [Some (PFloat 20); Some (PFloat 10); Some (PInt 200)])
    by (vm_compute; reflexivity).
  unfold summary_field, returned in H.
  destruct (calculate_shift_workload Sample.world_overrun (Some "day") None [])
    as [[e|summary] log']; [discriminate H|].
  injection H as H1 H2 H3. exists summary, log'. auto.
Qed.

(** C4, corrected. For every summary [calculate_shift_workload] returns,
    [total_hours] is the double [new_hours + c], [c] being the summary's
    [carryover_hours] as a double, and [new_hours] is the vehicle statistics'
    [total_hours] value as a double ([float(value)]), the value being 0 when
    the gateway gave no record. As a double, a float is itself and an
    integer from 0 to [2^53] is [==] to its double; a larger integer has only
    a double next to it, so that [new_hours] need not equal the value. *)
Theorem workload_total_hours W shift target_date log summary log' :
  let s := resolved_shift W shift in
  let d := resolved_date W target_date in
  calculate_shift_workload W shift target_date log = (inr summary, log') ->
  exists results value new_hours carryover total,
    sqlite_execute W vehicles_query [PStr s; PStr d] = inr results /\
    match head results with
    | Some record =>
        if bool_decide (record = ∅) then value = PInt 0
        else record !! "total_hours" = Some value
    | None => value = PInt 0
    end /\
    summary !! "new_hours" = Some (PFloat new_hours) /\
    summary !! "carryover_hours" = Some carryover /\
    summary !! "total_hours" = Some (PFloat total) /\
    match value with
    | PStr text => float_of_str W text = Some new_hours
    | _ => as_double value new_hours
    end /\
    exists c, as_double carryover c /\ total = (new_hours + c)%float.
Proof.
  intros s d H.
  destruct (workload_returns _ _ _ _ _ _ H)
    as [stats ? ? ? ? ? ? carryover value new_hours total ? ? ?
        Hq1 _ _ _ _ Hvalue Hfloat Hadd _ _ _].
  apply query_one_answer in Hq1 as (_ & _ & results & Hres & -> & _).
  destruct (py_add_float _ _ _ Hadd) as (c & Hc & ->).
  exists results, value, new_hours, carryover, (new_hours + c)%float.
  split; [exact Hres|].
  split; [exact (vehicle_stats_total_hours _ _ Hvalue)|].
  split; [reflexivity|]. split; [reflexivity|]. split; [reflexivity|].
  split; [exact (py_float_as_double _ _ _ Hfloat)|].
  exists c. auto.
Qed.

(** The sample shift: the gateway gives the integers 100 and 20, the
    summary says 100.0 new hours, 20 carried over and 120.0 in total. *)
Lemma workload_total_hours_witness :
  let W := Sample.world in
  exists summary log',
    calculate_shift_workload W None None [] = (inr summary, log') /\
    (summary !!.) <$> ["new_hours"; "carryover_hours"; "total_hours"]
    = [Some (PFloat 100); Some (PInt 20); Some (PFloat 120)] /\
    exists results value new_hours carryover total,
      sqlite_execute W vehicles_query
        [PStr (resolved_shift W None); PStr (resolved_date W None)] = inr results /\
      match head results with
      | Some record =>
          if bool_decide (record = ∅) then value = PInt 0
          else record !! "total_hours" = Some value
      | None => value = PInt 0
      end /\
      summary !! "new_hours" = Some (PFloat new_hours) /\
      summary !! "carryover_hours" = Some carryover /\
      summary !! "total_hours" = Some (PFloat total) /\
      match value with
      | PStr text => float_of_str W text = Some new_hours
      | _ => as_double value new_hours
      end /\
      exists c, as_double carryover c /\ total = (new_hours + c)%float.
Proof.
  intros W.
  assert (Hok : summary_field (calculate_shift_workload W None None [])
                <$> ["new_hours"; "carryover_hours"; "total_hours"]
                = [Some (PFloat 100); Some (PInt 20); Some (PFloat 120)])
    by (vm_compute; reflexivity).
  unfold summary_field, returned in Hok.
  destruct (calculate_shift_workload W None None []) as [[e|summary] log'] eqn:H;
    [discriminate Hok|].
  exists summary, log'. split; [reflexivity|]. split; [exact Hok|].
  exact (workload_total_hours W None None [] summary log' H).
Defined.

(** C4 as it is worded fails: when the gateway gives [2^53 + 1] estimated
    hours, an integer that is no double, [new_hours] is the double [2^53],
    which is not equal to the gateway's value. *)
Lemma workload_total_hours_counterexample :
  let W := Sample.world_odd_total in
  (exists record,
     sqlite_execute W vehicles_query [PStr "day"; PStr "2026-01-16"] = inr [record] /\
     record !! "total_hours" = Some (PInt 9007199254740993)) /\
  summary_field (calculate_shift_workload W None None []) "new_hours"
  = Some (PFloat 9007199254740992) /\
  py_eq (PFloat 9007199254740992) (PInt 9007199254740993) = false.
Proof.
  intros W. split; [|split].
  - eexists. split; [reflexivity|]. vm_compute. reflexivity.
  - vm_compute. reflexivity.
  - vm_compute. reflexivity.
Qed.

(** C5. For every hour of the day, the resolved shift is [day] exactly when
    [6 <= hour < 18] and [night] otherwise; hours 6 and 17 give [day], hours
    18, 23, 0 and 5 give [night]. *)
Theorem get_current_shift_rule W :
  let h := now_hour W in
  (get_current_shift W = "day" <-> 6 <= h < 18) /\
  (get_current_shift W = "night" <-> ~ (6 <= h < 18)) /\
  (h = 6 \/ h = 17 -> get_current_shift W = "day") /\
  (h = 18 \/ h = 23 \/ h = 0 \/ h = 5 -> get_current_shift W = "night").
Proof.
  intros h. unfold get_current_shift. fold h.
  destruct (6 <=? h) eqn:H6; destruct (h <? 18) eqn:H18; simpl;
    try apply Z.leb_le in H6; try apply Z.leb_gt in H6;
    try apply Z.ltb_lt in H18; try apply Z.ltb_ge in H18;
    repeat split; intros; try discriminate; try lia; try reflexivity.
Qed.



(** C7. Called without a shift, [get_stage_breakdown] hands NULL to the
    statement for both shift parameters; the ON condition then reads only the
    stage and the arrival date of a vehicle, so the outcome is the same
    whatever shifts the vehicles are assigned to and whatever the clock says:
    no filter on the shift, and no resolution of the current shift.
    [calculate_shift_workload] called without a shift does resolve it: its
    three statements and its summary carry [get_current_shift()]. *)
Theorem null_shift_is_no_filter
    DATE real_sum other db new_shift W W' target_date log :
  store_world DATE real_sum other db W ->
  store_world DATE real_sum other (reassign_shifts db new_shift) W' ->
  today W' = today W ->
  let d := resolved_date W target_date in
  (get_stage_breakdown W None target_date log).2
    = log ++ [(stage_query, [PStr d; PNone; PNone])] /\
  (forall ps v,
     SQLite.vehicle_on DATE (PStr d) PNone PNone ps v
     = bool_decide (SQLite.current_stage_id v = Some (SQLite.ps_id ps))
       && SQLite.text_eq (SQLite.arrival_time v ≫= DATE) (PStr d)) /\
  get_stage_breakdown W' None target_date log
    = get_stage_breakdown W None target_date log /\
  (forall summary log',
     calculate_shift_workload W None target_date log = (inr summary, log') ->
     summary !! "shift" = Some (PStr (get_current_shift W)) /\
     log' = log ++ [(vehicles_query, [PStr (get_current_shift W); PStr d]);
                    (completed_query, [PStr (get_current_shift W); PStr d]);
                    (carryover_query, [PStr d; PStr (get_current_shift W)])]).
Proof.
  intros HW HW' Htoday d.
  assert (Hd : resolved_date W' target_date = d).
  { unfold d, resolved_date. rewrite Htoday. reflexivity. }
  split; [|split; [|split]].
  - rewrite (get_stage_breakdown_store _ _ _ _ _ _ _ _ HW). reflexivity.
  - intros ps v. apply vehicle_on_null.
  - rewrite (get_stage_breakdown_store _ _ _ _ _ _ _ _ HW),
      (get_stage_breakdown_store _ _ _ _ _ _ _ _ HW'), Hd.
    simpl shift_param. rewrite stage_rows_null_shift. reflexivity.
  - intros summary log' Hrun.
    destruct HW as (Hex & Hconn & _).
    destruct (workload_returns _ _ _ _ _ _ Hrun)
      as [? ? ? log1 log2 log3 ? ? ? ? ? ? ? ? Hq1 Hq2 _ Hq3 _ _ _ _ _ _ _].
    split; [reflexivity|].
    apply (query_one_log _ _ _ _ _ _ Hex Hconn) in Hq1, Hq2, Hq3.
    subst log1 log2 log3. rewrite <- !app_assoc. reflexivity.
Qed.

(** The sample store with every vehicle moved to the night shift, at
    nine in the evening: without a shift the breakdown is the same; with the
    day shift it differs (Installation loses its vehicle). *)
Lemma null_shift_is_no_filter_witness :
  let W := Sample.world in
  let W' := Sample.world_on (reassign_shifts Sample.store (fun _ => Some "night")) 21 in
  (get_stage_breakdown W None None []).2
    = [(stage_query, [PStr (resolved_date W None); PNone; PNone])] /\
  get_stage_breakdown W' None None [] = get_stage_breakdown W None None [] /\
  entry_field (get_stage_breakdown W None None []) 0 "vehicle_count" = Some (PInt 2) /\
  entry_field (get_stage_breakdown W (Some "day") None []) 0 "vehicle_count"
    = Some (PInt 2) /\
  entry_field (get_stage_breakdown W' (Some "day") None []) 0 "vehicle_count"
    = Some (PInt 0).
Proof.
  intros W W'.
  destruct (null_shift_is_no_filter Sample.DATE Sample.real_sum Sample.mock
              Sample.store (fun _ => Some "night") W W' None []
              (sample_store_world _ _) (sample_store_world _ _) eq_refl)
    as (Hlog & _ & Hsame & _).
  split; [exact Hlog|]. split; [exact Hsame|].
  repeat split; vm_compute; reflexivity.
Defined.

(** C8, corrected. When the carryover statement finds no record for the
    date and the shift, every summary [calculate_shift_workload] returns has
    [carryover_hours] equal to the integer 0 and [total_hours] equal to
    [new_hours + 0.0], which [==] finds equal to [new_hours] (for every double
    but NaN). The absent record raises nothing: once the two statements
    before have returned and the vehicle statistics have their three entries,
    the call ends as the percentage ends, with the summary if it returns.
    It does return: with 0 percent when the new hours are not positive;
    between 0 and 100 percent when the new hours are finite and
    [0 <= completed_hours <= new_hours]; and, overrun or not, whenever the
    hours are of ordinary size, [0 <= completed_hours <= 2^500] and
    [new_hours >= 2^-500]. Beyond that the percentage can overflow and the
    call raise. *)
Theorem absent_carryover_is_zero W shift target_date :
  let s := resolved_shift W shift in
  let d := resolved_date W target_date in
  sqlite_execute W carryover_query [PStr d; PStr s] = inr [] ->
  (forall log summary log',
     calculate_shift_workload W shift target_date log = (inr summary, log') ->
     exists new_hours,
       summary !! "carryover_hours" = Some (PInt 0) /\
       summary !! "new_hours" = Some (PFloat new_hours) /\
       summary !! "total_hours" = Some (PFloat (new_hours + 0)) /\
       (Prim2SF new_hours <> S754_nan ->
        py_eq (PFloat (new_hours + 0)) (PFloat new_hours) = true)) /\
  (forall log stats log1 completed_stats log2 completed value new_hours
          vehicles_total vehicles_completed,
     query_one W vehicles_query [PStr s; PStr d] log = (inr stats, log1) ->
     query_one W completed_query [PStr s; PStr d] log1 = (inr completed_stats, log2) ->
     hours_or_zero completed_stats "completed_hours" = inr completed ->
     getitem (vehicle_stats_or_default stats) "total_hours" = inr value ->
     py_float (float_of_str W) value = inr new_hours ->
     getitem (vehicle_stats_or_default stats) "total_vehicles" = inr vehicles_total ->
     getitem (vehicle_stats_or_default stats) "completed_vehicles"
       = inr vehicles_completed ->
     let returns percent :=
       percent_complete completed (PFloat (new_hours + 0)) = inr percent /\
       calculate_shift_workload W shift target_date log
       = (inr (workload_summary s d new_hours (PInt 0) (PFloat (new_hours + 0)) completed
                 percent vehicles_total vehicles_completed),
          log2 ++ [(carryover_query, [PStr d; PStr s])]) in
     calculate_shift_workload W shift target_date log
     = (try percent <- percent_complete completed (PFloat (new_hours + 0));
        inr (workload_summary s d new_hours (PInt 0) (PFloat (new_hours + 0)) completed
               percent vehicles_total vehicles_completed),
        log2 ++ [(carryover_query, [PStr d; PStr s])]) /\
     (py_gt (PFloat new_hours) (PInt 0) = inr false -> returns 0) /\
     (is_finite_float new_hours = true ->
      py_le (PInt 0) completed = inr true ->
      py_le completed (PFloat new_hours) = inr true ->
      exists percent, returns percent /\ 0 <= percent <= 100) /\
     (py_le (PInt 0) completed = inr true ->
      py_le completed (PFloat 0x1p500) = inr true ->
      py_le (PFloat 0x1p-500) (PFloat new_hours) = inr true ->
      exists percent, returns percent /\ 0 <= percent)).
Proof.
  intros s d Hnone. split.
  - intros log summary log' H.
    destruct (workload_returns _ _ _ _ _ _ H)
      as [? ? carryover_stats ? ? ? ? carryover ? new_hours total ? ? ?
          _ _ _ Hq3 Hcarry _ _ Hadd _ _ _].
    apply query_one_answer in Hq3 as (_ & _ & results & Hres & -> & _).
    fold d s in Hres. rewrite Hnone in Hres. injection Hres as <-.
    cbn [head hours_or_zero] in Hcarry. injection Hcarry as <-.
    cbn in Hadd. injection Hadd as <-.
    exists new_hours.
    split; [reflexivity|]. split; [reflexivity|]. split; [reflexivity|].
    apply py_eq_add_zero.
  - intros log stats log1 completed_stats log2 completed value new_hours
      vehicles_total vehicles_completed Hq1 Hq2 Hc Hvalue Hfloat Hvt Hvc returns.
    assert (Hrun : calculate_shift_workload W shift target_date log
                   = (try percent <- percent_complete completed (PFloat (new_hours + 0));
                      inr (workload_summary s d new_hours (PInt 0) (PFloat (new_hours + 0))
                             completed percent vehicles_total vehicles_completed),
                      log2 ++ [(carryover_query, [PStr d; PStr s])])).
    { destruct (query_one_answer _ _ _ _ _ _ Hq2) as (Hex & Hconn & _).
      assert (Hq3 : query_one W carryover_query [PStr d; PStr s] log2
                    = (inr None, log2 ++ [(carryover_query, [PStr d; PStr s])])).
      { unfold query_one.
        rewrite (bind_continues _ _ log2 _ _
                   (eq_trans (query_df_executes W _ _ log2 Hex Hconn)
                             (f_equal (fun r => (r, _)) Hnone))).
        reflexivity. }
      unfold calculate_shift_workload.
      fold (resolved_shift W shift) (resolved_date W target_date). fold s d.
      rewrite (bind_continues _ _ _ _ _ Hq1).
      rewrite (bind_continues _ _ _ _ _ Hq2).
      rewrite Hc. unfold bind at 1, lift at 1.
      rewrite (bind_continues _ _ _ _ _ Hq3).
      cbn [hours_or_zero]. unfold bind at 1, lift at 1.
      rewrite Hvalue. unfold bind at 1, lift at 1.
      rewrite Hfloat. unfold bind at 1, lift at 1.
      cbn [py_add]. rewrite float_of_int_zero. cbn [rbind].
      unfold bind at 1, lift at 1.
      destruct (percent_complete completed (PFloat (new_hours + 0))) as [e|percent];
        [reflexivity|].
      unfold bind at 1, lift at 1. cbn [rbind].
      rewrite Hvt. unfold bind at 1, lift at 1.
      rewrite Hvc. unfold bind at 1, lift at 1.
      reflexivity. }
    assert (Hreturns : forall percent,
              percent_complete completed (PFloat (new_hours + 0)) = inr percent ->
              returns percent).
    { intros percent Hp. split; [exact Hp|]. rewrite Hrun, Hp. reflexivity. }
    split; [exact Hrun|]. split; [|split].
    + intros Hgt. apply Hreturns. unfold percent_complete.
      rewrite py_gt_add_zero, Hgt. reflexivity.
    + intros Hfin Hc0 Hct.
      destruct (percent_complete_spec completed (PFloat (new_hours + 0)))
        as (percent & Hp & Hrange & _).
      * cbn [finite_number]. rewrite is_finite_float_add_zero. exact Hfin.
      * exact Hc0.
      * unfold py_le. rewrite num_compare_add_zero. exact Hct.
      * exists percent. auto.
    + intros Hc0 Hcb Htb.
      destruct (percent_complete_ordinary completed (new_hours + 0) Hc0 Hcb)
        as (percent & Hp & Hpos).
      * unfold py_le. rewrite num_compare_add_zero. exact Htb.
      * exists percent. auto.
Qed.

(** The first shift of the sample day: 100 new hours, no carryover, 100 in
    total, 50 percent. And the overrun shift, 20 hours completed of 10,
    which returns as well. *)
Lemma absent_carryover_is_zero_witness :
  (let W := Sample.world_first_shift in
   sqlite_execute W carryover_query
     [PStr (resolved_date W None); PStr (resolved_shift W None)] = inr [] /\
   (summary_field (calculate_shift_workload W None None []) <$>
      ["new_hours"; "carryover_hours"; "total_hours"; "completed_hours";
       "percent_complete"])
   = [Some (PFloat 100); Some (PInt 0); Some (PFloat 100); Some (PFloat 50);
      Some (PInt 50)] /\
   exists summary log',
     calculate_shift_workload W None None [] = (inr summary, log') /\
     exists new_hours,
       summary !! "carryover_hours" = Some (PInt 0) /\
       summary !! "new_hours" = Some (PFloat new_hours) /\
       summary !! "total_hours" = Some (PFloat (new_hours + 0)) /\
       (Prim2SF new_hours <> S754_nan ->
        py_eq (PFloat (new_hours + 0)) (PFloat new_hours) = true)) /\
  (let W := Sample.world_overrun in
   exists percent,
     0 <= percent /\
     (calculate_shift_workload W None None []).1
     = inr (workload_summary "day" "2026-01-16" 10 (PInt 0) (PFloat (10 + 0)) (PFloat 20)
              percent (PInt 2) (PInt 2))).
Proof.
  split.
  - intros W.
    assert (Hnone : sqlite_execute W carryover_query
                      [PStr (resolved_date W None); PStr (resolved_shift W None)] = inr [])
      by (vm_compute; reflexivity).
    split; [exact Hnone|].
    split; [vm_compute; reflexivity|].
    assert (Hok : is_Some (size <$> returned (calculate_shift_workload W None None [])))
      by (vm_compute; eauto).
    unfold returned in Hok.
    destruct (calculate_shift_workload W None None []) as [[e|summary] log'] eqn:H.
    + destruct Hok as [n Hn]. discriminate Hn.
    + exists summary, log'. split; [reflexivity|].
      exact (proj1 (absent_carryover_is_zero W None None Hnone) [] summary log' H).
  - intros W.
    assert (Hnone : sqlite_execute W carryover_query
                      [PStr (resolved_date W None); PStr (resolved_shift W None)] = inr [])
      by (vm_compute; reflexivity).
    assert (Hex : path_exists W = true) by reflexivity.
    assert (Hconn : sqlite_connect W = None) by reflexivity.
    pose proof (query_one_executes W vehicles_query
                  [PStr (resolved_shift W None); PStr (resolved_date W None)] []
                  Hex Hconn) as H1.
    pose proof (query_one_executes W completed_query
                  [PStr (resolved_shift W None); PStr (resolved_date W None)]
                  ([] ++ [(vehicles_query,
                           [PStr (resolved_shift W None); PStr (resolved_date W None)])])
                  Hex Hconn) as H2.
    destruct (proj2 (absent_carryover_is_zero W None None Hnone) []
                (Some (list_to_map [("total_vehicles", PInt 2); ("total_hours", PFloat 10);
                                    ("completed_vehicles", PInt 2)]))
                _
                (Some (list_to_map [("completed_hours", PFloat 20)]))
                _ (PFloat 20) (PFloat 10) 10%float (PInt 2) (PInt 2)
                H1 H2 eq_refl eq_refl eq_refl eq_refl eq_refl)
      as (_ & _ & _ & Hordinary).
    destruct Hordinary as (percent & [_ Hrun] & Hpos); [reflexivity..|].
    exists percent. split; [exact Hpos|]. rewrite Hrun. reflexivity.
Defined.

(** C8 as it is worded fails: with one estimated hour and [2^1020]
    completed hours, and no shift summary, the percentage overflows and the
    call raises [OverflowError]; with infinite estimated and completed hours
    the quotient is NaN and the call raises [ValueError]. *)
Lemma absent_carryover_is_zero_counterexample :
  (let W := Sample.world_overflow in
   sqlite_execute W carryover_query [PStr "2026-01-16"; PStr "day"] = inr [] /\
   (calculate_shift_workload W None None []).1 = inl OverflowError) /\
  (let W := Sample.world_infinite in
   sqlite_execute W carryover_query [PStr "2026-01-16"; PStr "day"] = inr [] /\
   (calculate_shift_workload W None None []).1 = inl ValueError).
Proof. repeat split; vm_compute; reflexivity. Qed.

(** C9. A missing store makes the access layer raise [FileNotFoundError]
    before any statement is executed (the log is unchanged), and so do both
    calculators; and whichever of their statements the access layer fails
    on, with whatever exception, [calculate_shift_workload] and
    [get_stage_breakdown] end with that same exception and with the log as
    the failing call left it: nothing is executed after the failure, nothing
    is retried, no result is made up. *)
Theorem access_errors_propagate W shift target_date log e log' :
  let s := resolved_shift W shift in
  let d := resolved_date W target_date in
  (path_exists W = false ->
   forall sql params,
     query_df W sql params log
     = (inl (FileNotFoundError ("Database not found: " +:+ DATABASE_PATH W)), log) /\
     query_one W sql params log
     = (inl (FileNotFoundError ("Database not found: " +:+ DATABASE_PATH W)), log)) /\
  (path_exists W = false ->
   calculate_shift_workload W shift target_date log
   = (inl (FileNotFoundError ("Database not found: " +:+ DATABASE_PATH W)), log) /\
   get_stage_breakdown W shift target_date log
   = (inl (FileNotFoundError ("Database not found: " +:+ DATABASE_PATH W)), log)) /\
  (query_df W vehicles_query [PStr s; PStr d] log = (inl e, log') ->
   calculate_shift_workload W shift target_date log = (inl e, log')) /\
  (forall stats log1,
     query_one W vehicles_query [PStr s; PStr d] log = (inr stats, log1) ->
     query_df W completed_query [PStr s; PStr d] log1 = (inl e, log') ->
     calculate_shift_workload W shift target_date log = (inl e, log')) /\
  (forall stats log1 completed_stats log2 completed,
     query_one W vehicles_query [PStr s; PStr d] log = (inr stats, log1) ->
     query_one W completed_query [PStr s; PStr d] log1 = (inr completed_stats, log2) ->
     hours_or_zero completed_stats "completed_hours" = inr completed ->
     query_df W carryover_query [PStr d; PStr s] log2 = (inl e, log') ->
     calculate_shift_workload W shift target_date log = (inl e, log')) /\
  (query_df W stage_query
     [PStr d; shift_param shift; shift_param shift] log = (inl e, log') ->
   get_stage_breakdown W shift target_date log = (inl e, log')).
Proof.
  intros s d. repeat split.
  - apply query_df_missing_store. assumption.
  - apply query_one_raises, query_df_missing_store. assumption.
  - unfold calculate_shift_workload.
    apply bind_raises, query_one_raises, query_df_missing_store. assumption.
  - unfold get_stage_breakdown.
    apply bind_raises, query_df_missing_store. assumption.
  - intros H. unfold calculate_shift_workload. fold s. fold d.
    apply bind_raises, query_one_raises, H.
  - intros stats log1 H1 H2. unfold calculate_shift_workload.
    fold (resolved_shift W shift) (resolved_date W target_date). fold s d.
    rewrite (bind_continues _ _ _ _ _ H1).
    apply bind_raises, query_one_raises, H2.
  - intros stats log1 completed_stats log2 completed H1 H2 Hc H3.
    unfold calculate_shift_workload.
    fold (resolved_shift W shift) (resolved_date W target_date). fold s d.
    rewrite (bind_continues _ _ _ _ _ H1).
    rewrite (bind_continues _ _ _ _ _ H2).
    rewrite Hc. unfold bind at 1, lift at 1.
    apply bind_raises, query_one_raises, H3.
  - intros H. unfold get_stage_breakdown.
    fold (resolved_date W target_date). fold d.
    apply bind_raises, H.
Qed.

(** C10. For every statement and parameters, [query_one] returns the first
    element of the list [query_df] returns on the same arguments when that
    list is not empty, and [None], without raising, when it is empty. *)
Theorem query_one_first_or_none W sql params log results log' :
  query_df W sql params log = (inr results, log') ->
  (forall r rest, results = r :: rest ->
     query_one W sql params log = (inr (Some r), log')) /\
  (results = [] -> query_one W sql params log = (inr None, log')).
Proof.
  intros Hdf. unfold query_one.
  rewrite (bind_continues _ _ _ _ _ Hdf). unfold ret.
  split.
  - intros r rest ->. reflexivity.
  - intros ->. reflexivity.
Qed.

(** The carryover statement at the sample world. *)
Lemma query_one_first_or_none_witness :
  exists r rest log',
    query_df Sample.world carryover_query [PStr "2026-01-16"; PStr "day"] []
      = (inr (r :: rest), log') /\
    query_one Sample.world carryover_query [PStr "2026-01-16"; PStr "day"] []
      = (inr (Some r), log').
Proof.
  assert (Hrows : length <$> returned
            (query_df Sample.world carryover_query [PStr "2026-01-16"; PStr "day"] [])
          = Some 1%nat) by (vm_compute; reflexivity).
  unfold returned in Hrows.
  destruct (query_df Sample.world carryover_query [PStr "2026-01-16"; PStr "day"] [])
    as [[e|[|r rest]] log'] eqn:H; try discriminate Hrows.
  exists r, rest, log'. split; [reflexivity|].
  exact (proj1 (query_one_first_or_none _ _ _ _ _ _ H) _ _ eq_refl).
Defined.

(** * Further properties of the code *)

(** ** The connection *)

(** X1. [get_connection] opens no connection when the store is missing or
    [sqlite3.connect] fails, and the body is not run; otherwise the
    connection is opened read-only, the body runs, and the connection is
    closed after it whether the body returned or raised, the outcome of the
    body being the outcome of the block. So [query_df] leaves either the
    trace as it was, or exactly one connection opened, one statement and the
    connection closed, also when the statement fails; its outcome and the
    statement it executed are those of the plain model. *)
Theorem connection_closed_on_every_path W sql params tr log :
  (forall A (body : Traced.T A) tr0,
     (path_exists W = false \/ (exists e, sqlite_connect W = Some e) ->
      (Traced.get_connection W body tr0).2 = tr0 /\
      exists e, (Traced.get_connection W body tr0).1 = inl e) /\
     (path_exists W = true -> sqlite_connect W = None ->
      Traced.uri W = "file:" +:+ DATABASE_PATH W +:+ "?mode=ro" /\
      Traced.get_connection W body tr0
      = ((body (tr0 ++ [Traced.Connect (Traced.uri W)])).1,
         (body (tr0 ++ [Traced.Connect (Traced.uri W)])).2 ++ [Traced.Close]))) /\
  (Traced.query_df W sql params tr).1 = (query_df W sql params log).1 /\
  (((Traced.query_df W sql params tr).2 = tr /\
    (query_df W sql params log).2 = log /\
    exists e, (query_df W sql params log).1 = inl e) \/
   ((Traced.query_df W sql params tr).2
    = tr ++ [Traced.Connect (Traced.uri W); Traced.Execute sql params; Traced.Close] /\
    (query_df W sql params log).2 = log ++ [(sql, params)] /\
    (query_df W sql params log).1 = sqlite_execute W sql params)).
Proof.
  split; [|split].
  - intros A body tr0. unfold Traced.get_connection. split.
    + intros [Hmiss|[e He]].
      * rewrite Hmiss. simpl. eauto.
      * destruct (path_exists W); [rewrite He|]; simpl; eauto.
    + intros -> ->. split; [reflexivity|].
      unfold Traced.bind, Traced.emit, Traced.finally.
      destruct (body _) as [r tr']. reflexivity.
  - unfold Traced.query_df, Traced.get_connection, query_df, get_connection.
    destruct (path_exists W); [destruct (sqlite_connect W)|]; reflexivity.
  - unfold Traced.query_df, Traced.get_connection, query_df, get_connection.
    destruct (path_exists W); [destruct (sqlite_connect W) as [e|]|].
    + left. simpl. eauto.
    + right. unfold Traced.bind, Traced.emit, Traced.finally, Traced.execute, execute.
      simpl. rewrite <- !app_assoc. auto.
    + left. simpl. eauto.
Qed.

(** ** The statements a call executes *)

Lemma query_one_log_cases W sql params log r log' :
  query_one W sql params log = (r, log') ->
  (log' = log /\ exists e, r = inl e) \/ log' = log ++ [(sql, params)].
Proof.
  unfold query_one, query_df, get_connection, execute, bind, ret, raise.
  destruct (path_exists W); [destruct (sqlite_connect W)|].
  - intros H. injection H as <- <-. left. eauto.
  - destruct (sqlite_execute W sql params); intros H; injection H as <- <-; right; reflexivity.
  - intros H. injection H as <- <-. left. eauto.
Qed.

Lemma lift_bind_log {A B} (r : result A) (k : A -> M B) log :
  (forall a, (k a log).2 = log) -> (bind (lift r) k log).2 = log.
Proof. intros Hk. unfold bind, lift. destruct r; [reflexivity | apply Hk]. Qed.

(** X2. Whatever its outcome, [calculate_shift_workload] executes a prefix
    of its three statements, in their order and with the shift and the date
    as bound parameters (the carryover statement takes the date first); when
    it returns it has executed all three. [get_stage_breakdown] executes its
    one statement, or nothing when the store cannot be opened. *)
Theorem statements_executed W shift target_date log :
  let s := resolved_shift W shift in
  let d := resolved_date W target_date in
  let workload := [(vehicles_query, [PStr s; PStr d]);
                   (completed_query, [PStr s; PStr d]);
                   (carryover_query, [PStr d; PStr s])] in
  let stage := [(stage_query, [PStr d; shift_param shift; shift_param shift])] in
  (exists k, (k <= 3)%nat /\
     (calculate_shift_workload W shift target_date log).2 = log ++ take k workload /\
     (forall summary, (calculate_shift_workload W shift target_date log).1 = inr summary ->
        k = 3%nat)) /\
  (exists k, (k <= 1)%nat /\
     (get_stage_breakdown W shift target_date log).2 = log ++ take k stage /\
     (forall rows, (get_stage_breakdown W shift target_date log).1 = inr rows ->
        k = 1%nat)).
Proof.
  intros s d workload stage. split.
  - destruct (calculate_shift_workload W shift target_date log) as [r log'] eqn:Hrun.
    cbn [fst snd].
    unfold calculate_shift_workload in Hrun.
    fold (resolved_shift W shift) (resolved_date W target_date) in Hrun. fold s d in Hrun.
    unfold bind at 1 in Hrun.
    destruct (query_one W vehicles_query [PStr s; PStr d] log) as [[e|stats] log1] eqn:H1.
    { injection Hrun as <- <-.
      apply query_one_log_cases in H1 as [[-> _]| ->].
      - exists 0%nat. simpl. rewrite app_nil_r. split; [lia|]. split; [reflexivity|discriminate].
      - exists 1%nat. simpl. split; [lia|]. split; [reflexivity|discriminate]. }
    apply query_one_log_cases in H1 as [[_ [e He]]| ->]; [discriminate|].
    unfold bind at 1 in Hrun.
    destruct (query_one W completed_query [PStr s; PStr d] _) as [[e|cstats] log2] eqn:H2.
    { injection Hrun as <- <-.
      apply query_one_log_cases in H2 as [[-> _]| ->].
      - exists 1%nat. simpl. split; [lia|]. split; [reflexivity|discriminate].
      - exists 2%nat. simpl. rewrite <- app_assoc. split; [lia|].
        split; [reflexivity|discriminate]. }
    apply query_one_log_cases in H2 as [[_ [e He]]| ->]; [discriminate|].
    unfold bind at 1, lift at 1 in Hrun.
    destruct (hours_or_zero cstats "completed_hours") as [e|completed].
    { injection Hrun as <- <-.
      exists 2%nat. simpl. rewrite <- app_assoc. split; [lia|].
      split; [reflexivity|discriminate]. }
    unfold bind at 1 in Hrun.
    destruct (query_one W carryover_query [PStr d; PStr s] _) as [[e|ostats] log3] eqn:H3.
    { injection Hrun as <- <-.
      apply query_one_log_cases in H3 as [[-> _]| ->].
      - exists 2%nat. simpl. rewrite <- app_assoc. split; [lia|].
        split; [reflexivity|discriminate].
      - exists 3%nat. simpl. rewrite <- !app_assoc. split; [lia|].
        split; [reflexivity|discriminate]. }
    apply query_one_log_cases in H3 as [[_ [e He]]| ->]; [discriminate|].
    exists 3%nat. split; [lia|]. split; [|reflexivity].
    match type of Hrun with ?run = _ => assert (Hlog : run.2 = log') by (rewrite Hrun; reflexivity) end.
    rewrite <- Hlog. rewrite <- !app_assoc. simpl.
    repeat (apply lift_bind_log; intros ?). reflexivity.
  - destruct (get_stage_breakdown W shift target_date log) as [r log'] eqn:Hrun.
    cbn [fst snd].
    unfold get_stage_breakdown in Hrun.
    fold (resolved_date W target_date) in Hrun. fold d in Hrun.
    unfold bind, query_df, get_connection, execute, raise in Hrun.
    destruct (path_exists W); [destruct (sqlite_connect W)|].
    + injection Hrun as <- <-.
      exists 0%nat. simpl. rewrite app_nil_r. split; [lia|]. split; [reflexivity|discriminate].
    + exists 1%nat. split; [lia|]. split; [|reflexivity].
      destruct (sqlite_execute W _ _); injection Hrun as <- <-; reflexivity.
    + injection Hrun as <- <-.
      exists 0%nat. simpl. rewrite app_nil_r. split; [lia|]. split; [reflexivity|discriminate].
Qed.

(** ** Edges of the workload calculator *)

(** X3. A shift for which the three statements find no record at all
    gives the summary of an empty shift, without raising: no vehicles, 0.0
    new and total hours, the integer 0 for the carryover and the completed
    hours, and 0 percent (nothing is divided). *)
Theorem empty_shift_summary W shift target_date log :
  let s := resolved_shift W shift in
  let d := resolved_date W target_date in
  path_exists W = true -> sqlite_connect W = None ->
  sqlite_execute W vehicles_query [PStr s; PStr d] = inr [] ->
  sqlite_execute W completed_query [PStr s; PStr d] = inr [] ->
  sqlite_execute W carryover_query [PStr d; PStr s] = inr [] ->
  calculate_shift_workload W shift target_date log
  = (inr (workload_summary s d 0 (PInt 0) (PFloat 0) (PInt 0) 0 (PInt 0) (PInt 0)),
     log ++ [(vehicles_query, [PStr s; PStr d]);
             (completed_query, [PStr s; PStr d]);
             (carryover_query, [PStr d; PStr s])]).
Proof.
  intros s d Hex Hconn H1 H2 H3. unfold calculate_shift_workload.
  fold (resolved_shift W shift) (resolved_date W target_date). fold s d.
  unfold bind at 1. rewrite (query_one_executes _ _ _ _ Hex Hconn), H1. cbn [rbind head].
  unfold bind at 1. rewrite (query_one_executes _ _ _ _ Hex Hconn), H2. cbn [rbind head].
  cbn [hours_or_zero]. unfold bind at 1, lift at 1.
  unfold bind at 1. rewrite (query_one_executes _ _ _ _ Hex Hconn), H3. cbn [rbind head].
  rewrite <- !app_assoc. reflexivity.
Qed.

(** An engine that finds no record for any of the three statements. *)
Lemma empty_shift_summary_witness :
  let W := Sample.world_answering (fun _ _ => inr []) in
  calculate_shift_workload W (Some "day") None []
  = (inr (workload_summary "day" "2026-01-16" 0 (PInt 0) (PFloat 0) (PInt 0) 0
            (PInt 0) (PInt 0)),
     [(vehicles_query, [PStr "day"; PStr "2026-01-16"]);
      (completed_query, [PStr "day"; PStr "2026-01-16"]);
      (carryover_query, [PStr "2026-01-16"; PStr "day"])]).
Proof.
  intros W.
  exact (empty_shift_summary W (Some "day") None [] eq_refl eq_refl eq_refl eq_refl eq_refl).
Defined.

Lemma getitem_missing (d : row) key : d !! key = None -> getitem d key = inl (KeyError key).
Proof. unfold getitem. intros ->. reflexivity. Qed.

Lemma truthy_nonempty (d : row) : d <> ∅ -> truthy (Some d) = true.
Proof.
  intros Hne. unfold truthy. rewrite bool_decide_eq_false_2 by exact Hne. reflexivity.
Qed.

(** X4. A record that lacks its column raises [KeyError], at the place the
    code reads it: a completed-hours record without [completed_hours] stops
    the call before the carryover statement is executed; a vehicle record
    without [total_hours] is only found out after all three statements,
    where [new_hours] is computed. An empty record is not read at all: it
    counts as no record. *)
Theorem missing_column_raises_KeyError W shift target_date log :
  let s := resolved_shift W shift in
  let d := resolved_date W target_date in
  (forall stats log1 record log2,
     query_one W vehicles_query [PStr s; PStr d] log = (inr stats, log1) ->
     query_one W completed_query [PStr s; PStr d] log1 = (inr (Some record), log2) ->
     record <> ∅ -> record !! "completed_hours" = None ->
     calculate_shift_workload W shift target_date log
     = (inl (KeyError "completed_hours"), log2)) /\
  (forall record log1 completed_stats log2 completed carryover_stats log3 carryover,
     query_one W vehicles_query [PStr s; PStr d] log = (inr (Some record), log1) ->
     query_one W completed_query [PStr s; PStr d] log1 = (inr completed_stats, log2) ->
     hours_or_zero completed_stats "completed_hours" = inr completed ->
     query_one W carryover_query [PStr d; PStr s] log2 = (inr carryover_stats, log3) ->
     hours_or_zero carryover_stats "carryover_hours" = inr carryover ->
     record <> ∅ -> record !! "total_hours" = None ->
     calculate_shift_workload W shift target_date log
     = (inl (KeyError "total_hours"), log3)) /\
  (forall key, hours_or_zero (Some ∅) key = inr (PInt 0)) /\
  vehicle_stats_or_default (Some ∅) = no_vehicle_stats.
Proof.
  intros s d. split; [|split; [|split]].
  - intros stats log1 record log2 H1 H2 Hne Hmiss.
    unfold calculate_shift_workload.
    fold (resolved_shift W shift) (resolved_date W target_date). fold s d.
    rewrite (bind_continues _ _ _ _ _ H1), (bind_continues _ _ _ _ _ H2).
    unfold hours_or_zero. rewrite (truthy_nonempty _ Hne), (getitem_missing _ _ Hmiss).
    reflexivity.
  - intros record log1 completed_stats log2 completed carryover_stats log3 carryover
      H1 H2 Hc H3 Ho Hne Hmiss.
    unfold calculate_shift_workload.
    fold (resolved_shift W shift) (resolved_date W target_date). fold s d.
    rewrite (bind_continues _ _ _ _ _ H1), (bind_continues _ _ _ _ _ H2).
    rewrite Hc. unfold bind at 1, lift at 1.
    rewrite (bind_continues _ _ _ _ _ H3).
    rewrite Ho. unfold bind at 1, lift at 1.
    unfold vehicle_stats_or_default. rewrite (truthy_nonempty _ Hne).
    rewrite (getitem_missing _ _ Hmiss). reflexivity.
  - intros key. reflexivity.
  - reflexivity.
Qed.

(** A completed-hours record whose only column is [hours]. *)
Lemma missing_column_raises_KeyError_witness :
  let W := Sample.world_answering
             (Sample.answers {[ "total_vehicles" := PInt 3 ]}
                             {[ "hours" := PFloat 5 ]} []) in
  (calculate_shift_workload W (Some "day") None []).1 = inl (KeyError "completed_hours") /\
  length (calculate_shift_workload W (Some "day") None []).2 = 2%nat.
Proof.
  intros W.
  assert (Hex : path_exists W = true) by reflexivity.
  assert (Hconn : sqlite_connect W = None) by reflexivity.
  pose proof (query_one_executes W vehicles_query
                [PStr (resolved_shift W (Some "day")); PStr (resolved_date W None)] []
                Hex Hconn) as H1.
  pose proof (query_one_executes W completed_query
                [PStr (resolved_shift W (Some "day")); PStr (resolved_date W None)]
                ([] ++ [(vehicles_query,
                         [PStr (resolved_shift W (Some "day")); PStr (resolved_date W None)])])
                Hex Hconn) as H2.
  rewrite (proj1 (missing_column_raises_KeyError W (Some "day") None [])
             _ _ {[ "hours" := PFloat 5 ]} _ H1 H2).
  - split; reflexivity.
  - apply (insert_non_empty (M := gmap string)).
  - reflexivity.
Defined.

(** X5. Every summary [calculate_shift_workload] returns has the nine
    entries of the demo summary and no other; its [shift] and [date] are the
    resolved shift and the ISO date the statements were given; [new_hours]
    and [total_hours] are floats and [percent_complete] is an integer. *)
Theorem summary_shape W shift target_date log summary log' :
  calculate_shift_workload W shift target_date log = (inr summary, log') ->
  dom summary = dom (get_demo_data W) /\
  dom summary = list_to_set ["shift"; "date"; "new_hours"; "carryover_hours"; "total_hours";
                             "completed_hours"; "percent_complete"; "vehicles_total";
                             "vehicles_completed"] /\
  summary !! "shift" = Some (PStr (resolved_shift W shift)) /\
  summary !! "date" = Some (PStr (resolved_date W target_date)) /\
  exists new_hours total_hours percent,
    summary !! "new_hours" = Some (PFloat new_hours) /\
    summary !! "total_hours" = Some (PFloat total_hours) /\
    summary !! "percent_complete" = Some (PInt percent).
Proof.
  intros H.
  destruct (workload_returns _ _ _ _ _ _ H)
    as [? ? ? ? ? ? ? carryover ? new_hours total percent ? ?
        _ _ _ _ _ _ _ Hadd _ _ _].
  assert (Hdom : dom (workload_summary (resolved_shift W shift) (resolved_date W target_date)
                        new_hours carryover total completed percent vehicles_total
                        vehicles_completed)
                 = list_to_set ["shift"; "date"; "new_hours"; "carryover_hours";
                                "total_hours"; "completed_hours"; "percent_complete";
                                "vehicles_total"; "vehicles_completed"] :> gset string).
  { unfold workload_summary. cbn [list_to_map foldr list_to_set].
    rewrite !dom_insert_L, dom_empty_L. reflexivity. }
  split; [|split; [exact Hdom|]].
  - rewrite Hdom. unfold get_demo_data. cbn [list_to_map foldr list_to_set].
    rewrite !dom_insert_L, dom_empty_L. reflexivity.
  - split; [reflexivity|]. split; [reflexivity|].
    assert (Ht : exists t, total = PFloat t).
    { destruct carryover; cbn in Hadd; try discriminate Hadd.
      - destruct (float_of_int z); cbn in Hadd; [discriminate|].
        injection Hadd as <-. eauto.
      - injection Hadd as <-. eauto. }
    destruct Ht as [t ->].
    exists new_hours, t, percent. repeat split; reflexivity.
Qed.

(** The summary of the sample world. *)
Lemma summary_shape_witness :
  exists summary log',
    calculate_shift_workload Sample.world None None [] = (inr summary, log') /\
    dom summary = dom (get_demo_data Sample.world) /\
    summary !! "shift" = Some (PStr "day") /\
    summary !! "date" = Some (PStr "2026-01-16").
Proof.
  assert (Hok : is_Some (size <$> returned (calculate_shift_workload Sample.world None None [])))
    by (vm_compute; eauto).
  unfold returned in Hok.
  destruct (calculate_shift_workload Sample.world None None [])
    as [[e|summary] log'] eqn:H.
  - destruct Hok as [n Hn]. discriminate Hn.
  - exists summary, log'. split; [reflexivity|].
    destruct (summary_shape Sample.world None None [] summary log' H)
      as (Hdom & _ & Hshift & Hdate & _).
    auto.
Defined.

(** ** The loop of the stage calculator *)

Lemma mapM_raises {A B} (f : A -> result B) (l : list A) x :
  x ∈ l -> (exists e, f x = inl e) -> exists e, mapM f l = inl e.
Proof.
  intros Hin [e He]. induction l as [|y l IH]; [inversion Hin|].
  apply elem_of_cons in Hin as [->|Hin]; simpl.
  - rewrite He. simpl. eauto.
  - destruct (f y) as [e'|b]; simpl; [eauto|].
    destruct (IH Hin) as [e' ->]. simpl. eauto.
Qed.

(** X6. [get_stage_breakdown] returns the records of its statement, as
    many and in the same order, each with its [percent_complete] entry set
    to an integer and every other entry as the statement gave it; no record
    gives the empty list; and a single record without [hours_remaining] or
    [hours_completed] makes the whole call raise, no shorter list is
    returned. In every case the one statement has been executed. *)
Theorem stage_loop_keeps_records W shift target_date log results log' :
  let d := resolved_date W target_date in
  query_df W stage_query [PStr d; shift_param shift; shift_param shift] log
    = (inr results, log') ->
  (get_stage_breakdown W shift target_date log).2 = log' /\
  (forall rows,
     (get_stage_breakdown W shift target_date log).1 = inr rows ->
     Forall2
       (fun r0 r =>
          (forall key, key <> "percent_complete" -> r !! key = r0 !! key) /\
          exists p, r !! "percent_complete" = Some (PInt p))
       results rows) /\
  (results = [] -> (get_stage_breakdown W shift target_date log).1 = inr []) /\
  (forall r0, r0 ∈ results ->
     r0 !! "hours_remaining" = None \/ r0 !! "hours_completed" = None ->
     exists e, (get_stage_breakdown W shift target_date log).1 = inl e).
Proof.
  intros d Hdf.
  assert (Hrun : get_stage_breakdown W shift target_date log
                 = (mapM add_percent results, log')).
  { unfold get_stage_breakdown. fold (resolved_date W target_date). fold d.
    rewrite (bind_continues _ _ _ _ _ Hdf). reflexivity. }
  rewrite Hrun. cbn [fst snd].
  split; [reflexivity|]. split; [|split].
  - intros rows Hrows. apply mapM_returns in Hrows.
    eapply Forall2_impl; [exact Hrows|].
    intros r0 r Hadd. cbn beta in Hadd.
    apply add_percent_returns in Hadd as (? & ? & ? & p & _ & _ & _ & _ & ->).
    split.
    + intros key Hkey. apply lookup_insert_ne. congruence.
    + exists p. apply lookup_insert_eq.
  - intros ->. reflexivity.
  - intros r0 Hin Hmiss. apply (mapM_raises _ _ r0 Hin).
    unfold add_percent. destruct Hmiss as [Hmiss|Hmiss].
    + rewrite (getitem_missing _ _ Hmiss). simpl. eauto.
    + destruct (getitem r0 "hours_remaining"); simpl; [eauto|].
      rewrite (getitem_missing _ _ Hmiss). simpl. eauto.
Qed.

(** The two records the statement gives over the sample store. *)
Lemma stage_loop_keeps_records_witness :
  let W := Sample.world in
  exists results log',
    query_df W stage_query [PStr (resolved_date W None); PStr "day"; PStr "day"] []
      = (inr results, log') /\
    length results = 2%nat /\
    (get_stage_breakdown W (Some "day") None []).2 = log' /\
    forall rows,
      (get_stage_breakdown W (Some "day") None []).1 = inr rows ->
      Forall2
        (fun r0 r =>
           (forall key, key <> "percent_complete" -> r !! key = r0 !! key) /\
           exists p, r !! "percent_complete" = Some (PInt p))
        results rows.
Proof.
  intros W.
  assert (Hok : length <$> returned
            (query_df W stage_query [PStr (resolved_date W None); PStr "day"; PStr "day"] [])
          = Some 2%nat) by (vm_compute; reflexivity).
  unfold returned in Hok.
  destruct (query_df W stage_query [PStr (resolved_date W None); PStr "day"; PStr "day"] [])
    as [[e|results] log'] eqn:H; [discriminate Hok|].
  injection Hok as Hlen.
  exists results, log'. split; [reflexivity|]. split; [exact Hlen|].
  destruct (stage_loop_keeps_records W (Some "day") None [] results log' H)
    as (Hlog & Hrows & _).
  split; [exact Hlog | exact Hrows].
Defined.

(** ** A date without vehicles *)




(** ** The vehicle count *)

(** X8. With a catalog without repeated stages, the [vehicle_count] of
    every entry is the number of rows the stage has in the join with the
    work orders, one for each work order of a matched vehicle and one for a
    matched vehicle without work orders. It is never below the number of
    distinct matched vehicles, and equal to it when the matched vehicles have
    distinct ids and at most one work order each. *)
Theorem vehicle_count_is_join_rows
    DATE real_sum other db W shift target_date log rows log' :
  let d := resolved_date W target_date in
  let matched ps :=
    filter (fun v => vehicle_on DATE (PStr d) (shift_param shift) (shift_param shift) ps v
                     = true) (vehicles db) in
  store_world DATE real_sum other db W ->
  NoDup (production_stages db) ->
  get_stage_breakdown W shift target_date log = (inr rows, log') ->
  exists stages,
    stages ≡ₚ production_stages db /\
    Forall2
      (fun ps r =>
         exists count,
           r !! "stage_name" = Some (PStr (stage_name ps)) /\
           r !! "vehicle_count" = Some (PInt count) /\
           count = Z.of_nat (sum_list ((fun v => Nat.max 1 (length (work_orders_of db v)))
                                         <$> matched ps)) /\
           distinct_matched_vehicles DATE db d shift ps <= count /\
           (NoDup (v_id <$> matched ps) ->
            Forall (fun v => (length (work_orders_of db v) <= 1)%nat) (matched ps) ->
            count = distinct_matched_vehicles DATE db d shift ps))
      stages rows.
Proof.
  intros d matched HW Hnd Hrun.
  destruct (vehicle_count_join_rows _ _ _ _ _ _ _ _ _ _ HW Hnd Hrun)
    as (stages & Hperm & Hall).
  exists stages. split; [exact Hperm|].
  eapply Forall2_impl; [exact Hall|].
  intros ps r [Hname Hcount]. cbn beta in Hname, Hcount.
  destruct (vehicle_rows_distinct DATE db d shift ps) as [Hle Heq].
  eexists. split; [exact Hname|]. split; [exact Hcount|].
  split; [reflexivity|]. split; [exact Hle|].
  intros Hids Hone. symmetry. apply Heq; assumption.
Qed.

(** The sample store, whose catalog has two stages. *)
Lemma vehicle_count_is_join_rows_witness :
  let W := Sample.world in
  exists rows log' stages,
    get_stage_breakdown W (Some "day") None [] = (inr rows, log') /\
    stages ≡ₚ production_stages Sample.store /\
    Forall2
      (fun ps r =>
         exists count,
           r !! "stage_name" = Some (PStr (stage_name ps)) /\
           r !! "vehicle_count" = Some (PInt count) /\
           distinct_matched_vehicles Sample.DATE Sample.store (resolved_date W None)
             (Some "day") ps <= count)
      stages rows.
Proof.
  intros W.
  assert (Hnd : NoDup (production_stages Sample.store)).
  { apply (bool_decide_unpack _). vm_compute. exact I. }
  assert (Hok : length <$> returned (get_stage_breakdown W (Some "day") None [])
                = Some 2%nat) by (vm_compute; reflexivity).
  unfold returned in Hok.
  destruct (get_stage_breakdown W (Some "day") None []) as [[e|rows] log'] eqn:H;
    [discriminate Hok|].
  destruct (vehicle_count_is_join_rows _ _ _ _ _ _ _ _ _ _
              (sample_store_world Sample.store 9) Hnd H) as (stages & Hperm & Hall).
  exists rows, log', stages. split; [reflexivity|]. split; [exact Hperm|].
  eapply Forall2_impl; [exact Hall|].
  intros ps r (count & Hname & Hcount & _ & Hle & _). eauto.
Defined.

(** ** The data of the dashboard *)

Lemma get_stage_breakdown_of_shift W shift target_date :
  get_stage_breakdown_of W (shift_param shift) target_date
  = get_stage_breakdown W shift target_date.
Proof. reflexivity. Qed.

Lemma load_data_unfold W log :
  App.load_data W log
  = match calculate_shift_workload W None None log with
    | (inl _, log1) => (inr (get_demo_data W, get_demo_stages), log1)
    | (inr shift_data, log1) =>
        match getitem shift_data "shift" with
        | inl _ => (inr (get_demo_data W, get_demo_stages), log1)
        | inr shift =>
            match get_stage_breakdown_of W shift None log1 with
            | (inl _, log2) => (inr (get_demo_data W, get_demo_stages), log2)
            | (inr stage_data, log2) => (inr (shift_data, stage_data), log2)
            end
        end
    end.
Proof.
  unfold App.load_data, App.except_Exception, bind, lift, ret.
  destruct (calculate_shift_workload W None None log) as [[e|shift_data] log1];
    [reflexivity|].
  destruct (getitem shift_data "shift") as [e|shift]; [reflexivity|].
  destruct (get_stage_breakdown_of W shift None log1) as [[e|stage_data] log2];
    reflexivity.
Qed.

(** X9. [load_data] never raises and never mixes: it returns either the
    summary [calculate_shift_workload()] computed together with the stages
    [get_stage_breakdown] computed for that summary's shift (the shift the
    clock resolves to, never all shifts) and today, or, as soon as one of the
    two calls raises, the demo summary together with the demo stages. *)
Theorem load_data_live_or_demo W log :
  let s := get_current_shift W in
  (exists shift_data stage_data log1 log2,
     calculate_shift_workload W None None log = (inr shift_data, log1) /\
     get_stage_breakdown W (Some s) None log1 = (inr stage_data, log2) /\
     App.load_data W log = (inr (shift_data, stage_data), log2)) \/
  (exists log',
     App.load_data W log = (inr (get_demo_data W, get_demo_stages), log') /\
     ((exists e, calculate_shift_workload W None None log = (inl e, log')) \/
      (exists shift_data log1 e,
         calculate_shift_workload W None None log = (inr shift_data, log1) /\
         get_stage_breakdown W (Some s) None log1 = (inl e, log')))).
Proof.
  intros s. rewrite load_data_unfold.
  destruct (calculate_shift_workload W None None log) as [[e|shift_data] log1] eqn:Hcalc.
  { right. exists log1. split; [reflexivity|]. left. eauto. }
  assert (Hshift : getitem shift_data "shift" = inr (PStr s)).
  { destruct (workload_returns _ _ _ _ _ _ Hcalc). reflexivity. }
  rewrite Hshift.
  change (get_stage_breakdown_of W (PStr s) None)
    with (get_stage_breakdown W (Some s) None).
  destruct (get_stage_breakdown W (Some s) None log1) as [[e|stage_data] log2] eqn:Hstage.
  - right. exists log2. split; [reflexivity|]. right. eauto 6.
  - left. exists shift_data, stage_data, log1, log2. auto.
Qed.

Lemma workload_summary_dom W s d new_hours carryover total completed percent vt vc :
  dom (workload_summary s d new_hours carryover total completed percent vt vc)
  = dom (get_demo_data W).
Proof.
  unfold workload_summary, get_demo_data. cbn [list_to_map foldr].
  rewrite !dom_insert_L. reflexivity.
Qed.

(** X10. Whatever [load_data] returns, the summary has the nine entries
    the dashboard reads and its [percent_complete] is an integer, so that
    [get_progress_class] returns a class for it, without raising:
    [progress-good] from 60 up, [progress-warning] from 40 to 59,
    [progress-behind] below 40. *)
Theorem progress_class_of_loaded_data W log shift_data stage_data log' :
  App.load_data W log = (inr (shift_data, stage_data), log') ->
  dom shift_data = dom (get_demo_data W) /\
  exists p,
    shift_data !! "percent_complete" = Some (PInt p) /\
    App.get_progress_class (PInt p)
    = inr (if 60 <=? p then "progress-good"
           else if 40 <=? p then "progress-warning" else "progress-behind").
Proof.
  intros Hload.
  assert (Hclass : forall p,
            App.get_progress_class (PInt p)
            = inr (if 60 <=? p then "progress-good"
                   else if 40 <=? p then "progress-warning" else "progress-behind")).
  { intros p. unfold App.get_progress_class, py_ge, num_compare. cbn [rbind].
    destruct (Z.compare_spec p 60), (Z.compare_spec p 40);
      repeat match goal with
      | |- context [?a <=? ?b] => destruct (Z.leb_spec a b)
      end; try reflexivity; lia. }
  rewrite load_data_unfold in Hload.
  destruct (calculate_shift_workload W None None log) as [[e|sd] log1] eqn:Hcalc.
  { injection Hload as <- <- <-.
    split; [reflexivity|]. exists 65. split; [reflexivity | apply Hclass]. }
  destruct (workload_returns _ _ _ _ _ _ Hcalc)
    as [? ? ? ? ? ? ? ? ? ? ? percent ? ? _ _ _ _ _ _ _ _ _ _ _].
  match type of Hload with
  | context [getitem ?m "shift"] =>
      assert (Hs : getitem m "shift" = inr (PStr (resolved_shift W None))) by reflexivity;
      rewrite Hs in Hload
  end.
  match type of Hload with
  | context [get_stage_breakdown_of ?w ?v ?t ?l] =>
      destruct (get_stage_breakdown_of w v t l) as [[e|st] logs]
  end; injection Hload as <- <- <-.
  - split; [reflexivity|]. exists 65. split; [reflexivity | apply Hclass].
  - split; [apply workload_summary_dom|].
    exists percent. split; [reflexivity | apply Hclass].
Qed.

(** What [load_data] returns in the sample world. *)
Lemma progress_class_of_loaded_data_witness :
  let W := Sample.world in
  exists shift_data stage_data log',
    App.load_data W [] = (inr (shift_data, stage_data), log') /\
    dom shift_data = dom (get_demo_data W) /\
    exists p,
      shift_data !! "percent_complete" = Some (PInt p) /\
      App.get_progress_class (PInt p)
      = inr (if 60 <=? p then "progress-good"
             else if 40 <=? p then "progress-warning" else "progress-behind").
Proof.
  intros W.
  assert (Hok : is_Some (returned (App.load_data W []) ≫= fun _ => Some tt))
    by (vm_compute; eauto).
  unfold returned in Hok.
  destruct (App.load_data W []) as [[e|[shift_data stage_data]] log'] eqn:H.
  - destruct Hok as [n Hn]. discriminate Hn.
  - exists shift_data, stage_data, log'. split; [reflexivity|].
    exact (progress_class_of_loaded_data W [] shift_data stage_data log' H).
Defined.

(** ** The demo data *)

(** X11. The demo data obeys the rules of the computed data: the demo
    summary carries the shift the clock resolves to and today's ISO date, its
    total hours are its new hours plus its carryover and its percentage is
    the value of the percentage expression on its completed and total hours;
    the demo stages come by [stage_order], and the loop of
    [get_stage_breakdown] applied to them would give every stage the
    percentage it already has. *)
Theorem demo_data_consistent W :
  let demo := get_demo_data W in
  demo !! "shift" = Some (PStr (get_current_shift W)) /\
  demo !! "date" = Some (PStr (isoformat (today W))) /\
  (exists new_hours carryover total completed percent,
     demo !! "new_hours" = Some new_hours /\
     demo !! "carryover_hours" = Some carryover /\
     demo !! "total_hours" = Some total /\
     demo !! "completed_hours" = Some completed /\
     demo !! "percent_complete" = Some (PInt percent) /\
     py_add new_hours carryover = inr total /\
     percent_complete completed total = inr percent) /\
  Forall
    (fun stage => exists remaining completed total percent,
       stage !! "hours_remaining" = Some remaining /\
       stage !! "hours_completed" = Some completed /\
       stage !! "percent_complete" = Some (PInt percent) /\
       py_add remaining completed = inr total /\
       percent_complete completed total = inr percent /\
       add_percent stage = inr stage)
    get_demo_stages /\
  (get_demo_stages ≫= fun stage => option_list (stage !! "stage_order"))
  = [PInt 1; PInt 2; PInt 3; PInt 4].
Proof.
  intros demo. split; [reflexivity|]. split; [reflexivity|]. split; [|split].
  - exists (PFloat 126), (PFloat 6), (PFloat 132), (PFloat 87), 65.
    repeat split; reflexivity.
  - assert (Hstage : forall name order count remaining completed percent total,
              py_add (PFloat remaining) (PFloat completed) = inr total ->
              percent_complete (PFloat completed) total = inr percent ->
              exists r c t p,
                demo_stage name order count remaining completed percent
                  !! "hours_remaining" = Some r /\
                demo_stage name order count remaining completed percent
                  !! "hours_completed" = Some c /\
                demo_stage name order count remaining completed percent
                  !! "percent_complete" = Some (PInt p) /\
                py_add r c = inr t /\ percent_complete c t = inr p /\
                add_percent (demo_stage name order count remaining completed percent)
                = inr (demo_stage name order count remaining completed percent)).
    { intros name order count remaining completed percent total Hadd Hp.
      exists (PFloat remaining), (PFloat completed), total, percent.
      split; [reflexivity|]. split; [reflexivity|]. split; [reflexivity|].
      split; [exact Hadd|]. split; [exact Hp|].
      unfold add_percent.
      change (getitem (demo_stage name order count remaining completed percent)
                "hours_remaining") with (@inr exn pyval (PFloat remaining)).
      change (getitem (demo_stage name order count remaining completed percent)
                "hours_completed") with (@inr exn pyval (PFloat completed)).
      cbn [rbind]. rewrite Hadd. cbn [rbind]. rewrite Hp. cbn [rbind].
      f_equal; try (apply insert_id; reflexivity). }
    unfold get_demo_stages.
    repeat apply Forall_cons_2; [| | | |apply Forall_nil_2].
    + apply (Hstage "Installation" 1 12 18.5%float 42%float 69 (PFloat 60.5)); reflexivity.
    + apply (Hstage "PPO" 2 8 12%float 24%float 66 (PFloat 36)); reflexivity.
    + apply (Hstage "Shuttle" 3 6 3%float 9%float 75 (PFloat 12)); reflexivity.
    + apply (Hstage "FQA" 4 10 8%float 12%float 60 (PFloat 20)); reflexivity.
  - reflexivity.
Qed.

(** ** Work that is complete *)

(** The quotient of two positive dyadic numbers, the first not below the
    second, is at least 1. *)
Lemma SFdiv_ge_one m1 e1 m2 e2 :
  (F2R (Z.pos m2) e2 <= F2R (Z.pos m1) e1)%R ->
  at_least (SF64div (S754_finite false m1 e1) (S754_finite false m2 e2)) 1.
Proof.
  intros Hle. unfold SF64div, SFdiv.
  pose proof (SFdiv_core_binary_spec (Z.pos m1) e1 (Z.pos m2) e2 ltac:(lia) ltac:(lia))
    as Hcore.
  destruct (SFdiv_core_binary prec emax (Z.pos m1) e1 (Z.pos m2) e2) as [[q e] l].
  destruct Hcore as [Hloc Hex].
  assert (Hq : (F2R 4503599627370496 (-52) <= F2R (Z.pos m1) e1 / F2R (Z.pos m2) e2)%R).
  { rewrite F2R_one.
    pose proof (F2R_pos (Z.pos m2) e2 ltac:(lia)) as Hp.
    apply (Rmult_le_reg_r (F2R (Z.pos m2) e2)); [exact Hp|].
    unfold Rdiv. rewrite Rmult_assoc, Rinv_l by lra. lra. }
  destruct (binary_round_aux_lower (xorb false false) _ _ _ _ 4503599627370496%positive (-52)
              Hloc Hex eq_refl Hq) as [Hinf|(m & e' & Hr & Hb & Hle')].
  - left. exact Hinf.
  - right. exists m, e'. rewrite F2R_one in Hle'. auto.
Qed.

Lemma float_div_ge_one c t mt et :
  at_least (Prim2SF c) (F2R (Z.pos mt) et) ->
  Prim2SF t = S754_finite false mt et ->
  float_div c t = inr (c / t)%float /\ at_least (Prim2SF (c / t)) 1.
Proof.
  intros Hc Ht. unfold float_div.
  rewrite FloatAxioms.eqb_spec, Ht, Prim2SF_zero. cbn [SFeqb SFcompare].
  split; [reflexivity|].
  rewrite FloatAxioms.div_spec, Ht.
  destruct Hc as [->|(m & e & -> & _ & Hle)].
  - left. reflexivity.
  - apply SFdiv_ge_one, Hle.
Qed.

(** At least 1, times the double 100, is at least 100. *)
Lemma SFmul_hundred_ge f :
  at_least f 1 -> at_least (SF64mul f (S754_finite false 7036874417766400 (-46))) 100.
Proof.
  intros [->|(m & e & -> & Hb & Hx)].
  - left. reflexivity.
  - unfold SF64mul, SFmul.
    assert (Hval : F2R (Z.pos (m * 7036874417766400)) (e + -46)
                   = (F2R (Z.pos m) e * 100)%R).
    { rewrite <- F2R_hundred. unfold F2R.
      rewrite Pos2Z.inj_mul, mult_IZR, bpow_add. ring. }
    assert (Hloc : located (shr_record_of_loc (Z.pos (m * 7036874417766400)) loc_Exact)
                     (e + -46) (F2R (Z.pos m) e * 100)%R).
    { rewrite <- Hval. apply located_of_loc_exact. lia. }
    assert (Hex : e + -46 <= fexp64 (Zdigits2 (Z.pos (m * 7036874417766400)) + (e + -46))).
    { apply bounded_spec in Hb as [Hcan _].
      pose proof (Zdigits2_mul_ge (Z.pos m) 7036874417766400 ltac:(lia) ltac:(lia)) as Hd.
      change (Zdigits2 7036874417766400) with 53 in Hd.
      rewrite <- Pos2Z.inj_mul in Hd.
      pose proof (Zdigits2_pos (Z.pos m) ltac:(lia)).
      rewrite fexp64_spec in *. lia. }
    assert (Hle : (F2R 7036874417766400 (-46) <= F2R (Z.pos m) e * 100)%R)
      by (rewrite F2R_hundred; lra).
    destruct (binary_round_aux_lower (xorb false false) _ _ _ _ 7036874417766400%positive
                (-46) Hloc Hex eq_refl Hle) as [Hinf|(m' & e' & Hr & Hb' & Hle')].
    + left. exact Hinf.
    + right. exists m', e'. rewrite F2R_hundred in Hle'. auto.
Qed.

Lemma shiftl_ge_hundred m e :
  (100 <= F2R (Z.pos m) e)%R -> 100 <= Z.shiftl (Z.pos m) e.
Proof.
  intros Hle. destruct (Z_le_gt_dec 0 e) as [He|He].
  - rewrite Z.shiftl_mul_pow2 by lia.
    apply le_IZR. unfold F2R in Hle. rewrite bpow_Z in Hle by lia.
    rewrite mult_IZR. exact Hle.
  - rewrite Z.shiftl_div_pow2 by lia.
    assert (Hp : 0 < 2 ^ (- e)) by (apply Z.pow_pos_nonneg; lia).
    assert (Hm : 100 * 2 ^ (- e) <= Z.pos m).
    { apply (F2R_le_inv _ _ e). rewrite F2R_shift by lia.
      replace (e + - e) with 0 by lia. unfold F2R at 1. rewrite bpow_0. lra. }
    apply Z.div_le_lower_bound; lia.
Qed.

(** The truncated product of a quotient that is at least 1. *)
Lemma times_hundred_ge q p :
  at_least (Prim2SF q) 1 -> int_of_float (q * 100) = inr p -> 100 <= p.
Proof.
  intros Hq. unfold int_of_float.
  rewrite FloatAxioms.mul_spec, Prim2SF_hundred.
  destruct (SFmul_hundred_ge _ Hq) as [->|(m & e & -> & _ & Hle)].
  - discriminate.
  - intros Hp. injection Hp as <-. apply shiftl_ge_hundred, Hle.
Qed.

(** A positive integer is above every double that is not positive. *)
Lemma compare_int_float_neg z f m e :
  0 < z -> Prim2SF f = S754_finite true m e -> compare_int_float z f = Some Gt.
Proof.
  intros Hz Hf. unfold compare_int_float. rewrite Hf. cbn [cond_Zopp]. f_equal.
  destruct (0 <=? e) eqn:He.
  - apply Z.leb_le in He.
    assert (0 < 2 ^ e) by (apply Z.pow_pos_nonneg; lia).
    apply Z.compare_gt_iff. change (- Z.pos m) with (Z.neg m). nia.
  - apply Z.leb_gt in He.
    assert (0 < 2 ^ (- e)) by (apply Z.pow_pos_nonneg; lia).
    apply Z.compare_gt_iff. change (- Z.pos m) with (Z.neg m). nia.
Qed.

Lemma Prim2SF_bounded f s m e :
  Prim2SF f = S754_finite s m e -> SpecFloat.bounded prec emax m e = true.
Proof. intros Hf. pose proof (Prim2SF_valid f) as Hv. rewrite Hf in Hv. exact Hv. Qed.

(** The quotient of hours that are not below a positive total. *)
Lemma truediv_ge_one c t q :
  py_gt t (PInt 0) = inr true -> py_le t c = inr true ->
  py_truediv c t = inr q ->
  Prim2SF q = S754_nan \/ at_least (Prim2SF q) 1.
Proof.
  intros Hpos Htc Hq.
  destruct t as [|zt|ft|st]; try discriminate Hpos.
  - (* the total is an integer *)
    apply py_gt_int_zero in Hpos.
    destruct c as [|zc|fc|sc]; try discriminate Htc.
    + (* integer by integer *)
      apply py_le_int_int in Htc. right.
      cbn [py_truediv] in Hq. unfold int_true_divide in Hq.
      destruct (Z.eqb_spec zt 0) as [|_]; [lia|].
      destruct zt as [|pt|pt]; try lia. destruct zc as [|pc|pc]; try lia.
      cbn [Z2SF] in Hq.
      destruct (SFdiv_ge_one pc 0 pt 0) as [Hinf|(m & e & Hr & Hb & Hle)].
      { rewrite !F2R_int. apply IZR_le. exact Htc. }
      { rewrite Hinf in Hq. discriminate Hq. }
      rewrite Hr in Hq. cbn [finite_or_overflow] in Hq.
      assert (Hq' : q = SF2Prim (S754_finite false m e)) by (injection Hq as <-; reflexivity).
      right. exists m, e.
      rewrite Hq', (Prim2SF_SF2Prim (S754_finite false m e) Hb). auto.
    + (* double by integer *)
      cbn [py_truediv] in Hq.
      destruct (float_of_int zt) as [e|ft] eqn:Hft; [discriminate|]. cbn [rbind] in Hq.
      destruct (float_of_int_above zt ft 1 (-1074) Hpos Hft eq_refl
                  (min_double_le_int zt Hpos)) as (mt & et & Ht & Hbt & _).
      unfold py_le, num_compare in Htc. cbn [rbind] in Htc.
      destruct (compare_int_float zt fc) as [cmp|] eqn:Hcmp; [|discriminate].
      assert (Hne : cmp <> Gt) by (destruct cmp; [congruence|congruence|discriminate]).
      assert (Hc : at_least (Prim2SF fc) (F2R (Z.pos mt) et)).
      { destruct (Prim2SF fc) as [s|s| |s m e] eqn:Hs.
        - exfalso. unfold compare_int_float in Hcmp. rewrite Hs in Hcmp.
          injection Hcmp as <-. apply Hne. apply Z.compare_gt_iff. lia.
        - destruct s; [|left; reflexivity].
          exfalso. unfold compare_int_float in Hcmp. rewrite Hs in Hcmp.
          injection Hcmp as <-. congruence.
        - unfold compare_int_float in Hcmp. rewrite Hs in Hcmp. discriminate.
        - destruct s.
          + rewrite (compare_int_float_neg zt fc m e Hpos Hs) in Hcmp. congruence.
          + pose proof (Prim2SF_bounded fc _ _ _ Hs) as Hb.
            destruct (compare_int_float_value zt fc m e cmp Hs Hcmp) as [Hle _].
            destruct (float_of_int_below zt m e Hpos Hb (Hle Hne))
              as (f & x & Hf & Hx & Hxle).
            assert (f = ft) by congruence. subst f.
            rewrite Ht in Hx. inversion Hx; subst.
            right. exists m, e. auto. }
      destruct (float_div_ge_one fc ft mt et Hc Ht) as [Hd Hone].
      rewrite Hd in Hq. injection Hq as <-. right. exact Hone.
  - (* the total is a double *)
    destruct (float_gt_zero ft Hpos) as [Hinf|(mt & et & Ht & Hbt)].
    + (* an infinite total *)
      destruct c as [|zc|fc|sc]; try discriminate Htc.
      * exfalso. unfold py_le, num_compare, compare_int_float in Htc.
        rewrite Hinf in Htc. discriminate Htc.
      * left. unfold py_le, num_compare, compare_float in Htc. cbn [rbind] in Htc.
        rewrite FloatAxioms.compare_spec, Hinf in Htc.
        cbn [py_truediv] in Hq. unfold float_div in Hq.
        rewrite FloatAxioms.eqb_spec, Hinf, Prim2SF_zero in Hq. cbn [SFeqb SFcompare] in Hq.
        injection Hq as <-. rewrite FloatAxioms.div_spec, Hinf.
        destruct (Prim2SF fc) as [s|[|]| |[|] m e]; try discriminate Htc; reflexivity.
    + destruct c as [|zc|fc|sc]; try discriminate Htc.
      * (* integer by double *)
        unfold py_le, num_compare in Htc. cbn [rbind] in Htc.
        destruct (compare_int_float zc ft) as [cmp|] eqn:Hcmp; [|discriminate].
        assert (Hne : cmp <> Lt) by (destruct cmp; [congruence|discriminate|congruence]).
        destruct (compare_int_float_value zc ft mt et cmp Ht Hcmp) as [_ Hge].
        specialize (Hge Hne).
        assert (Hzc : 0 < zc).
        { apply lt_IZR. pose proof (F2R_pos (Z.pos mt) et ltac:(lia)). lra. }
        cbn [py_truediv] in Hq.
        destruct (float_of_int zc) as [e|fc] eqn:Hfc; [discriminate|]. cbn [rbind] in Hq.
        destruct (float_of_int_above zc fc mt et Hzc Hfc Hbt Hge) as (m & e & Hs & Hb & Hle).
        destruct (float_div_ge_one fc ft mt et) as [Hd Hone].
        { right. exists m, e. auto. }
        { exact Ht. }
        rewrite Hd in Hq. injection Hq as <-. right. exact Hone.
      * (* double by double *)
        unfold py_le, num_compare, compare_float in Htc. cbn [rbind] in Htc.
        rewrite FloatAxioms.compare_spec, Ht in Htc.
        assert (Hc : at_least (Prim2SF fc) (F2R (Z.pos mt) et)).
        { destruct (Prim2SF fc) as [s|[|]| |[|] m e] eqn:Hs; try discriminate Htc.
          - left. reflexivity.
          - pose proof (Prim2SF_bounded fc _ _ _ Hs) as Hb.
            destruct (SFcompare (S754_finite false mt et) (S754_finite false m e))
              as [cmp|] eqn:Hcmp; [|discriminate].
            right. exists m, e. split; [reflexivity|]. split; [exact Hb|].
            apply (SFcompare_pos_le mt et m e cmp Hbt Hb Hcmp).
            destruct cmp; [congruence|congruence|discriminate]. }
        cbn [py_truediv] in Hq.
        destruct (float_div_ge_one fc ft mt et Hc Ht) as [Hd Hone].
        rewrite Hd in Hq. injection Hq as <-. right. exact Hone.
Qed.

(** Completed hours that are not below a positive total give at least 100
    percent, when the expression returns. *)
Lemma percent_complete_ge_100 c t p :
  py_gt t (PInt 0) = inr true -> py_le t c = inr true ->
  percent_complete c t = inr p -> 100 <= p.
Proof.
  intros Hpos Htc Hp. unfold percent_complete in Hp. rewrite Hpos in Hp. cbn [rbind] in Hp.
  destruct (py_truediv c t) as [e|q] eqn:Hq; [discriminate|]. cbn [rbind] in Hp.
  destruct (truediv_ge_one c t q Hpos Htc Hq) as [Hnan|Hone].
  - unfold int_of_float in Hp. rewrite FloatAxioms.mul_spec, Hnan in Hp. discriminate Hp.
  - exact (times_hundred_ge q p Hone Hp).
Qed.

Lemma py_le_refl_pos c : py_gt c (PInt 0) = inr true -> py_le c c = inr true.
Proof.
  intros Hpos. destruct c as [|z|f|s]; try discriminate Hpos.
  - unfold py_le, num_compare. cbn [rbind]. rewrite Z.compare_refl. reflexivity.
  - unfold py_le, num_compare, compare_float. cbn [rbind].
    rewrite FloatAxioms.compare_spec.
    destruct (float_gt_zero f Hpos) as [->|(m & e & -> & _)]; [reflexivity|].
    cbn [SFcompare]. rewrite Z.compare_refl.
    change (Pos.compare_cont Eq m m) with (Pos.compare m m).
    rewrite Pos.compare_refl. reflexivity.
Qed.

Lemma py_le_zero_pos c : py_gt c (PInt 0) = inr true -> py_le (PInt 0) c = inr true.
Proof.
  intros Hpos. destruct c as [|z|f|s]; try discriminate Hpos.
  - apply py_gt_int_zero in Hpos. unfold py_le, num_compare. cbn [rbind].
    destruct (Z.compare_spec 0 z); try reflexivity; lia.
  - unfold py_le, num_compare, compare_int_float. cbn [rbind].
    destruct (float_gt_zero f Hpos) as [->|(m & e & -> & _)]; [reflexivity|].
    rewrite compare_zero_scaled. reflexivity.
Qed.

(** The integer 0 plus positive hours is those hours. *)
Lemma add_int_zero c total :
  py_gt c (PInt 0) = inr true -> py_add (PInt 0) c = inr total -> total = c.
Proof.
  intros Hpos Hadd. destruct c as [|z|f|s]; try discriminate Hpos.
  - cbn [py_add] in Hadd. injection Hadd as <-. reflexivity.
  - change (py_add (PInt 0) (PFloat f)) with (@inr exn pyval (PFloat (0 + f))) in Hadd.
    injection Hadd as <-. f_equal. apply Prim2SF_inj.
    rewrite FloatAxioms.add_spec, Prim2SF_zero.
    destruct (float_gt_zero f Hpos) as [->|(m & e & -> & _)]; reflexivity.
Qed.

(** A stage with positive hours completed and the integer 0 remaining. *)
Lemma stage_nothing_remaining completed total p :
  py_gt completed (PInt 0) = inr true ->
  py_add (PInt 0) completed = inr total ->
  percent_complete completed total = inr p -> p = 100.
Proof.
  intros Hpos Hadd Hp.
  rewrite (add_int_zero completed total Hpos Hadd) in Hp.
  pose proof (py_le_refl_pos completed Hpos) as Hrefl.
  pose proof (percent_complete_range completed completed p
                (py_le_zero_pos completed Hpos) Hrefl Hp).
  pose proof (percent_complete_ge_100 completed completed p Hpos Hrefl Hp).
  lia.
Qed.

(** Hours that have reached a positive total are positive. *)
Lemma reached_is_positive c t :
  py_gt t (PInt 0) = inr true -> py_le t c = inr true -> py_gt c (PInt 0) = inr true.
Proof.
  intros Hpos Htc.
  destruct t as [|zt|ft|st]; try discriminate Hpos;
    destruct c as [|zc|fc|sc]; try discriminate Htc.
  - apply py_gt_int_zero in Hpos. apply py_le_int_int in Htc.
    unfold py_gt, num_compare. cbn [rbind].
    destruct (Z.compare_spec zc 0); try reflexivity; lia.
  - apply py_gt_int_zero in Hpos.
    unfold py_le, num_compare in Htc. cbn [rbind] in Htc.
    unfold py_gt, num_compare. cbn [rbind option_map].
    pose proof (compare_int_float_neg zt fc) as Hneg.
    unfold compare_int_float in Htc, Hneg |- *.
    destruct (Prim2SF fc) as [s|[|]| |[|] m e]; try discriminate Htc.
    + exfalso. revert Htc. destruct (Z.compare_spec zt 0); try discriminate; lia.
    + reflexivity.
    + pose proof (Hneg m e Hpos eq_refl) as Hgt.
      cbv zeta in Htc, Hgt. cbn [cond_Zopp] in Htc, Hgt.
      injection Hgt as Hgt. rewrite Hgt in Htc. discriminate Htc.
    + rewrite compare_zero_scaled. reflexivity.
  - unfold py_le, num_compare in Htc. cbn [rbind] in Htc.
    unfold py_gt, num_compare. cbn [rbind].
    assert (Hzc : 0 < zc).
    { destruct (float_gt_zero ft Hpos) as [Hinf|(mt & et & Ht & Hbt)].
      - unfold compare_int_float in Htc. rewrite Hinf in Htc. discriminate Htc.
      - destruct (compare_int_float zc ft) as [cmp|] eqn:Hcmp; [|discriminate].
        destruct (compare_int_float_value zc ft mt et cmp Ht Hcmp) as [_ Hge].
        assert (Hne : cmp <> Lt) by (destruct cmp; [congruence|discriminate|congruence]).
        specialize (Hge Hne).
        pose proof (F2R_pos (Z.pos mt) et ltac:(lia)) as Hp0.
        apply lt_IZR. lra. }
    destruct (Z.compare_spec zc 0); try reflexivity; lia.
  - unfold py_le, num_compare, compare_float in Htc. cbn [rbind] in Htc.
    rewrite FloatAxioms.compare_spec in Htc.
    unfold py_gt, num_compare, compare_int_float. cbn [rbind option_map].
    destruct (float_gt_zero ft Hpos) as [Hinf|(mt & et & Ht & Hbt)].
    + rewrite Hinf in Htc.
      destruct (Prim2SF fc) as [s|[|]| |[|] m e]; try discriminate Htc. reflexivity.
    + rewrite Ht in Htc.
      destruct (Prim2SF fc) as [s|[|]| |[|] m e]; try discriminate Htc.
      * reflexivity.
      * rewrite compare_zero_scaled. reflexivity.
Qed.

(** X12. Work that is done shows as done. In a summary
    [calculate_shift_workload] returns, positive total hours that the
    completed hours have reached give a percentage of at least 100, and of
    exactly 100 when the two are equal. In an entry [get_stage_breakdown]
    returns, positive completed hours with the integer 0 remaining (what the
    statement's SUM gives when no work order is open) give exactly 100; and
    whenever the positive sum of the two is not above the completed hours,
    at least 100. *)
Theorem done_work_shows_100 W shift target_date log :
  (forall summary log',
     calculate_shift_workload W shift target_date log = (inr summary, log') ->
     exists completed total p,
       summary !! "completed_hours" = Some completed /\
       summary !! "total_hours" = Some total /\
       summary !! "percent_complete" = Some (PInt p) /\
       (py_gt total (PInt 0) = inr true -> py_le total completed = inr true ->
        100 <= p /\ (py_le completed total = inr true -> p = 100))) /\
  (forall rows log',
     get_stage_breakdown W shift target_date log = (inr rows, log') ->
     Forall
       (fun r => exists remaining completed p,
          r !! "hours_remaining" = Some remaining /\
          r !! "hours_completed" = Some completed /\
          r !! "percent_complete" = Some (PInt p) /\
          (remaining = PInt 0 -> py_gt completed (PInt 0) = inr true -> p = 100) /\
          (forall total,
             py_add remaining completed = inr total ->
             py_gt total (PInt 0) = inr true -> py_le total completed = inr true ->
             100 <= p))
       rows).
Proof.
  split.
  - intros summary log' H.
    destruct (workload_returns _ _ _ _ _ _ H)
      as [? ? ? ? ? ? completed ? ? ? total p ? ? _ _ _ _ _ _ _ _ Hp _ _].
    exists completed, total, p.
    split; [reflexivity|]. split; [reflexivity|]. split; [reflexivity|].
    intros Hpos Htc.
    pose proof (percent_complete_ge_100 completed total p Hpos Htc Hp) as Hge.
    split; [exact Hge|]. intros Hct.
    pose proof (py_le_zero_pos completed (reached_is_positive completed total Hpos Htc))
      as Hc0.
    pose proof (percent_complete_range completed total p Hc0 Hct Hp). lia.
  - intros rows log' H. unfold get_stage_breakdown in H.
    apply bind_returns in H as (results & log1 & _ & H).
    apply lift_returns in H as [H _].
    apply mapM_returns in H.
    induction H as [|r r' results rows Hadd _ IH]; constructor; [|exact IH].
    apply add_percent_returns in Hadd
      as (remaining & completed & total & p & Hr & Hc & Ht & Hp & ->).
    exists remaining, completed, p.
    rewrite !lookup_insert_ne by discriminate. rewrite lookup_insert.
    split; [exact Hr|]. split; [exact Hc|]. split; [reflexivity|]. split.
    + intros -> Hpos. exact (stage_nothing_remaining completed total p Hpos Ht Hp).
    + intros total' Ht' Hpos Htc.
      assert (total' = total) by congruence. subst total'.
      exact (percent_complete_ge_100 completed total p Hpos Htc Hp).
Qed.

(** A shift whose 50 estimated hours are completed, and the Installation
    stage of a store whose work orders are all complete. *)
Lemma done_work_shows_100_witness :
  (exists summary log',
     calculate_shift_workload Sample.world_all_done (Some "day") None [] = (inr summary, log') /\
     summary !! "percent_complete" = Some (PInt 100)) /\
  (exists entry rest log',
     get_stage_breakdown Sample.finished_world (Some "day") None [] = (inr (entry :: rest), log') /\
     entry !! "stage_name" = Some (PStr "Installation") /\
     entry !! "percent_complete" = Some (PInt 100)).
Proof.
  split.
  - assert (H : summary_field
                  (calculate_shift_workload Sample.world_all_done (Some "day") None [])
                <$> ["completed_hours"; "total_hours"]
                = [Some (PFloat 50); Some (PFloat 50)])
      by (vm_compute; reflexivity).
    unfold summary_field, returned in H.
    destruct (calculate_shift_workload Sample.world_all_done (Some "day") None [])
      as [[e|summary] log'] eqn:Hrun; [discriminate H|].
    injection H as Hc Ht. exists summary, log'. split; [reflexivity|].
    destruct (proj1 (done_work_shows_100 Sample.world_all_done (Some "day") None [])
                summary log' Hrun) as (completed & total & p & Hc' & Ht' & Hp & Hdone).
    assert (completed = PFloat 50) by congruence.
    assert (total = PFloat 50) by congruence. subst completed total.
    rewrite Hp. do 2 f_equal.
    apply Hdone; reflexivity.
  - assert (H : entry_field (get_stage_breakdown Sample.finished_world (Some "day") None []) 0
                <$> ["stage_name"; "hours_remaining"; "hours_completed"]
                = [Some (PStr "Installation"); Some (PInt 0); Some (PFloat 37.5)])
      by (vm_compute; reflexivity).
    unfold entry_field, returned in H.
    destruct (get_stage_breakdown Sample.finished_world (Some "day") None [])
      as [[e|[|entry rest]] log'] eqn:Hrun; try discriminate H.
    injection H as Hn Hr Hc. exists entry, rest, log'.
    split; [reflexivity|]. split; [exact Hn|].
    pose proof (proj2 (done_work_shows_100 Sample.finished_world (Some "day") None [])
                  (entry :: rest) log' Hrun) as Hall.
    apply Forall_cons_1 in Hall as [(remaining & completed & p & Hr' & Hc' & Hp & Hdone & _) _].
    assert (remaining = PInt 0) by congruence.
    assert (completed = PFloat 37.5) by congruence. subst remaining completed.
    rewrite Hp. do 2 f_equal.
    apply Hdone; reflexivity.
Defined.
